(** * Subtitle translation pipeline: a shallow embedding of
      [english_to_swedish_subtitle_translator.py] (class [TranslationWorker])

    The development follows the worker leaf-first: Python string
    primitives, the fragment of [re] the worker uses, the subtitle
    codec ([parse_srt], [save_srt]), the placeholder protector
    ([protect_content], [restore_content]), the prompt builder
    ([generate_system_prompt]), the translation client
    ([translate_text]) and the batch driver ([process_file], [run]).

    Conventions.
    - A Python [str] is a [list ascii]; a character is a code point
      below 256, so the Unicode-aware predicates ([str.isspace], [\d],
      [str.lower]) are written out for that range.
    - A Python [dict] is an association list in insertion order,
      because [restore_content] iterates [replacements.items()] and
      the order of the substitutions is observable.
    - Effects (Qt signals, [requests.post], [time.sleep], the file
      system, the shared cancellation flag) are threaded through an
      explicit state [St]; what the outside answers (the endpoint, the
      flag, the disk when a file is written) is an [Env].
    - Paths are POSIX paths. *)

From Stdlib Require Import Ascii String.
From Stdlib Require Import List Bool Arith Lia.
From Stdlib Require Decimal DecimalString DecimalNat.
Import ListNotations.

(* ================================================================== *)
(** * Python strings *)
(* ================================================================== *)

Module Py.

Definition str := list ascii.

(** String literals: [L "abc"] is the Python literal ['abc']. *)
Definition L (s : string) : str := list_ascii_of_string s.

Definition nl : ascii := ascii_of_nat 10.

Definition code (c : ascii) : nat := nat_of_ascii c.

Definition between (lo hi : nat) (c : ascii) : bool :=
  (lo <=? code c) && (code c <=? hi).

(** [\d] and [str.isdigit] below code point 256: only [0-9] are in
    category Nd. *)
Definition isdigit (c : ascii) : bool := between 48 57 c.

(** [str.isspace] / [\s] below code point 256. *)
Definition isspace (c : ascii) : bool :=
  between 9 13 c || between 28 32 c || (code c =? 133) || (code c =? 160).

Definition isalpha_az (c : ascii) : bool := between 97 122 c.
Definition isalpha_AZ (c : ascii) : bool := between 65 90 c.

(** [str.lower] on one character (Latin-1 range). *)
Definition lower_char (c : ascii) : ascii :=
  if isalpha_AZ c || between 192 214 c || between 216 222 c
  then ascii_of_nat (code c + 32) else c.

Definition lower (s : str) : str := map lower_char s.

Definition str_eqb (a b : str) : bool :=
  if list_eq_dec ascii_dec a b then true else false.

(** [s.startswith(p)] *)
Fixpoint startswith (s p : str) {struct p} : bool :=
  match p, s with
  | [], _ => true
  | _ :: _, [] => false
  | a :: p', c :: s' => Ascii.eqb a c && startswith s' p'
  end.

(** [p in s] *)
Fixpoint contains (s p : str) : bool :=
  startswith s p ||
  match s with
  | [] => false
  | _ :: s' => contains s' p
  end.

(** [s.lstrip()], [s.rstrip()], [s.strip()] *)
Fixpoint lstrip (s : str) : str :=
  match s with
  | c :: s' => if isspace c then lstrip s' else s
  | [] => []
  end.

Definition rstrip (s : str) : str := List.rev (lstrip (List.rev s)).

Definition strip (s : str) : str := rstrip (lstrip s).

(** [s.replace(old, new)]: left to right, non-overlapping.  [skip]
    counts the characters of a match that are still to be passed over.
    With an empty [old] Python inserts [new] before every character and
    at the end. *)
Fixpoint replace_from (old new : str) (skip : nat) (s : str) : str :=
  match s with
  | [] => []
  | c :: s' =>
      match skip with
      | S n => replace_from old new n s'
      | O =>
          if startswith s old
          then new ++ replace_from old new (length old - 1) s'
          else c :: replace_from old new 0 s'
      end
  end.

Definition replace (s old new : str) : str :=
  match old with
  | [] => flat_map (fun c => new ++ [c]) s ++ new
  | _ :: _ => replace_from old new 0 s
  end.

(** [str(n)] / [f"{n}"] for a non-negative integer. *)
Definition of_nat (n : nat) : str :=
  L (DecimalString.NilEmpty.string_of_uint (Nat.to_uint n)).

(** [rfind('.')] style split used by [pathlib]: position of the last
    occurrence of [c], if any. *)
Fixpoint rfind (c : ascii) (s : str) : option nat :=
  match s with
  | [] => None
  | a :: s' =>
      match rfind c s' with
      | Some i => Some (S i)
      | None => if Ascii.eqb a c then Some 0 else None
      end
  end.

(** [repr] of a [str] whose code points are below 256, which is how
    [str(e)] of an [OSError] shows the file name: in single quotes,
    or in double quotes when the string holds a single and no double
    quote; the quote and the backslash are escaped, tab, newline and
    carriage return are written [\t], [\n], [\r], and what is not
    printable is written [\xhh]. *)
Definition squote : ascii := ascii_of_nat 39.
Definition dquote : ascii := ascii_of_nat 34.
Definition backslash : ascii := ascii_of_nat 92.
Definition cr : ascii := ascii_of_nat 13.

(** [str.isprintable] below code point 256. *)
Definition isprintable (c : ascii) : bool :=
  between 32 126 c || between 161 172 c || between 174 255 c.

Definition hex_digit (n : nat) : ascii :=
  nth n (L "0123456789abcdef") "0"%char.

Definition repr_char (quote c : ascii) : str :=
  if Ascii.eqb c quote || Ascii.eqb c backslash then [backslash; c]
  else if code c =? 9 then [backslash; "t"%char]
  else if code c =? 10 then [backslash; "n"%char]
  else if code c =? 13 then [backslash; "r"%char]
  else if isprintable c then [c]
  else [backslash; "x"%char; hex_digit (code c / 16); hex_digit (code c mod 16)].

Definition repr (s : str) : str :=
  let quote :=
    if existsb (Ascii.eqb squote) s && negb (existsb (Ascii.eqb dquote) s)
    then dquote else squote in
  quote :: flat_map (repr_char quote) s ++ [quote].

(** What a file opened in text mode with the default [newline=None]
    hands to [read]: [\r\n] and a lone [\r] become [\n]. *)
Fixpoint universal_newlines (s : str) : str :=
  match s with
  | [] => []
  | c :: rest =>
      if Ascii.eqb c cr then
        match rest with
        | c' :: rest' =>
            if Ascii.eqb c' nl then nl :: universal_newlines rest'
            else nl :: universal_newlines rest
        | [] => [nl]
        end
      else c :: universal_newlines rest
  end.

End Py.

Import Py.

(* ================================================================== *)
(** * The fragment of [re] used by the worker *)
(* ================================================================== *)

Module Re.

(** Abstract syntax.  Every quantifier in the worker's patterns is
    applied to a single character class, which is what [Rep] covers
    ([\d+], [\d{2}], [[^>]+], [[\s\S]*?], [[a-z]{2,3}]); [Opt] is the
    greedy [?] on a group. *)
Inductive regex : Type :=
| Eps
| Chr (p : ascii -> bool)
| Seq (r1 r2 : regex)
| Alt (r1 r2 : regex)
| Opt (r : regex)
| Rep (greedy : bool) (lo : nat) (hi : option nat) (p : ascii -> bool)
| Group (r : regex)
| Ahead (r : regex)
| Eos.

Definition room (hi : option nat) : bool :=
  match hi with
  | None => true
  | Some n => negb (n =? 0)
  end.

Definition less (hi : option nat) : option nat := option_map pred hi.

(** Backtracking repetition of a character class with continuation
    [k]: the greedy form prefers one more character, the lazy form
    prefers to stop. *)
Fixpoint rep {A : Type} (greedy : bool) (p : ascii -> bool)
    (lo : nat) (hi : option nat) (s : str) (k : str -> option A)
  : option A :=
  let stop := if lo =? 0 then k s else None in
  let more :=
    match s with
    | c :: s' =>
        if p c && room hi then rep greedy p (pred lo) (less hi) s' k
        else None
    | [] => None
    end in
  if greedy
  then match more with Some x => Some x | None => stop end
  else match stop with Some x => Some x | None => more end.

(** [$] without [re.MULTILINE]: at the end of the string, or just
    before a newline that ends the string. *)
Definition at_end (s : str) : bool :=
  match s with
  | [] => true
  | [c] => Ascii.eqb c nl
  | _ => false
  end.

(** Backtracking matcher in continuation-passing style.  [caps]
    collects the text of the capturing groups in the order in which
    they close. *)
Fixpoint rmatch (r : regex) {A : Type} (s : str) (caps : list str)
    (k : str -> list str -> option A) : option A :=
  match r with
  | Eps => k s caps
  | Chr p =>
      match s with
      | c :: s' => if p c then k s' caps else None
      | [] => None
      end
  | Seq r1 r2 => rmatch r1 s caps (fun s1 c1 => rmatch r2 s1 c1 k)
  | Alt r1 r2 =>
      match rmatch r1 s caps k with
      | Some x => Some x
      | None => rmatch r2 s caps k
      end
  | Opt r1 =>
      match rmatch r1 s caps k with
      | Some x => Some x
      | None => k s caps
      end
  | Rep g lo hi p => rep g p lo hi s (fun s' => k s' caps)
  | Group r1 =>
      rmatch r1 s caps
        (fun s' c' => k s' (c' ++ [firstn (length s - length s') s]))
  | Ahead r1 =>
      match rmatch r1 s caps (fun _ c' => Some c') with
      | Some c' => k s c'
      | None => None
      end
  | Eos => if at_end s then k s caps else None
  end.

(** One match attempt anchored at the start of [s]: the matched text,
    the groups, and the rest of the input. *)
Definition match_here (r : regex) (s : str) : option (str * list str * str) :=
  rmatch r s [] (fun s' caps => Some (firstn (length s - length s') s, caps, s')).

(** [re.finditer]: leftmost matches, scanning left to right and
    resuming where the previous match ended.  [skip] counts the
    characters of the last match that are still to be passed over.
    After an empty match the scan moves on by one character; none of
    the worker's patterns matches the empty string. *)
Fixpoint finditer_from (r : regex) (skip : nat) (s : str)
  : list (str * list str) :=
  match s with
  | [] =>
      match skip with
      | O => match match_here r [] with
             | Some (m, caps, _) => [(m, caps)]
             | None => []
             end
      | S _ => []
      end
  | _ :: s' =>
      match skip with
      | S n => finditer_from r n s'
      | O =>
          match match_here r s with
          | Some (m, caps, _) => (m, caps) :: finditer_from r (length m - 1) s'
          | None => finditer_from r 0 s'
          end
      end
  end.

Definition finditer (r : regex) (s : str) : list (str * list str) :=
  finditer_from r 0 s.

(** [re.sub(r, repl, s)] for a literal replacement [repl]. *)
Fixpoint sub_from (r : regex) (repl : str) (skip : nat) (s : str) : str :=
  match s with
  | [] =>
      match skip with
      | O => match match_here r [] with
             | Some _ => repl
             | None => []
             end
      | S _ => []
      end
  | c :: s' =>
      match skip with
      | S n => sub_from r repl n s'
      | O =>
          match match_here r s with
          | Some (m, _, _) =>
              match m with
              | [] => repl ++ c :: sub_from r repl 0 s'
              | _ :: _ => repl ++ sub_from r repl (length m - 1) s'
              end
          | None => c :: sub_from r repl 0 s'
          end
      end
  end.

Definition sub (r : regex) (repl s : str) : str := sub_from r repl 0 s.

(** Building blocks. *)
Definition chr (c : ascii) : regex := Chr (Ascii.eqb c).
Definition any : ascii -> bool := fun _ => true.
Definition exactly (n : nat) (p : ascii -> bool) : regex := Rep true n (Some n) p.
Definition plus (p : ascii -> bool) : regex := Rep true 1 None p.
Definition lazy_star (p : ascii -> bool) : regex := Rep false 0 None p.
Definition seqs (rs : list regex) : regex := fold_right Seq Eps rs.
Definition lits (s : str) : regex := seqs (map chr s).

End Re.

Import Re.

(* ================================================================== *)
(** * Subtitle codec *)
(* ================================================================== *)

(** A block is the tuple [(index, timecode, text)]. *)
Definition block : Type := str * str * str.

(** [\d{2}:\d{2}:\d{2},\d{3}] *)
Definition timecode_pattern : regex :=
  seqs [exactly 2 isdigit; chr ":"; exactly 2 isdigit; chr ":";
        exactly 2 isdigit; chr ","; exactly 3 isdigit].

(** [(\d+)\n(\d{2}:\d{2}:\d{2},\d{3} --> \d{2}:\d{2}:\d{2},\d{3})\n([\s\S]*?)(?=\n\n|$)] *)
Definition srt_pattern : regex :=
  seqs [Group (plus isdigit); chr nl;
        Group (seqs [timecode_pattern; lits (L " --> "); timecode_pattern]);
        chr nl;
        Group (lazy_star any);
        Ahead (Alt (Seq (chr nl) (chr nl)) Eos)].

(** [parse_srt]: one block per match, the text group stripped. *)
Definition block_of_match (m : str * list str) : block :=
  (nth 0 (snd m) [], nth 1 (snd m) [], strip (nth 2 (snd m) [])).

Definition parse_srt (content : str) : list block :=
  map block_of_match (finditer srt_pattern content).

(** [save_srt]: the text written to the file,
    [f"{index}\n{timecode}\n{text}\n\n"] per block. *)
Definition block_text (b : block) : str :=
  let '(index, timecode, text) := b in
  index ++ [nl] ++ timecode ++ [nl] ++ text ++ [nl; nl].

Definition srt_text (blocks : list block) : str :=
  flat_map block_text blocks.

(* ================================================================== *)
(** * Placeholder protector *)
(* ================================================================== *)

(** [replacements]: a [dict] in insertion order.  Assigning to a key
    that is present keeps its position and overwrites the value. *)
Definition dict : Type := list (str * str).

Fixpoint dict_set (d : dict) (k v : str) : dict :=
  match d with
  | [] => [(k, v)]
  | (k', v') :: d' =>
      if str_eqb k' k then (k', v) :: d' else (k', v') :: dict_set d' k v
  end.

Definition enumerate {A : Type} (l : list A) : list (nat * A) :=
  combine (seq 0 (length l)) l.

(** [<([^>]+)>] *)
Definition tag_pattern : regex :=
  seqs [chr "<"; Group (plus (fun c => negb (Ascii.eqb c ">"))); chr ">"].

(** [re.findall] returns the whole match for a pattern without groups
    and the group for a pattern with one group. *)
Definition findall_whole (r : regex) (s : str) : list str :=
  map fst (finditer r s).

Definition findall_group (r : regex) (s : str) : list str :=
  map (fun m => nth 0 (snd m) []) (finditer r s).

Definition time_placeholder (idx : nat) : str :=
  L "<TIME_" ++ of_nat idx ++ L ">".

Definition tag_placeholder (idx : nat) (full_tag : str) : str :=
  if startswith full_tag (L "</")
  then L "<ETAG_" ++ of_nat idx ++ L ">"
  else L "<BTAG_" ++ of_nat idx ++ L ">".

(** Body of the first loop of [protect_content]. *)
Definition protect_time (st : str * dict) (it : nat * str) : str * dict :=
  let '(protected_text, replacements) := st in
  let '(idx, tc) := it in
  let placeholder := time_placeholder idx in
  (replace protected_text tc placeholder, dict_set replacements placeholder tc).

(** Body of the second loop of [protect_content]. *)
Definition protect_tag (st : str * dict) (it : nat * str) : str * dict :=
  let '(protected_text, replacements) := st in
  let '(idx, tag) := it in
  let full_tag := L "<" ++ tag ++ L ">" in
  let placeholder := tag_placeholder idx full_tag in
  (replace protected_text full_tag placeholder,
   dict_set replacements placeholder full_tag).

Definition protect_content (text : str) : str * dict :=
  let timecodes := findall_whole timecode_pattern text in
  let st := fold_left protect_time (enumerate timecodes) (text, []) in
  let tags := findall_group tag_pattern text in
  fold_left protect_tag (enumerate tags) st.

Definition restore_content (text : str) (replacements : dict) : str :=
  fold_left (fun restored_text kv => replace restored_text (fst kv) (snd kv))
            replacements text.

(* ================================================================== *)
(** * Job configuration and prompt builder *)
(* ================================================================== *)

(** [self.files] is whatever object the caller handed to the
    constructor; [len] and [enumerate] only work on a list. *)
Inductive pyfiles : Type :=
| PyList (l : list str)
| PyNone.

Record Job : Type := {
  files : pyfiles;
  target_lang : str;
  style : str;
  model : str;
  advanced_prompt : str;
  base_url : str
}.

Definition RETRY_COUNT : nat := 2.
Definition RETRY_DELAY : nat := 5.

Definition STYLES : list str :=
  [L "Natural (recommended)"; L "Formal"; L "Simple clear"].

Definition style_map : dict :=
  [(L "Natural (recommended)", L "natural");
   (L "Formal", L "formal");
   (L "Simple clear", L "simple and clear")].

(** [d.get(k, default)] *)
Fixpoint dict_get (d : dict) (k default : str) : str :=
  match d with
  | [] => default
  | (k', v) :: d' => if str_eqb k' k then v else dict_get d' k default
  end.

Definition style_desc (style : str) : str :=
  dict_get style_map style (L "natural").

Definition default_prompt (target_lang style : str) : str :=
  L "Translate the following text from English into " ++ target_lang ++ L "." ++ [nl]
  ++ L "Use " ++ style_desc style ++ L " style. Important:" ++ [nl]
  ++ L "Only translate the USER text." ++ [nl]
  ++ L "Keep placeholders like <BTAG_0>, <ETAG_0>, <TIME_0> unchanged." ++ [nl]
  ++ L "Never translate content inside placeholders." ++ [nl]
  ++ L "Do NOT add explanations or commentary." ++ [nl]
  ++ L "Answer with the translated text only.".

Definition generate_system_prompt (job : Job) (protected_text : str) : str :=
  let prompt := default_prompt (target_lang job) (style job) in
  match strip (advanced_prompt job) with
  | _ :: _ => advanced_prompt job
  | [] => prompt
  end.

(* ================================================================== *)
(** * Target path *)
(* ================================================================== *)

(** [pathlib] on POSIX paths in normal form (no trailing or doubled
    slash, no [.] component): [name], [parent], [stem], [suffix] and
    the [/] operator. *)
Module Path.

Definition slash : ascii := "/"%char.
Definition dot : ascii := "."%char.

Definition name (p : str) : str :=
  match rfind slash p with
  | Some i => skipn (S i) p
  | None => p
  end.

Definition parent (p : str) : str :=
  match rfind slash p with
  | Some O => [slash]
  | Some i => firstn i p
  | None => [dot]
  end.

(** [0 < i < len(name) - 1] for [i = name.rfind('.')] *)
Definition suffix_at (n : str) : option nat :=
  match rfind dot n with
  | Some i => if (0 <? i) && (i <? length n - 1) then Some i else None
  | None => None
  end.

Definition suffix (p : str) : str :=
  match suffix_at (name p) with
  | Some i => skipn i (name p)
  | None => []
  end.

Definition stem (p : str) : str :=
  match suffix_at (name p) with
  | Some i => firstn i (name p)
  | None => name p
  end.

Definition join (dir child : str) : str :=
  if str_eqb dir [dot] then child
  else if str_eqb dir [slash] then slash :: child
  else dir ++ slash :: child.

End Path.

Definition letter (c : ascii) : bool := isalpha_az c || isalpha_AZ c.

(** [\.[a-z]{2,3}(-[a-zA-Z]{2,3})?$] under [re.IGNORECASE]: both
    classes match the letters of either case. *)
Definition lang_suffix_pattern : regex :=
  seqs [chr "."; Rep true 2 (Some 3) letter;
        Opt (Group (seqs [chr "-"; Rep true 2 (Some 3) letter]));
        Eos].

Definition get_target_path (job : Job) (file_path : str) : str :=
  let stem := Path.stem file_path in
  let stem := sub lang_suffix_pattern [] stem in
  Path.join (Path.parent file_path)
            (stem ++ L "." ++ target_lang job ++ Path.suffix file_path).

(* ================================================================== *)
(** * Effects *)
(* ================================================================== *)

(** What the worker does to the outside, in order. *)
Inductive event : Type :=
| Log (msg : str)                       (* log_message.emit(msg) *)
| Progress (current total : nat)        (* progress.emit(current, total) *)
| ErrorSig (msg : str)                  (* error.emit(msg) *)
| Finished                              (* finished.emit() *)
| Post (url model system user : str)    (* requests.post(url, json=payload, timeout=30) *)
| Sleep (seconds : nat)                 (* time.sleep(seconds) *)
| Polled (answer : bool)                (* is_cancelled() returned answer *)
| Opened (path : str)                   (* open(path, 'w'): created or truncated *)
| Wrote (path data : str).              (* f.write: the data that reached the file *)

(** Outcome of one [requests.post]: a response with its status code,
    its [text], and what [response.json()['message']['content']]
    evaluates to (a string, or the text of the exception it raises);
    or the text of the exception raised by [post] itself. *)
Inductive response : Type :=
| Resp (status_code : nat) (text : str) (content : str + str)
| Raised (exc : str).

(** The outside world as the worker meets it: the answer of the n-th
    network call; the value of the shared flag at the n-th call of
    [is_cancelled] (the flag is written by [cancel] on another thread,
    under the same lock); and what the disk does when a file is
    written, given the files as they are.  [creat files path] is
    [None] when [open(path, 'w')] creates or truncates the file, or
    the text of the [OSError] it raises.  [store files path data] is
    [None] when a write of [data] reaches the file, or the number of
    characters that still reached it and the text of the [OSError];
    an error that Python raises later, from a flush or from the close
    at the end of the [with] block, counts for the write whose data it
    cuts short. *)
Record Env : Type := {
  net : nat -> str -> str -> response;
  flag : nat -> bool;
  creat : list (str * str) -> str -> option str;
  store : list (str * str) -> str -> str -> option (nat * str)
}.

Record St : Type := {
  fs : list (str * str);     (* path, content; the first entry for a path counts *)
  posts : nat;               (* network calls made so far *)
  polls : nat;               (* calls of is_cancelled so far *)
  trace : list event
}.

Inductive res (A : Type) : Type :=
| Val (a : A)
| Exc (msg : str).
Arguments Val {A} a.
Arguments Exc {A} msg.

Definition M (A : Type) : Type := St -> res A * St.

Definition ret {A : Type} (a : A) : M A := fun st => (Val a, st).

Definition bind {A B : Type} (m : M A) (f : A -> M B) : M B :=
  fun st =>
    match m st with
    | (Val a, st') => f a st'
    | (Exc e, st') => (Exc e, st')
    end.

Definition raise {A : Type} (msg : str) : M A := fun st => (Exc msg, st).

(** [try: m  except Exception as e: h(str(e))] *)
Definition try_except {A : Type} (m : M A) (h : str -> M A) : M A :=
  fun st =>
    match m st with
    | (Val a, st') => (Val a, st')
    | (Exc e, st') => h e st'
    end.

Declare Scope monad_scope.
Delimit Scope monad_scope with monad.
Notation "x <- m ;; k" := (bind m (fun x => k))
  (at level 61, m at next level, right associativity) : monad_scope.
Notation "m ;;; k" := (bind m (fun _ => k))
  (at level 61, right associativity) : monad_scope.
Open Scope monad_scope.

Definition emit (e : event) : M unit :=
  fun st => (Val tt, {| fs := fs st; posts := posts st; polls := polls st;
                        trace := trace st ++ [e] |}).

Fixpoint lookup (files : list (str * str)) (path : str) : option str :=
  match files with
  | [] => None
  | (p, c) :: rest => if str_eqb p path then Some c else lookup rest path
  end.

(** [path.exists()] *)
Definition path_exists (path : str) : M bool :=
  fun st => (Val (match lookup (fs st) path with Some _ => true | None => false end), st).

(** [open(path, 'r', encoding='utf-8').read()]: the text of the file
    with universal newlines, or [FileNotFoundError], whose [str] shows
    the [repr] of the path. *)
Definition read_file (path : str) : M str :=
  fun st =>
    match lookup (fs st) path with
    | Some c => (Val (universal_newlines c), st)
    | None => (Exc (L "[Errno 2] No such file or directory: " ++ repr path), st)
    end.

(** The data joins the content of the first entry for [path]. *)
Fixpoint fs_append (files : list (str * str)) (path data : str) : list (str * str) :=
  match files with
  | [] => [(path, data)]
  | (p, c) :: rest =>
      if str_eqb p path then (p, c ++ data) :: rest
      else (p, c) :: fs_append rest path data
  end.

Section Worker.

Variable env : Env.
Variable job : Job.

(** [open(path, 'w', encoding='utf-8')]: the file is created, or
    emptied if it is there, unless the call raises. *)
Definition open_w (path : str) : M unit :=
  fun st =>
    match creat env (fs st) path with
    | Some msg => (Exc msg, st)
    | None =>
        (Val tt, {| fs := (path, []) :: fs st; posts := posts st; polls := polls st;
                    trace := trace st ++ [Opened path] |})
    end.

(** [f.write(data)] on the file opened at [path].  The newline is
    written as it is given, as on POSIX. *)
Definition f_write (path data : str) : M unit :=
  fun st =>
    match store env (fs st) path data with
    | None =>
        (Val tt, {| fs := fs_append (fs st) path data; posts := posts st;
                    polls := polls st; trace := trace st ++ [Wrote path data] |})
    | Some (kept, msg) =>
        (Exc msg, {| fs := fs_append (fs st) path (firstn kept data);
                     posts := posts st; polls := polls st;
                     trace := trace st ++ [Wrote path (firstn kept data)] |})
    end.

Definition is_cancelled : M bool :=
  fun st =>
    let b := flag env (polls st) in
    (Val b, {| fs := fs st; posts := posts st; polls := S (polls st);
               trace := trace st ++ [Polled b] |}).

(** [requests.post(self.base_url, json=payload, timeout=30)] *)
Definition post (system_prompt text : str) : M response :=
  fun st =>
    (Val (net env (posts st) system_prompt text),
     {| fs := fs st; posts := S (posts st); polls := polls st;
        trace := trace st ++ [Post (base_url job) (model job) system_prompt text] |}).

Definition sleep (seconds : nat) : M unit := emit (Sleep seconds).

Definition attempt_tag (attempt : nat) : str :=
  L "(attempt " ++ of_nat (attempt + 1) ++ L "/" ++ of_nat (RETRY_COUNT + 1) ++ L "): ".

(** The body of the [try] of one attempt, given the outcome of the
    call: the reply it returns, or the line it logs. *)
Definition attempt_outcome (attempt : nat) (r : response) : str + str :=
  match r with
  | Resp status_code body content =>
      if status_code =? 200 then
        match content with
        | inl reply => inl reply
        | inr exc => inr (L "Network error " ++ attempt_tag attempt ++ exc)
        end
      else
        inr (L "API error " ++ attempt_tag attempt
               ++ of_nat status_code ++ L " - " ++ body)
  | Raised exc => inr (L "Network error " ++ attempt_tag attempt ++ exc)
  end.

(** The loop [for attempt in range(RETRY_COUNT + 1)] of
    [translate_text], from [attempt] with [todo] iterations left. *)
Fixpoint translate_attempts (system_prompt text : str) (attempt todo : nat)
  : M (option str) :=
  match todo with
  | O => ret None
  | S todo' =>
      r <- post system_prompt text ;;
      match attempt_outcome attempt r with
      | inl reply => ret (Some reply)
      | inr line =>
          emit (Log line) ;;;
          (if attempt <? RETRY_COUNT then sleep RETRY_DELAY else ret tt) ;;;
          translate_attempts system_prompt text (S attempt) todo'
      end
  end.

Definition translate_text (system_prompt text : str) : M (option str) :=
  translate_attempts system_prompt text 0 (RETRY_COUNT + 1).

(** [not translated_text] *)
Definition falsy (t : option str) : bool :=
  match t with
  | None | Some [] => true
  | Some (_ :: _) => false
  end.

(** The string held by a truthy [translated_text]. *)
Definition reply (t : option str) : str :=
  match t with
  | Some s => s
  | None => []
  end.

(** The block loop of [process_file]; [None] is the early [return]
    at a cancelled checkpoint. *)
Fixpoint translate_blocks (total block_idx : nat) (blocks translated_blocks : list block)
  : M (option (list block)) :=
  match blocks with
  | [] => ret (Some translated_blocks)
  | (index, timecode, text) :: rest =>
      c <- is_cancelled ;;
      if c then ret None else
      emit (Log (L "Translating block " ++ of_nat (block_idx + 1)
                   ++ L "/" ++ of_nat total)) ;;;
      let '(protected_text, replacements) := protect_content text in
      let system_prompt := generate_system_prompt job protected_text in
      translated_text <- translate_text system_prompt protected_text ;;
      if falsy translated_text then
        emit (Log (L "Skipping block due to translation failure")) ;;;
        translate_blocks total (S block_idx) rest
          (translated_blocks ++ [(index, timecode, text)])
      else
        let restored_text := restore_content (reply translated_text) replacements in
        translate_blocks total (S block_idx) rest
          (translated_blocks ++ [(index, timecode, restored_text)])
  end.

(** The loop [for index, timecode, text in blocks: f.write(...)] *)
Fixpoint write_blocks (path : str) (blocks : list block) : M unit :=
  match blocks with
  | [] => ret tt
  | b :: rest => f_write path (block_text b) ;;; write_blocks path rest
  end.

Definition save_srt (path : str) (blocks : list block) : M unit :=
  open_w path ;;;
  write_blocks path blocks.

Definition process_file (file_path : str) : M unit :=
  let target_path := get_target_path job file_path in
  ex <- path_exists target_path ;;
  if ex then
    emit (Log (L "Skipping " ++ file_path ++ L " - target already exists"))
  else if contains (lower file_path) (L "." ++ target_lang job ++ L ".") then
    emit (Log (L "Skipping " ++ file_path ++ L " - already has target language code"))
  else
    content <- read_file file_path ;;
    let blocks := parse_srt content in
    match blocks with
    | [] => emit (Log (L "No valid blocks found in " ++ file_path))
    | _ :: _ =>
        r <- translate_blocks (length blocks) 0 blocks [] ;;
        match r with
        | None => ret tt
        | Some translated_blocks =>
            save_srt target_path translated_blocks ;;;
            emit (Log (L "Saved translated file: " ++ target_path))
        end
    end.

(** The file loop of [run]; [break] ends the recursion. *)
Fixpoint run_files (total_files idx : nat) (todo : list str) : M unit :=
  match todo with
  | [] => ret tt
  | file_path :: rest =>
      c <- is_cancelled ;;
      if c then emit (Log (L "Translation cancelled by user")) else
      emit (Log (L "Processing file: " ++ file_path)) ;;;
      emit (Progress idx total_files) ;;;
      try_except (process_file file_path)
        (fun e => emit (Log (L "Error processing " ++ file_path ++ L ": " ++ e))) ;;;
      c' <- is_cancelled ;;
      if c' then ret tt else run_files total_files (S idx) rest
  end.

(** [len(self.files)] *)
Definition files_len : M nat :=
  match files job with
  | PyList l => ret (length l)
  | PyNone => raise (L "object of type 'NoneType' has no len()")
  end.

(** [enumerate(self.files)] *)
Definition files_iter : M (list str) :=
  match files job with
  | PyList l => ret l
  | PyNone => raise (L "'NoneType' object is not iterable")
  end.

Definition run_body : M unit :=
  total_files <- files_len ;;
  todo <- files_iter ;;
  run_files total_files 0 todo ;;;
  emit (Progress total_files total_files) ;;;
  c <- is_cancelled ;;
  if negb c then emit (Log (L "Translation completed successfully!")) else ret tt.

(** [run]: [try: ... except Exception as e: error.emit(...) finally:
    finished.emit()] *)
Definition run : M unit :=
  try_except run_body (fun e => emit (ErrorSig (L "Critical error: " ++ e))) ;;;
  emit Finished.

End Worker.

Definition init_st (files : list (str * str)) : St :=
  {| fs := files; posts := 0; polls := 0; trace := [] |}.

(* ================================================================== *)
(** * Vocabulary of the statements *)
(* ================================================================== *)

(** An attempt succeeds when the status is 200 and the reply can be
    read out of the body. *)
Definition succeeded (r : response) : bool :=
  match r with
  | Resp status_code _ (inl _) => status_code =? 200
  | _ => false
  end.

(** [st] after [extra] network calls and the events [evs]. *)
Definition logged (st : St) (extra : nat) (evs : list event) : St :=
  {| fs := fs st; posts := extra + posts st; polls := polls st;
     trace := trace st ++ evs |}.

(** Example inputs. *)
Definition always_503 : Env :=
  {| net := fun _ _ _ => Resp 503 (L "unavailable") (inr []);
     flag := fun _ => false;
     creat := fun _ _ => None;
     store := fun _ _ _ => None |}.

Definition demo_job : Job :=
  {| files := PyList [L "movie.srt"]; target_lang := L "de";
     style := L "Formal"; model := L "llama3"; advanced_prompt := [];
     base_url := L "http://localhost:11434/api/chat" |}.

(** The request sent for a block text. *)
Definition request_prompt (job : Job) (text : str) : str :=
  generate_system_prompt job (fst (protect_content text)).

Definition request_text (text : str) : str := fst (protect_content text).

Definition request_event (job : Job) (text : str) : event :=
  Post (base_url job) (model job) (request_prompt job text) (request_text text).

(** Events of the per-file processing. *)
Definition file_event (e : event) : bool :=
  match e with
  | Post _ _ _ _ | Log _ | Sleep _ | Polled _ | Opened _ | Wrote _ _ => true
  | _ => false
  end.

Definition is_post (e : event) : bool :=
  match e with Post _ _ _ _ => true | _ => false end.

Definition is_wrote (e : event) : bool :=
  match e with Wrote _ _ => true | _ => false end.

Definition is_progress (e : event) : bool :=
  match e with Progress _ _ => true | _ => false end.

Definition is_cancel (e : event) : bool :=
  match e with Polled true => true | _ => false end.

(** The events that follow the first observation of the flag. *)
Fixpoint after_cancel (evs : list event) : option (list event) :=
  match evs with
  | [] => None
  | e :: rest => if is_cancel e then Some rest else after_cancel rest
  end.


Definition cancelled_msg : str := L "Translation cancelled by user".



Definition completed_msg : str := L "Translation completed successfully!".

(** The events appended between two states. *)
Definition new_events (st st' : St) : list event :=
  skipn (length (trace st)) (trace st').

(** A job whose [files] cannot be iterated. *)
Definition broken_job : Job :=
  {| files := PyNone; target_lang := L "de"; style := L "Formal";
     model := L "llama3"; advanced_prompt := [];
     base_url := L "http://localhost:11434/api/chat" |}.

Definition tr1 : str := L "00:00:01,000 --> 00:00:02,000".
Definition tr2 : str := L "00:00:02,500 --> 00:00:04,000".

(** The two-block file of the specification's scenario. *)
Definition two_blocks : str :=
  L "1" ++ [nl] ++ tr1 ++ [nl] ++ L "Hello <i>world</i>" ++ [nl; nl]
  ++ L "2" ++ [nl] ++ tr2 ++ [nl] ++ L "Goodbye" ++ [nl; nl].

(** An endpoint that echoes the user text in upper case. *)
Definition upper_char (c : ascii) : ascii :=
  if isalpha_az c then ascii_of_nat (code c - 32) else c.

Definition echo_upper : Env :=
  {| net := fun _ _ text => Resp 200 [] (inl (map upper_char text));
     flag := fun _ => false;
     creat := fun _ _ => None;
     store := fun _ _ _ => None |}.

(** The same endpoint, with the flag raised from poll number [k] on. *)
Definition cancel_after (k : nat) : Env :=
  {| net := fun _ _ text => Resp 200 [] (inl (map upper_char text));
     flag := fun n => k <=? n;
     creat := fun _ _ => None;
     store := fun _ _ _ => None |}.

Definition zh_job : Job :=
  {| files := PyList [L "movie.zh-CN.sdh.srt"]; target_lang := L "zh-CN";
     style := L "Natural (recommended)"; model := L "llama3";
     advanced_prompt := [];
     base_url := L "http://localhost:11434/api/chat" |}.

(** [a] is a prefix of [s]; [a] occurs in [s]. *)
Definition prefix (a s : str) : Prop := exists r, s = a ++ r.
Definition infix (a s : str) : Prop := exists l r, s = l ++ a ++ r.

(** The format [HH:MM:SS,mmm] and the time-range line. *)
Definition is_timecode (s : str) : bool :=
  match s with
  | [h1; h2; c1; m1; m2; c2; s1; s2; c3; f1; f2; f3] =>
      isdigit h1 && isdigit h2 && Ascii.eqb c1 ":" &&
      isdigit m1 && isdigit m2 && Ascii.eqb c2 ":" &&
      isdigit s1 && isdigit s2 && Ascii.eqb c3 "," &&
      isdigit f1 && isdigit f2 && isdigit f3
  | _ => false
  end.

Definition is_timerange (s : str) : bool :=
  is_timecode (firstn 12 s) && str_eqb (firstn 5 (skipn 12 s)) (L " --> ")
  && is_timecode (skipn 17 s).

(** A block as [save_srt] can give it back: an index of digits, a
    time range, and a text that [strip] leaves alone and that holds no
    empty line. *)
Definition is_index (s : str) : bool :=
  match s with
  | [] => false
  | _ :: _ => forallb isdigit s
  end.

Definition is_text (s : str) : bool :=
  str_eqb (strip s) s && negb (contains s [nl; nl]).

Definition well_formed_block (b : block) : bool :=
  let '(index, timecode, text) := b in
  is_index index && is_timerange timecode && is_text text.

(** What the lookahead [(?=\n\n|$)] accepts. *)
Definition lookahead_ok (s : str) : bool :=
  startswith s [nl; nl] || at_end s.

(** Two inputs in the block structure: blocks separated by a blank
    line, and a block whose text line starts and ends with a space. *)
Definition two_blocks_separated : str :=
  L "1" ++ [nl] ++ tr1 ++ [nl] ++ L "Hello <i>world</i>" ++ [nl; nl]
  ++ L "2" ++ [nl] ++ tr2 ++ [nl] ++ L "Goodbye".

Definition padded_block : str :=
  L "1" ++ [nl] ++ tr1 ++ [nl] ++ L " Hello " ++ [nl; nl].

(* ------------------------------------------------------------------ *)
(** ** The protector seen as a list of substitution rules *)

(** The pairs [(placeholder, original)] in the order in which
    [protect_content] creates them. *)
Definition time_rules (text : str) : dict :=
  map (fun it => (time_placeholder (fst it), snd it))
      (enumerate (findall_whole timecode_pattern text)).

Definition full_tag (tag : str) : str := L "<" ++ tag ++ L ">".

Definition tag_rules (text : str) : dict :=
  map (fun it => (tag_placeholder (fst it) (full_tag (snd it)), full_tag (snd it)))
      (enumerate (findall_group tag_pattern text)).

Definition rules (text : str) : dict := time_rules text ++ tag_rules text.

(** The text after the substitutions of a list of rules. *)
Definition protect_text (rs : dict) (text : str) : str :=
  fold_left (fun s kv => replace s (snd kv) (fst kv)) rs text.

(** None of the placeholders generated for [text] occurs in it. *)
Definition collision_free (text : str) : bool :=
  forallb (fun kv => negb (contains text (fst kv))) (snd (protect_content text)).

(** Shapes.  A placeholder is [<], word characters, [>].  An original
    is a time stamp (no bracket, and a character that is not a word
    character) or a tag ([<], no [>], [>]). *)
Definition lt : ascii := "<"%char.
Definition gt : ascii := ">"%char.

Definition word_char (c : ascii) : bool :=
  isdigit c || letter c || Ascii.eqb c "_".

Definition bracket (P : str) : Prop :=
  exists body, P = lt :: body ++ [gt] /\ forallb word_char body = true.

Definition plain (a : str) : Prop :=
  ~ In lt a /\ ~ In gt a /\ exists c, In c a /\ word_char c = false.

Definition tagged (a : str) : Prop :=
  exists x, a = lt :: x ++ [gt] /\ ~ In gt x.

Definition tail_ok (a : str) : Prop :=
  ~ In lt a \/ exists x, a = x ++ [gt] /\ ~ In gt x.

(** A text in which some occurrences of originals stand replaced: a
    sequence of characters of the text and of placeholders, each with
    the original it stands for. *)
Inductive tok : Type :=
| Raw (c : ascii)
| Ph (P a : str).

Definition render_tok (t : tok) : str :=
  match t with
  | Raw c => [c]
  | Ph P _ => P
  end.

Definition orig_tok (t : tok) : str :=
  match t with
  | Raw c => [c]
  | Ph _ a => a
  end.

Definition render (toks : list tok) : str := flat_map render_tok toks.
Definition orig (toks : list tok) : str := flat_map orig_tok toks.

(** Putting the original back for the placeholder [P]. *)
Definition expand_tok (P : str) (t : tok) : list tok :=
  match t with
  | Raw c => [t]
  | Ph P' a' => if str_eqb P' P then map Raw a' else [t]
  end.

Definition expand (P : str) (toks : list tok) : list tok :=
  flat_map (expand_tok P) toks.

(** All placeholders of [toks] are well shaped and none occurs in [a]. *)
Definition clear_of (a : str) (toks : list tok) : Prop :=
  forall P a', In (Ph P a') toks -> bracket P /\ ~ infix P a.

(** The lines of a block, without the blank line that ends it, and
    what [re.findall] reports for it. *)
Definition block_head (b : block) : str :=
  let '(index, timecode, text) := b in
  index ++ nl :: timecode ++ nl :: text.

Definition block_match (b : block) : str * list str :=
  let '(index, timecode, text) := b in
  (block_head b, [index; timecode; text]).

Definition is_sleep (e : event) : bool :=
  match e with Sleep _ => true | _ => false end.

(** The events of [j] failed attempts that are followed by another
    attempt, given the lines they log. *)
Definition failed_rounds (call : event) (lines : list str) : list event :=
  flat_map (fun line => [call; Log line; Sleep RETRY_DELAY]) lines.

(** An endpoint whose first two calls time out. *)
Definition flaky : Env :=
  {| net := fun n _ _ => if n <? 2 then Raised (L "timed out")
                         else Resp 200 [] (inl (L "Hallo"));
     flag := fun _ => false;
     creat := fun _ _ => None;
     store := fun _ _ _ => None |}.

(** Every file of [st] is still there in [st'], with its content. *)
Definition keeps (st st' : St) : Prop :=
  forall path content,
    lookup (fs st) path = Some content -> lookup (fs st') path = Some content.

(** The signals that end a run. *)
Definition is_signal (e : event) : bool :=
  match e with
  | Finished | ErrorSig _ => true
  | _ => false
  end.

(** A code that [lang_suffix_pattern] strips from the end of a stem:
    two or three letters, optionally followed by [-] and two or three
    letters. *)
Definition letters23 (s : str) : bool :=
  forallb letter s && (2 <=? length s) && (length s <=? 3).

Definition is_lang_code (code : str) : bool :=
  match rfind "-" code with
  | None => letters23 code
  | Some i => letters23 (firstn i code) && letters23 (skipn (S i) code)
  end.

(** What may stand before the file name in a path: nothing, the root,
    or a directory followed by a slash. *)
Definition dir_prefix (p : str) : Prop :=
  p = [] \/ p = [Path.slash] \/
  exists d, p = d ++ [Path.slash] /\ d <> [] /\ d <> [Path.dot] /\ d <> [Path.slash].

(** The directory part of a path in the form [pathlib] keeps it: an
    optional root, then segments that are each closed by a slash.  No
    segment is empty, is [.] or holds a slash ([..] is kept as it is). *)
Definition segment (seg : str) : Prop :=
  seg <> [] /\ seg <> [Path.dot] /\ ~ In Path.slash seg.

Definition dir_part (root : bool) (segs : list str) : str :=
  (if root then [Path.slash] else []) ++
  concat (map (fun seg => seg ++ [Path.slash]) segs).

(* ------------------------------------------------------------------ *)
(** ** The batch driver seen from outside *)

(** The disk takes every write. *)
Definition disk_ok (env : Env) : Prop :=
  (forall files path, creat env files path = None) /\
  (forall files path data, store env files path data = None).

Definition is_poll (e : event) : bool :=
  match e with Polled _ => true | _ => false end.

Definition is_write (e : event) : bool :=
  match e with Opened _ | Wrote _ _ => true | _ => false end.

(** The log lines with which a file and a block begin. *)
Definition is_file_start (e : event) : bool :=
  match e with
  | Log msg => startswith msg (L "Processing file: ")
  | _ => false
  end.

Definition is_block_start (e : event) : bool :=
  match e with
  | Log msg => startswith msg (L "Translating block ")
  | _ => false
  end.

Definition is_start (e : event) : bool := is_file_start e || is_block_start e.

(** What the call of [translate_text] that starts as network call
    number [n] returns, and the number of the call after it.  The
    client reads nothing of the state but that number. *)
Definition call_result (env : Env) (job : Job) (n : nat) (system_prompt text : str)
  : option str * nat :=
  match translate_text env job system_prompt text
          {| fs := []; posts := n; polls := 0; trace := [] |} with
  | (Val r, st') => (r, posts st')
  | (Exc _, st') => (None, posts st')
  end.

(** What the specification asks of the block loop, block by block,
    when the first translation call is network call number [n]: index
    and time range are kept; a block whose call returns a non-empty
    reply gets the reply with the placeholders restored; a block whose
    call returns failure ([None], or an empty reply) keeps its
    original text; and the loop goes on with the next block. *)
Fixpoint expected_blocks (env : Env) (job : Job) (n : nat) (blocks : list block)
  : list block :=
  match blocks with
  | [] => []
  | (index, timecode, text) :: rest =>
      let '(protected_text, replacements) := protect_content text in
      let system_prompt := generate_system_prompt job protected_text in
      let '(answer, next) := call_result env job n system_prompt protected_text in
      (index, timecode,
       match answer with
       | Some (c :: reply) => restore_content (c :: reply) replacements
       | _ => text
       end) :: expected_blocks env job next rest
  end.

(** An endpoint that is down for the first three calls. *)
Definition down_then_up : Env :=
  {| net := fun n _ text =>
       if n <? 3 then Resp 503 (L "unavailable") (inr [])
       else Resp 200 [] (inl (map upper_char text));
     flag := fun _ => false;
     creat := fun _ _ => None;
     store := fun _ _ _ => None |}.

(** A disk that is full after 40 characters of a file. *)
Definition full_disk : Env :=
  {| net := fun _ _ text => Resp 200 [] (inl (map upper_char text));
     flag := fun _ => false;
     creat := fun _ _ => None;
     store := fun files path data =>
       let used := match lookup files path with Some c => length c | None => 0 end in
       if used + length data <=? 40 then None
       else Some (40 - used, L "[Errno 28] No space left on device") |}.

(** Events of a translation call and the line that follows a failed
    one; events that close the processing of a file. *)
Definition quiet (e : event) : bool :=
  match e with
  | Post _ _ _ _ | Sleep _ => true
  | Log _ => negb (is_start e)
  | _ => false
  end.

Definition closing (e : event) : bool :=
  match e with
  | Opened _ | Wrote _ _ => true
  | Log _ => negb (is_start e)
  | _ => false
  end.

(** The events of the block loop from poll number [p] on: a round per
    block, each behind a checkpoint that found the flag unset, until
    the blocks are through or a checkpoint finds the flag set. *)
Inductive block_rounds (env : Env) : nat -> list event -> bool -> nat -> Prop :=
| rounds_done p : block_rounds env p [] false p
| rounds_cancelled p :
    flag env p = true ->
    block_rounds env p [Polled true] true (S p)
| rounds_block p line work evs c p' :
    flag env p = false ->
    is_block_start line = true ->
    Forall (fun e => quiet e = true) work ->
    block_rounds env (S p) evs c p' ->
    block_rounds env p (Polled false :: line :: work ++ evs) c p'.

(** The events of one call of [process_file]: the block loop, and
    unless it was cancelled what closes the file. *)
Definition file_events (env : Env) (p : nat) (evs : list event) (c : bool) (p' : nat)
  : Prop :=
  exists loop after,
    evs = loop ++ after /\ block_rounds env p loop c p' /\
    Forall (fun e => closing e = true) after /\
    (c = true -> after = []).

(** The line of the per-file handler, if the file raised. *)
Definition error_line (file_path : str) (c : bool) (err : list event) : Prop :=
  err = [] \/
  (c = false /\
   exists e, err = [Log (L "Error processing " ++ file_path ++ L ": " ++ e)]).

(** The events of the file loop from index [idx] and poll number [p]
    on, and the number of files it started. *)
Inductive file_rounds (env : Env) (total : nat)
  : nat -> list str -> nat -> list event -> nat -> nat -> Prop :=
| files_done idx p : file_rounds env total idx [] p [] 0 p
| files_cancelled idx file_path rest p :
    flag env p = true ->
    file_rounds env total idx (file_path :: rest) p
      [Polled true; Log cancelled_msg] 0 (S p)
| files_last idx file_path rest p work c err p1 :
    flag env p = false ->
    file_events env (S p) work c p1 ->
    error_line file_path c err ->
    flag env p1 = true ->
    file_rounds env total idx (file_path :: rest) p
      (Polled false :: Log (L "Processing file: " ++ file_path)
         :: Progress idx total :: work ++ err ++ [Polled true]) 1 (S p1)
| files_next idx file_path rest p work c err p1 evs k p' :
    flag env p = false ->
    file_events env (S p) work c p1 ->
    error_line file_path c err ->
    flag env p1 = false ->
    file_rounds env total (S idx) rest (S p1) evs k p' ->
    file_rounds env total idx (file_path :: rest) p
      (Polled false :: Log (L "Processing file: " ++ file_path)
         :: Progress idx total :: work ++ err ++ Polled false :: evs) (S k) p'.


(** Every file but the one written to is as it was. *)
Definition elsewhere (path : str) (st st' : St) : Prop :=
  forall p, p <> path -> lookup (fs st') p = lookup (fs st) p.

(* ================================================================== *)
(** * Translation client: the retry budget *)
(* ================================================================== *)

Section Client.

Variable env : Env.
Variable job : Job.

Lemma logged_logged st n1 n2 evs1 evs2 :
  logged (logged st n1 evs1) n2 evs2 = logged st (n2 + n1) (evs1 ++ evs2).
Proof.
  unfold logged; cbn. rewrite <- app_assoc, Nat.add_assoc. reflexivity.
Qed.

Lemma succeeded_outcome attempt r :
  succeeded r = false -> exists line, attempt_outcome attempt r = inr line.
Proof.
  destruct r as [status body [reply|exc]|exc]; cbn; intros H.
  - rewrite H. eauto.
  - destruct (status =? 200); eauto.
  - eauto.
Qed.

(** A failing attempt: post, log, sleep unless it was the last of the
    budget, and go on with the next attempt. *)
Lemma failed_attempt system_prompt text attempt todo st :
  succeeded (net env (posts st) system_prompt text) = false ->
  exists line,
    translate_attempts env job system_prompt text attempt (S todo) st =
    translate_attempts env job system_prompt text (S attempt) todo
      (logged st 1
         ([Post (base_url job) (model job) system_prompt text; Log line]
          ++ if attempt <? RETRY_COUNT then [Sleep RETRY_DELAY] else [])).
Proof.
  intros Hfail.
  destruct (succeeded_outcome attempt _ Hfail) as [line Hline].
  exists line. cbn [translate_attempts]. unfold bind at 1, post at 1.
  cbv beta iota. rewrite Hline.
  unfold bind, emit, sleep, emit, ret, logged.
  destruct (attempt <? RETRY_COUNT); cbn [fst snd fs posts polls trace];
    rewrite <- ?app_assoc; reflexivity.
Qed.

(** C3. When every attempt fails, [translate_text] makes exactly three
    network calls, sleeps [RETRY_DELAY] = 5 seconds after the first and
    after the second but not after the third, and returns [None]. *)
Theorem translate_text_retry_budget (system_prompt text : str) (st : St)
    (Hfail : forall n, succeeded (net env n system_prompt text) = false) :
  exists line1 line2 line3,
    let call := Post (base_url job) (model job) system_prompt text in
    translate_text env job system_prompt text st =
    (Val None,
     {| fs := fs st; posts := posts st + 3; polls := polls st;
        trace := trace st ++ [call; Log line1; Sleep 5;
                              call; Log line2; Sleep 5;
                              call; Log line3] |}).
Proof.
  unfold translate_text. change (RETRY_COUNT + 1) with 3.
  destruct (failed_attempt system_prompt text 0 2 st (Hfail _)) as [l1 E1].
  rewrite E1; clear E1.
  match goal with |- context [translate_attempts _ _ _ _ _ _ ?s] =>
    destruct (failed_attempt system_prompt text 1 1 s (Hfail _)) as [l2 E2]
  end.
  rewrite E2; clear E2.
  match goal with |- context [translate_attempts _ _ _ _ _ _ ?s] =>
    destruct (failed_attempt system_prompt text 2 0 s (Hfail _)) as [l3 E3]
  end.
  rewrite E3; clear E3.
  exists l1, l2, l3. rewrite !logged_logged. cbn. unfold ret, logged. cbn.
  rewrite Nat.add_comm. reflexivity.
Qed.

End Client.

Lemma translate_text_retry_budget_witness :
  exists line1 line2 line3,
    let call := Post (base_url demo_job) (model demo_job) (L "sys") (L "Hello") in
    translate_text always_503 demo_job (L "sys") (L "Hello") (init_st []) =
    (Val None,
     {| fs := []; posts := 3; polls := 0;
        trace := [call; Log line1; Sleep 5; call; Log line2; Sleep 5;
                  call; Log line3] |}).
Proof.
  apply (translate_text_retry_budget always_503 demo_job (L "sys") (L "Hello") (init_st [])).
  intros n. reflexivity.
Defined.

Arguments L : simpl never.
Arguments of_nat : simpl never.
Arguments protect_content : simpl never.
Arguments restore_content : simpl never.
Arguments generate_system_prompt : simpl never.
Arguments parse_srt : simpl never.
Arguments get_target_path : simpl never.
Arguments srt_text : simpl never.

(* ================================================================== *)
(** * Prompt builder *)
(* ================================================================== *)

Lemma style_desc_range style :
  In (style_desc style) [L "natural"; L "formal"; L "simple and clear"].
Proof.
  unfold style_desc, style_map. cbn [dict_get].
  destruct (str_eqb _ style); [now left|].
  destruct (str_eqb _ style); [right; now left|].
  destruct (str_eqb _ style); [right; right; now left|]. now left.
Qed.

(** C9. A non-blank override is the prompt, untrimmed.  Otherwise the
    prompt names the target language and a style descriptor, which is
    one of the three and is the mapped one for each of the three
    styles, and states the invariants line by line. *)
Theorem generate_system_prompt_spec (job : Job) (protected_text : str) :
  (strip (advanced_prompt job) <> [] ->
   generate_system_prompt job protected_text = advanced_prompt job) /\
  (strip (advanced_prompt job) = [] ->
   exists desc,
     In desc [L "natural"; L "formal"; L "simple and clear"] /\
     (style job = L "Natural (recommended)" -> desc = L "natural") /\
     (style job = L "Formal" -> desc = L "formal") /\
     (style job = L "Simple clear" -> desc = L "simple and clear") /\
     generate_system_prompt job protected_text =
       L "Translate the following text from English into " ++ target_lang job
       ++ L "." ++ [nl]
       ++ L "Use " ++ desc ++ L " style. Important:" ++ [nl]
       ++ L "Only translate the USER text." ++ [nl]
       ++ L "Keep placeholders like <BTAG_0>, <ETAG_0>, <TIME_0> unchanged." ++ [nl]
       ++ L "Never translate content inside placeholders." ++ [nl]
       ++ L "Do NOT add explanations or commentary." ++ [nl]
       ++ L "Answer with the translated text only.").
Proof.
  unfold generate_system_prompt. split.
  - destruct (strip (advanced_prompt job)); [contradiction | reflexivity].
  - intros ->. exists (style_desc (style job)).
    split; [apply style_desc_range|].
    split; [intros ->; reflexivity|].
    split; [intros ->; reflexivity|].
    split; [intros ->; reflexivity|]. reflexivity.
Qed.

Lemma generate_system_prompt_spec_witness :
  generate_system_prompt
    {| files := PyNone; target_lang := L "de"; style := L "Formal";
       model := L "llama3"; advanced_prompt := L "  Be brief. ";
       base_url := L "u" |} [] = L "  Be brief. ".
Proof.
  apply (generate_system_prompt_spec
           {| files := PyNone; target_lang := L "de"; style := L "Formal";
              model := L "llama3"; advanced_prompt := L "  Be brief. ";
              base_url := L "u" |} []).
  vm_compute. discriminate.
Defined.
(* ================================================================== *)
(** * Strings *)
(* ================================================================== *)

Lemma str_eqb_eq a b : str_eqb a b = true <-> a = b.
Proof.
  unfold str_eqb. destruct (list_eq_dec ascii_dec a b); split; congruence.
Qed.

Lemma str_eqb_refl a : str_eqb a a = true.
Proof. now apply str_eqb_eq. Qed.

Lemma str_eqb_neq a b : str_eqb a b = false <-> a <> b.
Proof.
  unfold str_eqb. destruct (list_eq_dec ascii_dec a b); split; congruence.
Qed.

Lemma startswith_prefix s p : startswith s p = true <-> prefix p s.
Proof.
  revert s. induction p as [|a p IH]; intros s; cbn.
  - split; [intros _; now exists s | reflexivity].
  - destruct s as [|c s].
    + split; [discriminate | intros [r H]; discriminate].
    + rewrite andb_true_iff, Ascii.eqb_eq, IH. split.
      * intros [-> [r ->]]. now exists r.
      * intros [r H]. injection H as -> ->. split; [reflexivity | now exists r].
Qed.

Lemma startswith_app s p : startswith (p ++ s) p = true.
Proof. apply startswith_prefix. now exists s. Qed.

Lemma contains_infix s p : contains s p = true <-> infix p s.
Proof.
  induction s as [|c s IH]; cbn [contains]; rewrite orb_true_iff, startswith_prefix.
  - split.
    + intros [[r H]|H]; [|discriminate]. now exists [], r.
    + intros (l & r & H). left. destruct l; [now exists r | discriminate].
  - rewrite IH. split.
    + intros [[r H]|(l & r & H)]; [now exists [], r | exists (c :: l), r; now rewrite H].
    + intros ([|c' l] & r & H).
      * left. now exists r.
      * right. injection H as -> ->. now exists l, r.
Qed.

Lemma infix_app_l a l s : infix a s -> infix a (l ++ s).
Proof. intros (l0 & r & ->). exists (l ++ l0), r. now rewrite app_assoc. Qed.

Lemma infix_app_r a s r : infix a s -> infix a (s ++ r).
Proof.
  intros (l & r0 & ->). exists l, (r0 ++ r). now rewrite <- !app_assoc.
Qed.

Lemma infix_trans a b s : infix a b -> infix b s -> infix a s.
Proof.
  intros (l1 & r1 & ->) (l2 & r2 & ->). exists (l2 ++ l1), (r1 ++ r2).
  now rewrite <- !app_assoc.
Qed.

Lemma infix_refl a : infix a a.
Proof. exists [], []. now rewrite app_nil_r. Qed.

(** ** [replace] *)

Lemma replace_from_skip old new s :
  forall k, replace_from old new k s = replace_from old new 0 (skipn k s).
Proof.
  induction s as [|c s IH]; intros [|k]; cbn [replace_from skipn]; auto.
Qed.

Lemma replace_from_hit old new s :
  old <> [] ->
  replace_from old new 0 (old ++ s) = new ++ replace_from old new 0 s.
Proof.
  destruct old as [|a old]; [congruence|]. intros _.
  cbn [app replace_from]. change (a :: old ++ s) with ((a :: old) ++ s).
  rewrite startswith_app. cbn [length]. rewrite replace_from_skip.
  replace (S (length old) - 1) with (length old) by lia.
  rewrite skipn_app, skipn_all, Nat.sub_diag. reflexivity.
Qed.

Lemma replace_from_miss old new c s :
  startswith (c :: s) old = false ->
  replace_from old new 0 (c :: s) = c :: replace_from old new 0 s.
Proof. intros H. cbn [replace_from]. now rewrite H. Qed.

Lemma replace_nonempty s old new :
  old <> [] -> replace s old new = replace_from old new 0 s.
Proof. destruct old; [congruence | reflexivity]. Qed.

(** ** [strip] *)

Lemma lstrip_length s : length (lstrip s) <= length s.
Proof.
  induction s as [|c s IH]; cbn; [lia|]. destruct (isspace c); cbn; lia.
Qed.

Lemma lstrip_fixed s :
  length (lstrip s) = length s -> lstrip s = s.
Proof.
  destruct s as [|c s]; cbn; [reflexivity|].
  destruct (isspace c); [|reflexivity].
  pose proof (lstrip_length s). lia.
Qed.

Lemma lstrip_head c s : lstrip (c :: s) = c :: s -> isspace c = false.
Proof.
  cbn. destruct (isspace c); [|reflexivity].
  intros H. pose proof (lstrip_length s) as Hl. rewrite H in Hl. cbn in Hl. lia.
Qed.

Lemma strip_fixed_inv s :
  strip s = s -> lstrip s = s /\ lstrip (rev s) = rev s.
Proof.
  unfold strip, rstrip. intros H.
  assert (Hlen : length (lstrip s) = length s).
  { pose proof (lstrip_length s) as H1.
    pose proof (lstrip_length (rev (lstrip s))) as H2.
    rewrite length_rev in H2.
    apply (f_equal (@length ascii)) in H. rewrite length_rev in H. lia. }
  apply lstrip_fixed in Hlen. split; [exact Hlen|].
  rewrite Hlen in H. rewrite <- H at 2. rewrite rev_involutive. reflexivity.
Qed.

Lemma strip_fixed_last s u c :
  strip s = s -> s = u ++ [c] -> isspace c = false.
Proof.
  intros H ->. apply strip_fixed_inv in H. destruct H as [_ H].
  rewrite rev_unit in H. now apply lstrip_head in H.
Qed.

(* ================================================================== *)
(** * The matcher *)
(* ================================================================== *)

Lemma rep_eq {A : Type} greedy p lo hi s (k : str -> option A) :
  rep greedy p lo hi s k =
  let stop := if lo =? 0 then k s else None in
  let more :=
    match s with
    | c :: s' =>
        if p c && room hi then rep greedy p (pred lo) (less hi) s' k else None
    | [] => None
    end in
  if greedy
  then match more with Some x => Some x | None => stop end
  else match stop with Some x => Some x | None => more end.
Proof. destruct s; reflexivity. Qed.

(** Whatever a repetition returns was returned by its continuation,
    after at least [lo] and at most [hi] characters of the class. *)
Lemma rep_inv {A : Type} greedy p s :
  forall lo hi (k : str -> option A) v,
    rep greedy p lo hi s k = Some v ->
    exists xs s', s = xs ++ s' /\ forallb p xs = true /\ lo <= length xs /\
                  match hi with Some h => length xs <= h | None => True end /\
                  k s' = Some v.
Proof.
  induction s as [|c s IH]; intros lo hi k v H; rewrite rep_eq in H; cbv zeta in H.
  - assert (Hs : (if lo =? 0 then k [] else None) = Some v)
      by (destruct greedy; destruct (if lo =? 0 then k [] else None); congruence).
    destruct (Nat.eqb_spec lo 0) as [->|]; [|discriminate].
    exists [], []. repeat split; auto. destruct hi; cbn; [lia|auto].
  - assert (Hcases :
        (if lo =? 0 then k (c :: s) else None) = Some v \/
        (if p c && room hi then rep greedy p (pred lo) (less hi) s k else None) = Some v).
    { destruct greedy.
      - destruct (if p c && room hi then _ else None); [now right|now left].
      - destruct (if lo =? 0 then _ else None); [now left|now right]. }
    destruct Hcases as [Hs|Hm].
    + destruct (Nat.eqb_spec lo 0) as [->|]; [|discriminate].
      exists [], (c :: s). repeat split; auto. destruct hi; cbn; [lia|auto].
    + destruct (p c) eqn:Hp; [|discriminate]. destruct (room hi) eqn:Hroom; [|discriminate].
      cbn [andb] in Hm. apply IH in Hm.
      destruct Hm as (xs & s' & -> & Hall & Hlo & Hhi & Hk).
      exists (c :: xs), s'. cbn [forallb length app]. rewrite Hp, Hall.
      repeat split; auto; [lia|].
      destruct hi as [h|]; [|exact I]. cbn in Hhi, Hroom.
      destruct h; [discriminate|]. cbn in Hhi. lia.
Qed.

(** The continuation of a match is only ever given a suffix of the
    input. *)
Lemma rmatch_suffix r :
  forall (A : Type) s caps (k : str -> list str -> option A) v,
    rmatch r s caps k = Some v ->
    exists pre s' caps', s = pre ++ s' /\ k s' caps' = Some v.
Proof.
  induction r as [|p|r1 IH1 r2 IH2|r1 IH1 r2 IH2|r1 IH1|g lo hi p|r1 IH1|r1 IH1|];
    intros A s caps k v H; cbn [rmatch] in H.
  - exists [], s, caps. auto.
  - destruct s as [|c s]; [discriminate|]. destruct (p c); [|discriminate].
    exists [c], s, caps. auto.
  - apply IH1 in H. destruct H as (pre1 & s1 & c1 & -> & H).
    apply IH2 in H. destruct H as (pre2 & s2 & c2 & -> & H).
    exists (pre1 ++ pre2), s2, c2. rewrite <- app_assoc. auto.
  - destruct (rmatch r1 s caps k) eqn:E1.
    + injection H as ->. now apply IH1 in E1.
    + now apply IH2 in H.
  - destruct (rmatch r1 s caps k) eqn:E1.
    + injection H as ->. now apply IH1 in E1.
    + exists [], s, caps. auto.
  - apply rep_inv in H. destruct H as (xs & s' & -> & _ & _ & _ & H).
    exists xs, s', caps. auto.
  - apply IH1 in H. destruct H as (pre & s' & c' & -> & H).
    exists pre, s'. eexists. split; [reflexivity | exact H].
  - destruct (rmatch r1 s caps (fun _ c' => Some c')) as [c'|]; [|discriminate].
    exists [], s, c'. auto.
  - destruct (at_end s); [|discriminate]. exists [], s, caps. auto.
Qed.

Lemma firstn_app_exact (xs s : str) :
  firstn (length (xs ++ s) - length s) (xs ++ s) = xs.
Proof.
  rewrite length_app, Nat.add_sub, firstn_app, Nat.sub_diag, firstn_all.
  cbn. apply app_nil_r.
Qed.

Lemma match_here_split r s m caps rest :
  match_here r s = Some (m, caps, rest) -> s = m ++ rest.
Proof.
  unfold match_here. intros H. apply rmatch_suffix in H.
  destruct H as (pre & s' & caps' & -> & H). injection H as <- _ <-.
  now rewrite firstn_app_exact.
Qed.

(** ** Scanning *)

Lemma finditer_from_skip r s :
  forall k, k <= length s -> finditer_from r k s = finditer_from r 0 (skipn k s).
Proof.
  induction s as [|c s IH]; intros [|k] Hk; cbn [finditer_from skipn]; auto.
  - cbn in Hk. lia.
  - apply IH. cbn in Hk. lia.
Qed.

Lemma finditer_hit r m caps s :
  m <> [] -> match_here r (m ++ s) = Some (m, caps, s) ->
  finditer r (m ++ s) = (m, caps) :: finditer r s.
Proof.
  intros Hm H. unfold finditer. destruct m as [|c m]; [congruence|].
  cbn [app finditer_from]. change (c :: m ++ s) with ((c :: m) ++ s). rewrite H.
  f_equal. cbn [length]. replace (S (length m) - 1) with (length m) by lia.
  rewrite finditer_from_skip by (rewrite length_app; lia).
  rewrite skipn_app, skipn_all, Nat.sub_diag. reflexivity.
Qed.

Lemma finditer_miss r c s :
  match_here r (c :: s) = None -> finditer r (c :: s) = finditer r s.
Proof. intros H. unfold finditer. cbn [finditer_from]. now rewrite H. Qed.

Lemma finditer_nil r : match_here r [] = None -> finditer r [] = [].
Proof. intros H. unfold finditer. cbn [finditer_from]. now rewrite H. Qed.

(** Every match reported by the scan is a match of the pattern at
    some position of the input. *)
Lemma finditer_from_sound r m caps s :
  forall k, In (m, caps) (finditer_from r k s) ->
  exists l rest, s = l ++ m ++ rest /\ match_here r (m ++ rest) = Some (m, caps, rest).
Proof.
  induction s as [|c s IH]; intros k Hin; cbn [finditer_from] in Hin.
  - destruct k; [|contradiction].
    destruct (match_here r []) as [[[m' caps'] rest']|] eqn:E; [|contradiction].
    destruct Hin as [Hin|[]]. injection Hin as -> ->.
    pose proof (match_here_split _ _ _ _ _ E) as Hs.
    symmetry in Hs. apply app_eq_nil in Hs. destruct Hs as [-> ->].
    exists [], []. auto.
  - destruct k as [|k].
    + destruct (match_here r (c :: s)) as [[[m' caps'] rest']|] eqn:E.
      * destruct Hin as [Hin|Hin].
        -- injection Hin as -> ->.
           pose proof (match_here_split _ _ _ _ _ E) as Hs.
           exists [], rest'. cbn [app]. rewrite <- Hs. auto.
        -- apply IH in Hin. destruct Hin as (l & rest & -> & H).
           exists (c :: l), rest. auto.
      * apply IH in Hin. destruct Hin as (l & rest & -> & H).
        exists (c :: l), rest. auto.
    + apply IH in Hin. destruct Hin as (l & rest & -> & H).
      exists (c :: l), rest. auto.
Qed.

Lemma finditer_sound r m caps s :
  In (m, caps) (finditer r s) ->
  exists l rest, s = l ++ m ++ rest /\ match_here r (m ++ rest) = Some (m, caps, rest).
Proof. apply finditer_from_sound. Qed.

(** ** Forward rules for the constructs of [srt_pattern] *)

(** Greedy repetition over a maximal run of the class. *)
Lemma rep_greedy_max {A : Type} p xs s (k : str -> option A) v :
  forall lo,
    forallb p xs = true ->
    match s with c :: _ => p c = false | [] => True end ->
    lo <= length xs ->
    k s = Some v ->
    rep true p lo None (xs ++ s) k = Some v.
Proof.
  induction xs as [|x xs IH]; intros lo Hall Hstop Hlo Hk; rewrite rep_eq; cbv zeta.
  - cbn in Hlo. assert (lo = 0) as -> by lia. cbn [app Nat.eqb]. rewrite Hk.
    destruct s as [|c s]; [reflexivity|]. rewrite Hstop. reflexivity.
  - cbn [forallb] in Hall. apply andb_true_iff in Hall. destruct Hall as [Hx Hall].
    cbn [app room]. rewrite Hx. cbn [andb less option_map].
    rewrite (IH (pred lo)); auto. cbn in Hlo. lia.
Qed.

(** Lazy repetition stops at the first position its continuation
    accepts. *)
Lemma rep_lazy_first {A : Type} xs s (k : str -> option A) v :
  (forall u w, xs = u ++ w -> w <> [] -> k (w ++ s) = None) ->
  k s = Some v ->
  rep false any 0 None (xs ++ s) k = Some v.
Proof.
  induction xs as [|x xs IH]; intros Hnot Hk; rewrite rep_eq; cbv zeta.
  - cbn [app Nat.eqb]. now rewrite Hk.
  - cbn [Nat.eqb]. rewrite (Hnot [] (x :: xs)) by (cbn; congruence).
    cbn [app any room andb pred less option_map]. apply IH; [|exact Hk].
    intros u w -> Hw. apply (Hnot (x :: u) w); auto.
Qed.

(** [p{n}] over [n] characters of the class. *)
Lemma exactly_ok {A : Type} p xs s caps (k : str -> list str -> option A) :
  forall n, length xs = n -> forallb p xs = true ->
  rmatch (exactly n p) (xs ++ s) caps k = k s caps.
Proof.
  unfold exactly. cbn [rmatch].
  induction xs as [|x xs IH]; intros n Hn Hall; subst n; rewrite rep_eq; cbv zeta.
  - cbn [length app Nat.eqb room]. destruct s as [|c s]; cbn [negb Nat.eqb].
    + reflexivity.
    + rewrite andb_false_r. reflexivity.
  - cbn [forallb] in Hall. apply andb_true_iff in Hall. destruct Hall as [Hx Hall].
    cbn [length app room Nat.eqb negb pred less option_map]. rewrite Hx. cbn [andb].
    rewrite (IH (length xs)); auto. destruct (k s caps); reflexivity.
Qed.

Lemma chr_ok {A : Type} c s caps (k : str -> list str -> option A) :
  rmatch (chr c) (c :: s) caps k = k s caps.
Proof. cbn [rmatch chr]. now rewrite Ascii.eqb_refl. Qed.

Lemma lits_ok {A : Type} x s caps (k : str -> list str -> option A) :
  rmatch (lits x) (x ++ s) caps k = k s caps.
Proof.
  revert caps k. induction x as [|c x IH]; intros caps k.
  - reflexivity.
  - change (lits (c :: x)) with (Seq (chr c) (lits x)). cbn [rmatch app].
    rewrite chr_ok. apply IH.
Qed.

Lemma is_timecode_inv t :
  is_timecode t = true ->
  exists h1 h2 m1 m2 s1 s2 f1 f2 f3,
    t = [h1; h2] ++ ":"%char :: [m1; m2] ++ ":"%char :: [s1; s2] ++ ","%char :: [f1; f2; f3] /\
    forallb isdigit [h1; h2] = true /\ forallb isdigit [m1; m2] = true /\
    forallb isdigit [s1; s2] = true /\ forallb isdigit [f1; f2; f3] = true.
Proof.
  destruct t as [|h1 [|h2 [|c1 [|m1 [|m2 [|c2 [|s1 [|s2 [|c3 [|f1 [|f2 [|f3 [|x t]]]]]]]]]]]]];
    try discriminate.
  cbn [is_timecode]. rewrite !andb_true_iff, !Ascii.eqb_eq.
  intros (((((((((((H1 & H2) & ->) & H3) & H4) & ->) & H5) & H6) & ->) & H7) & H8) & H9).
  exists h1, h2, m1, m2, s1, s2, f1, f2, f3. cbn [forallb app].
  rewrite H1, H2, H3, H4, H5, H6, H7, H8, H9. auto.
Qed.

Lemma timecode_ok {A : Type} t s caps (k : str -> list str -> option A) :
  is_timecode t = true -> rmatch timecode_pattern (t ++ s) caps k = k s caps.
Proof.
  intros H. apply is_timecode_inv in H.
  destruct H as (h1 & h2 & m1 & m2 & s1 & s2 & f1 & f2 & f3 & -> & H1 & H2 & H3 & H4).
  unfold timecode_pattern. cbn [seqs fold_right rmatch].
  rewrite <- !app_assoc. cbn [app].
  change (h1 :: h2 :: ?x) with ([h1; h2] ++ x).
  rewrite (exactly_ok isdigit [h1; h2]) by auto. rewrite chr_ok.
  change (m1 :: m2 :: ?x) with ([m1; m2] ++ x).
  rewrite (exactly_ok isdigit [m1; m2]) by auto. rewrite chr_ok.
  change (s1 :: s2 :: ?x) with ([s1; s2] ++ x).
  rewrite (exactly_ok isdigit [s1; s2]) by auto. rewrite chr_ok.
  change (f1 :: f2 :: f3 :: ?x) with ([f1; f2; f3] ++ x).
  rewrite (exactly_ok isdigit [f1; f2; f3]) by auto. reflexivity.
Qed.

Lemma is_timerange_inv t :
  is_timerange t = true ->
  exists t1 t2, t = t1 ++ L " --> " ++ t2 /\ is_timecode t1 = true /\ is_timecode t2 = true.
Proof.
  unfold is_timerange. rewrite !andb_true_iff, str_eqb_eq. intros [[H1 H2] H3].
  exists (firstn 12 t), (skipn 17 t). repeat split; auto.
  rewrite <- H2. rewrite <- (firstn_skipn 12 t) at 1. f_equal.
  rewrite <- (firstn_skipn 5 (skipn 12 t)) at 1. f_equal.
  rewrite skipn_skipn. reflexivity.
Qed.

Lemma lookahead_eq {A : Type} s caps (k : str -> list str -> option A) :
  rmatch (Ahead (Alt (Seq (chr nl) (chr nl)) Eos)) s caps k =
  if lookahead_ok s then k s caps else None.
Proof.
  unfold lookahead_ok. cbn [rmatch chr].
  destruct s as [|a [|b s]]; cbn [startswith at_end orb andb].
  - reflexivity.
  - destruct (Ascii.eqb nl a); cbn [andb orb]; destruct (Ascii.eqb a nl); reflexivity.
  - destruct (Ascii.eqb nl a); cbn [andb orb]; [|reflexivity].
    destruct (Ascii.eqb nl b); reflexivity.
Qed.

(* ================================================================== *)
(** * Subtitle codec: the round trip *)
(* ================================================================== *)

Lemma isspace_nl : isspace nl = true.
Proof. reflexivity. Qed.

(** Inside a well-formed text the lookahead of [srt_pattern] fails,
    whatever follows the blank line that ends the block. *)
Lemma is_text_no_stop text rest u w :
  is_text text = true -> text = u ++ w -> w <> [] ->
  lookahead_ok (w ++ nl :: nl :: rest) = false.
Proof.
  unfold is_text. rewrite andb_true_iff, str_eqb_eq, negb_true_iff.
  intros [Hstrip Hblank] -> Hw. unfold lookahead_ok.
  destruct w as [|c [|d w]]; [congruence| |].
  - cbn [app startswith at_end andb orb].
    assert (Hc : isspace c = false) by (eapply strip_fixed_last; eauto).
    destruct (Ascii.eqb_spec nl c) as [<-|]; [|reflexivity].
    rewrite isspace_nl in Hc. discriminate.
  - cbn [app startswith at_end andb orb]. rewrite orb_false_r, andb_true_r.
    destruct (Ascii.eqb_spec nl c) as [<-|]; [|reflexivity].
    destruct (Ascii.eqb_spec nl d) as [<-|]; [|reflexivity].
    assert (Hin : contains (u ++ nl :: nl :: w) [nl; nl] = true).
    { apply contains_infix. now exists u, w. }
    congruence.
Qed.

Lemma rmatch_Seq {A : Type} r1 r2 s caps (k : str -> list str -> option A) :
  rmatch (Seq r1 r2) s caps k = rmatch r1 s caps (fun s1 c1 => rmatch r2 s1 c1 k).
Proof. reflexivity. Qed.

Lemma rmatch_Group {A : Type} r1 s caps (k : str -> list str -> option A) :
  rmatch (Group r1) s caps k =
  rmatch r1 s caps (fun s' c' => k s' (c' ++ [firstn (length s - length s') s])).
Proof. reflexivity. Qed.

Lemma rmatch_Rep {A : Type} g lo hi p s caps (k : str -> list str -> option A) :
  rmatch (Rep g lo hi p) s caps k = rep g p lo hi s (fun s' => k s' caps).
Proof. reflexivity. Qed.

Lemma rmatch_Eps {A : Type} s caps (k : str -> list str -> option A) :
  rmatch Eps s caps k = k s caps.
Proof. reflexivity. Qed.

Lemma timerange_ok {A : Type} t s caps (k : str -> list str -> option A) :
  is_timerange t = true ->
  rmatch (Seq timecode_pattern (Seq (lits (L " --> ")) (Seq timecode_pattern Eps)))
         (t ++ s) caps k = k s caps.
Proof.
  intros H. destruct (is_timerange_inv _ H) as (t1 & t2 & -> & Ht1 & Ht2).
  rewrite <- !app_assoc. rewrite rmatch_Seq, timecode_ok by exact Ht1.
  rewrite rmatch_Seq, lits_ok. rewrite rmatch_Seq, timecode_ok by exact Ht2.
  reflexivity.
Qed.

Lemma lookahead_blank rest : lookahead_ok (nl :: nl :: rest) = true.
Proof. reflexivity. Qed.

(** The pattern on a well-formed block followed by a blank line. *)
Lemma srt_pattern_block index timecode text rest :
  is_index index = true -> is_timerange timecode = true -> is_text text = true ->
  match_here srt_pattern (index ++ nl :: timecode ++ nl :: text ++ nl :: nl :: rest) =
  Some (index ++ nl :: timecode ++ nl :: text, [index; timecode; text], nl :: nl :: rest).
Proof.
  intros Hindex Hrange Htext.
  assert (Hdigits : forallb isdigit index = true /\ 1 <= length index).
  { destruct index; [discriminate|]. split; [exact Hindex | cbn; lia]. }
  destruct Hdigits as [Hdigits Hlen].
  unfold match_here, srt_pattern. cbn [seqs fold_right]. unfold plus, lazy_star.
  rewrite rmatch_Seq, rmatch_Group, rmatch_Rep.
  apply rep_greedy_max; [exact Hdigits | reflexivity | exact Hlen |].
  rewrite firstn_app_exact. rewrite rmatch_Seq, chr_ok.
  rewrite rmatch_Seq, rmatch_Group. rewrite timerange_ok by exact Hrange.
  rewrite firstn_app_exact. rewrite rmatch_Seq, chr_ok.
  rewrite rmatch_Seq, rmatch_Group, rmatch_Rep.
  apply rep_lazy_first.
  - intros u w Hsplit Hw. rewrite rmatch_Seq, lookahead_eq.
    now rewrite (is_text_no_stop text rest u w).
  - rewrite rmatch_Seq, lookahead_eq, lookahead_blank, rmatch_Eps.
    rewrite firstn_app_exact.
    replace (index ++ nl :: timecode ++ nl :: text ++ nl :: nl :: rest)
      with ((index ++ nl :: timecode ++ nl :: text) ++ nl :: nl :: rest)
      by (rewrite <- !app_assoc; cbn [app]; rewrite <- !app_assoc; reflexivity).
    rewrite firstn_app_exact. reflexivity.
Qed.

Lemma srt_pattern_newline s : match_here srt_pattern (nl :: s) = None.
Proof. reflexivity. Qed.

(** C1 (amended). For a text made of well-formed blocks, each followed
    by a blank line, parsing finds exactly these blocks, so that
    serializing the parse gives the text back. *)
Theorem srt_round_trip (blocks : list block)
    (Hwf : forallb well_formed_block blocks = true) :
  srt_text (parse_srt (srt_text blocks)) = srt_text blocks.
Proof.
  f_equal. revert Hwf. unfold parse_srt, srt_text.
  induction blocks as [|[[index timecode] text] blocks IH]; cbn [forallb flat_map].
  - intros _. reflexivity.
  - rewrite andb_true_iff. intros [Hb Hrest]. cbn [well_formed_block] in Hb.
    apply andb_true_iff in Hb. destruct Hb as [Hb Htext].
    apply andb_true_iff in Hb. destruct Hb as [Hindex Hrange].
    cbn [block_text]. rewrite <- !app_assoc. cbn [app].
    replace (index ++ nl :: timecode ++ nl :: text ++ nl :: nl :: flat_map block_text blocks)
      with ((index ++ nl :: timecode ++ nl :: text) ++ nl :: nl :: flat_map block_text blocks)
      by (rewrite <- !app_assoc; cbn [app]; rewrite <- !app_assoc; reflexivity).
    rewrite (finditer_hit srt_pattern _ [index; timecode; text]).
    + rewrite !finditer_miss by apply srt_pattern_newline.
      cbn [map]. rewrite (IH Hrest). unfold block_of_match. cbn [snd nth].
      unfold is_text in Htext. apply andb_true_iff in Htext.
      destruct Htext as [Hstrip _]. apply str_eqb_eq in Hstrip. now rewrite Hstrip.
    + destruct index; [discriminate | cbn; congruence].
    + rewrite <- !app_assoc. cbn [app]. rewrite <- !app_assoc.
      now apply srt_pattern_block.
Qed.

Lemma srt_round_trip_witness :
  srt_text (parse_srt (srt_text [(L "1", tr1, L "Hello <i>world</i>");
                                 (L "2", tr2, L "Goodbye")]))
  = srt_text [(L "1", tr1, L "Hello <i>world</i>"); (L "2", tr2, L "Goodbye")].
Proof.
  apply (srt_round_trip [(L "1", tr1, L "Hello <i>world</i>"); (L "2", tr2, L "Goodbye")]).
  reflexivity.
Defined.

(** C1 (as stated, refuted). Two blocks separated by a blank line come
    back with a blank line appended after the last block; a text line
    with a leading and a trailing space comes back without them. *)
Lemma srt_round_trip_fails :
  srt_text (parse_srt two_blocks_separated) = two_blocks_separated ++ [nl; nl] /\
  srt_text (parse_srt two_blocks_separated) <> two_blocks_separated /\
  srt_text (parse_srt padded_block) <> padded_block.
Proof.
  split; [reflexivity|]. split; vm_compute; discriminate.
Qed.
(* ================================================================== *)
(** * Placeholder protector: restoring after protecting *)
(* ================================================================== *)

(** ** Words *)

Lemma prefix_before (a r w s : str) g :
  a ++ r = w ++ g :: s -> ~ In g a -> exists r', w = a ++ r'.
Proof.
  revert w. induction a as [|c a IH]; intros w H Hg.
  - now exists w.
  - destruct w as [|d w]; cbn in H.
    + injection H as -> _. exfalso. apply Hg. now left.
    + injection H as -> H. destruct (IH w H) as [r' ->].
      * intros Hin. apply Hg. now right.
      * now exists r'.
Qed.

Lemma first_split (x y r s : str) g :
  x ++ g :: r = y ++ g :: s -> ~ In g x -> ~ In g y -> x = y.
Proof.
  revert y. induction x as [|c x IH]; intros [|d y] H Hx Hy; cbn in H.
  - reflexivity.
  - injection H as -> _. exfalso. apply Hy. now left.
  - injection H as -> _. exfalso. apply Hx. now left.
  - injection H as -> H. f_equal. apply (IH y H).
    + intros Hin. apply Hx. now right.
    + intros Hin. apply Hy. now right.
Qed.

Lemma word_char_lt : word_char lt = false.
Proof. reflexivity. Qed.

Lemma word_char_gt : word_char gt = false.
Proof. reflexivity. Qed.

Lemma word_not_in body c :
  forallb word_char body = true -> word_char c = false -> ~ In c body.
Proof.
  intros Hall Hc Hin. rewrite forallb_forall in Hall. apply Hall in Hin. congruence.
Qed.

Lemma bracket_head P : bracket P -> exists rest, P = lt :: rest.
Proof. intros (body & -> & _). eauto. Qed.

(** Two placeholders that start at the same place are the same. *)
Lemma bracket_prefix_eq P P' s :
  bracket P -> bracket P' -> prefix P (P' ++ s) -> P = P'.
Proof.
  intros (b & -> & Hb) (b' & -> & Hb') [r H].
  cbn in H. injection H as H. rewrite <- !app_assoc in H. cbn in H.
  symmetry in H. apply first_split in H.
  - now subst.
  - apply word_not_in; [exact Hb | reflexivity].
  - apply word_not_in; [exact Hb' | reflexivity].
Qed.

(** A proper suffix of a placeholder is word characters and [>]. *)
Lemma bracket_suffix P w1 w2 :
  bracket P -> P = w1 ++ w2 -> w1 <> [] -> w2 <> [] ->
  exists w', w2 = w' ++ [gt] /\ forallb word_char w' = true.
Proof.
  intros (body & -> & Hb) H H1 H2.
  destruct w1 as [|c w1]; [congruence|]. cbn in H. injection H as _ H.
  destruct (exists_last H2) as (w' & c' & ->).
  rewrite app_assoc in H. apply app_inj_tail in H. destruct H as [-> <-].
  exists w'. split; [reflexivity|].
  rewrite forallb_app in Hb. apply andb_true_iff in Hb. tauto.
Qed.

Lemma shape_nonempty a : plain a \/ tagged a -> a <> [].
Proof.
  intros [(_ & _ & c & Hin & _)|(x & -> & _)]; [|discriminate].
  intros ->. contradiction.
Qed.

Lemma shape_tail c a : plain (c :: a) \/ tagged (c :: a) -> tail_ok a.
Proof.
  intros [(Hlt & _ & _)|(x & H & Hx)].
  - left. intros Hin. apply Hlt. now right.
  - right. injection H as _ ->. now exists x.
Qed.

Lemma tail_ok_tail c a : tail_ok (c :: a) -> tail_ok a.
Proof.
  intros [Hlt|(x & H & Hx)].
  - left. intros Hin. apply Hlt. now right.
  - destruct x as [|d x]; cbn in H.
    + injection H as _ ->. left. intros [].
    + injection H as _ ->. right. exists x. split; [reflexivity|].
      intros Hin. apply Hx. now right.
Qed.

(** An original cannot start inside a placeholder nor at its start. *)
Lemma no_straddle a P w1 w2 s :
  plain a \/ tagged a -> bracket P -> ~ infix P a ->
  P = w1 ++ w2 -> w2 <> [] -> ~ prefix a (w2 ++ s).
Proof.
  intros Hshape HP Hnot Hsplit Hw2 [r Hpre].
  destruct w1 as [|c1 w1].
  - cbn in Hsplit. subst w2. destruct HP as (body & -> & Hb).
    destruct Hshape as [(Hlt & _ & c & Hin & _)|(x & -> & Hx)].
    + destruct a as [|c0 a]; [contradiction|]. cbn in Hpre. injection Hpre as <- _.
      apply Hlt. now left.
    + cbn in Hpre. injection Hpre as Hpre. rewrite <- !app_assoc in Hpre. cbn in Hpre.
      symmetry in Hpre. apply first_split in Hpre;
        [|exact Hx | apply word_not_in; [exact Hb | reflexivity]].
      subst x. apply Hnot, infix_refl.
  - destruct (bracket_suffix P (c1 :: w1) w2 HP Hsplit) as (w' & -> & Hw');
      [discriminate | exact Hw2 |].
    rewrite <- app_assoc in Hpre. cbn in Hpre.
    destruct Hshape as [(_ & Hgt & c & Hin & Hc)|(x & -> & Hx)].
    + symmetry in Hpre. destruct (prefix_before _ _ _ _ _ Hpre Hgt) as [r' ->].
      rewrite forallb_app in Hw'. apply andb_true_iff in Hw'. destruct Hw' as [Hw' _].
      rewrite forallb_forall in Hw'. apply Hw' in Hin. congruence.
    + destruct w' as [|d w']; cbn in Hpre; injection Hpre as Hd _.
      * discriminate.
      * subst d. cbn in Hw'. discriminate.
Qed.

(** ** Texts with placeholders *)

Lemma render_app t1 t2 : render (t1 ++ t2) = render t1 ++ render t2.
Proof. apply flat_map_app. Qed.

Lemma orig_app t1 t2 : orig (t1 ++ t2) = orig t1 ++ orig t2.
Proof. apply flat_map_app. Qed.

Lemma render_raw a : render (map Raw a) = a.
Proof. induction a as [|c a IH]; cbn; [reflexivity | now f_equal]. Qed.

Lemma orig_raw a : orig (map Raw a) = a.
Proof. induction a as [|c a IH]; cbn; [reflexivity | now f_equal]. Qed.

Lemma clear_of_tail a t toks : clear_of a (t :: toks) -> clear_of a toks.
Proof. intros H P a' Hin. apply (H P a'). now right. Qed.

Lemma clear_of_app_r a t1 t2 : clear_of a (t1 ++ t2) -> clear_of a t2.
Proof. intros H P a' Hin. apply (H P a'). apply in_or_app. now right. Qed.

Lemma clear_of_infix a b toks : infix b a -> clear_of a toks -> clear_of b toks.
Proof.
  intros Hba H P a' Hin. destruct (H P a' Hin) as [HP Hnot].
  split; [exact HP|]. intros HPb. apply Hnot. eapply infix_trans; eauto.
Qed.

(** An occurrence that starts on a character of the text lies on
    characters of the text only. *)
Lemma raw_prefix a :
  forall toks, tail_ok a -> clear_of a toks -> prefix a (render toks) ->
               exists toks2, toks = map Raw a ++ toks2.
Proof.
  induction a as [|c a IH]; intros toks Hok Hclear Hpre.
  - now exists toks.
  - destruct toks as [|[d|P a'] toks].
    + destruct Hpre as [r H]. discriminate.
    + destruct Hpre as [r H]. cbn in H. injection H as <- H.
      destruct (IH toks) as [toks2 ->].
      * eapply tail_ok_tail; eauto.
      * apply clear_of_tail in Hclear. eapply clear_of_infix; [|exact Hclear].
        exists [d], []. now rewrite app_nil_r.
      * now exists r.
      * now exists toks2.
    + exfalso. destruct (Hclear P a') as [HP Hnot]; [now left|].
      destruct HP as (body & -> & Hb). destruct Hpre as [r H].
      cbn in H. injection H as <- H.
      destruct Hok as [Hlt|(x & Hx & Hgt)].
      * apply Hlt. now left.
      * apply Hnot. rewrite Hx.
        assert (Hxb : x = lt :: body).
        { apply (first_split x (lt :: body) r (render toks) gt).
          - replace (x ++ gt :: r) with ((x ++ [gt]) ++ r)
              by (rewrite <- app_assoc; reflexivity).
            rewrite <- Hx. cbn [app]. rewrite <- H. rewrite <- app_assoc. reflexivity.
          - exact Hgt.
          - intros [Hin|Hin]; [discriminate|].
            revert Hin. apply word_not_in; [exact Hb | reflexivity]. }
        rewrite Hxb. apply infix_refl.
Qed.

(** [replace] passes over a stretch in which no match can start. *)
Lemma replace_through old new w :
  forall s,
    (forall w1 w2, w = w1 ++ w2 -> w2 <> [] -> ~ prefix old (w2 ++ s)) ->
    replace_from old new 0 (w ++ s) = w ++ replace_from old new 0 s.
Proof.
  induction w as [|c w IH]; intros s H; [reflexivity|].
  cbn [app]. rewrite replace_from_miss.
  - f_equal. apply IH. intros w1 w2 -> Hw2. apply (H (c :: w1) w2); auto.
  - destruct (startswith (c :: w ++ s) old) eqn:E; [|reflexivity].
    apply startswith_prefix in E. exfalso.
    apply (H [] (c :: w)); [reflexivity | discriminate | exact E].
Qed.

(** One substitution of [protect_content], on a text with
    placeholders: it turns occurrences of the original that lie on
    characters of the text into the new placeholder, and nothing else. *)
Lemma protect_step P a :
  plain a \/ tagged a ->
  forall n toks, length toks <= n -> clear_of a toks ->
  exists toks',
    replace_from a P 0 (render toks) = render toks' /\
    orig toks' = orig toks /\
    (forall t, In t toks' -> In t toks \/ t = Ph P a).
Proof.
  intros Hshape. pose proof (shape_nonempty a Hshape) as Hne.
  induction n as [|n IH]; intros toks Hlen Hclear.
  - destruct toks; [|cbn in Hlen; lia]. exists []. cbn. auto.
  - destruct toks as [|[c|P' a'] toks].
    + exists []. cbn. auto.
    + destruct (startswith (render (Raw c :: toks)) a) eqn:E.
      * apply startswith_prefix in E.
        destruct a as [|c0 a]; [congruence|].
        assert (Hc : c0 = c) by (destruct E as [r H]; cbn in H; now injection H).
        subst c0.
        destruct (raw_prefix a toks) as [toks2 ->].
        { eapply shape_tail; eauto. }
        { apply clear_of_tail in Hclear. eapply clear_of_infix; [|exact Hclear].
          exists [c], []. now rewrite app_nil_r. }
        { destruct E as [r H]. cbn in H. injection H as H. now exists r. }
        destruct (IH toks2) as (toks' & Hr & Ho & Hin).
        { cbn in Hlen. rewrite length_app in Hlen. lia. }
        { apply clear_of_tail in Hclear. now apply clear_of_app_r in Hclear. }
        exists (Ph P (c :: a) :: toks'). split; [|split].
        -- change (Raw c :: map Raw a ++ toks2) with (map Raw (c :: a) ++ toks2).
           rewrite render_app, render_raw, replace_from_hit by exact Hne.
           cbn. now rewrite Hr.
        -- change (Raw c :: map Raw a ++ toks2) with (map Raw (c :: a) ++ toks2).
           rewrite orig_app, orig_raw. cbn [orig flat_map orig_tok].
           fold (orig toks'). now rewrite Ho.
        -- intros t [<-|Ht]; [now right|]. destruct (Hin t Ht) as [H|H]; [|now right].
           left. right. apply in_or_app. now right.
      * destruct (IH toks) as (toks' & Hr & Ho & Hin).
        { cbn in Hlen. lia. }
        { eapply clear_of_tail; eauto. }
        exists (Raw c :: toks'). split; [|split].
        -- cbn [render flat_map render_tok app]. fold (render toks).
           rewrite replace_from_miss by exact E. fold (render toks'). now rewrite Hr.
        -- cbn [orig flat_map orig_tok app]. fold (orig toks) (orig toks'). now rewrite Ho.
        -- intros t [<-|Ht]; [left; now left|].
           destruct (Hin t Ht) as [H|H]; [left; now right | now right].
    + destruct (Hclear P' a') as [HP' Hnot]; [now left|].
      destruct (IH toks) as (toks' & Hr & Ho & Hin).
      { cbn in Hlen. lia. }
      { eapply clear_of_tail; eauto. }
      exists (Ph P' a' :: toks'). split; [|split].
      * cbn [render flat_map render_tok]. fold (render toks) (render toks').
        rewrite replace_through; [now rewrite Hr|].
        intros w1 w2 Hsplit Hw2. now apply (no_straddle a P' w1 w2).
      * cbn [orig flat_map orig_tok]. fold (orig toks) (orig toks'). now rewrite Ho.
      * intros t [<-|Ht]; [left; now left|].
        destruct (Hin t Ht) as [H|H]; [left; now right | now right].
Qed.

(** A word without [<] that starts a rendered text starts the
    original text as well. *)
Lemma render_prefix_orig p :
  forall toks,
    ~ In lt p -> (forall P a', In (Ph P a') toks -> bracket P) ->
    prefix p (render toks) -> prefix p (orig toks).
Proof.
  induction p as [|c p IH]; intros toks Hlt Hbr Hpre.
  - now exists (orig toks).
  - destruct toks as [|[d|P a'] toks].
    + destruct Hpre as [r H]. discriminate.
    + destruct Hpre as [r H]. cbn in H. injection H as <- H.
      destruct (IH toks) as [r' Hr'].
      * intros Hin. apply Hlt. now right.
      * intros P a' Hin. apply (Hbr P a'). now right.
      * now exists r.
      * exists r'. cbn. fold (orig toks). now rewrite Hr'.
    + exfalso. destruct (bracket_head P) as [rest ->].
      { apply (Hbr _ a'). now left. }
      destruct Hpre as [r H]. cbn in H. injection H as <- _. apply Hlt. now left.
Qed.

Lemma expand_raw P a : expand P (map Raw a) = map Raw a.
Proof. induction a as [|c a IH]; cbn; [reflexivity | now f_equal]. Qed.

(** One substitution of [restore_content], on a text with
    placeholders: exactly the placeholders [P] get their original. *)
Lemma restore_step P a :
  bracket P ->
  forall toks,
    (forall P' a', In (Ph P' a') toks -> bracket P' /\ (P' = P -> a' = a)) ->
    ~ infix P (orig toks) ->
    replace_from P a 0 (render toks) = render (expand P toks) /\
    orig (expand P toks) = orig toks.
Proof.
  intros HP. induction toks as [|[c|P' a'] toks IH]; intros Hinv Hnot.
  - split; reflexivity.
  - destruct IH as [Hr Ho].
    { intros P' a' Hin. apply Hinv. now right. }
    { intros Hin. apply Hnot. cbn. fold (orig toks).
      change (c :: orig toks) with ([c] ++ orig toks). now apply infix_app_l. }
    split.
    + cbn [render flat_map render_tok app expand expand_tok].
      fold (render toks) (expand P toks) (render (expand P toks)).
      rewrite replace_from_miss; [now rewrite Hr|].
      destruct (startswith (c :: render toks) P) eqn:E; [|reflexivity].
      exfalso. apply startswith_prefix in E.
      destruct HP as (body & -> & Hb). destruct E as [r H]. cbn in H.
      injection H as -> H.
      destruct (render_prefix_orig (body ++ [gt]) toks) as [r' Hr'].
      * intros Hin. apply in_app_or in Hin. destruct Hin as [Hin|[Hin|[]]].
        -- revert Hin. apply word_not_in; [exact Hb | reflexivity].
        -- discriminate.
      * intros P0 a0 Hin. apply (Hinv P0 a0). now right.
      * exists r. rewrite H. reflexivity.
      * apply Hnot. exists [], r'. cbn. fold (orig toks). now rewrite Hr'.
    + cbn [orig flat_map orig_tok app expand expand_tok].
      fold (orig toks) (expand P toks) (orig (expand P toks)). now rewrite Ho.
  - destruct (Hinv P' a') as [HP' Hsame]; [now left|].
    destruct IH as [Hr Ho].
    { intros P0 a0 Hin. apply Hinv. now right. }
    { intros Hin. apply Hnot. cbn. fold (orig toks). now apply infix_app_l. }
    cbn [expand flat_map expand_tok]. fold (expand P toks).
    destruct (str_eqb P' P) eqn:E.
    + apply str_eqb_eq in E. subst P'. rewrite (Hsame eq_refl). split.
      * cbn [render flat_map render_tok]. fold (render toks).
        rewrite replace_from_hit.
        -- rewrite render_app, render_raw. now rewrite Hr.
        -- destruct HP as (body & -> & _). discriminate.
      * rewrite orig_app, orig_raw. cbn [orig flat_map orig_tok]. fold (orig toks).
        now rewrite Ho.
    + apply str_eqb_neq in E. split.
      * cbn [render flat_map render_tok app]. fold (render toks) (render (expand P toks)).
        rewrite replace_through; [now rewrite Hr|].
        intros w1 w2 Hsplit Hw2 Hpre. destruct w1 as [|c1 w1].
        -- cbn in Hsplit. subst w2. apply E. symmetry.
           eapply bracket_prefix_eq; eauto.
        -- destruct (bracket_suffix P' (c1 :: w1) w2 HP' Hsplit) as (w' & -> & Hw');
             [discriminate | exact Hw2 |].
           destruct HP as (body & -> & _). destruct Hpre as [r H].
           destruct w' as [|d w']; cbn in H; injection H as Hd _.
           ++ discriminate.
           ++ subst d. cbn in Hw'. discriminate.
      * cbn [orig flat_map orig_tok app]. fold (orig toks) (orig (expand P toks)).
        now rewrite Ho.
Qed.

Lemma expand_in P toks t :
  In t (expand P toks) ->
  (exists c, t = Raw c) \/ (exists P' a', t = Ph P' a' /\ P' <> P /\ In t toks).
Proof.
  unfold expand. rewrite in_flat_map. intros ([c|P' a'] & Hin & Ht); cbn in Ht.
  - destruct Ht as [<-|[]]. left. eauto.
  - destruct (str_eqb P' P) eqn:E.
    + apply in_map_iff in Ht. destruct Ht as (c & <- & _). left. eauto.
    + destruct Ht as [<-|[]]. right. exists P', a'. apply str_eqb_neq in E. auto.
Qed.

Lemma render_no_ph toks :
  (forall P a, ~ In (Ph P a) toks) -> render toks = orig toks.
Proof.
  induction toks as [|[c|P a] toks IH]; intros H.
  - reflexivity.
  - cbn. fold (render toks) (orig toks). f_equal. apply IH.
    intros P a Hin. apply (H P a). now right.
  - exfalso. apply (H P a). now left.
Qed.

(** [restore_content] on a text with placeholders, all of them among
    the rules, gives the original text. *)
Lemma restore_phase rs :
  forall toks,
    NoDup (map fst rs) ->
    (forall P a, In (Ph P a) toks -> In (P, a) rs) ->
    (forall P a, In (P, a) rs -> bracket P /\ ~ infix P (orig toks)) ->
    restore_content (render toks) rs = orig toks.
Proof.
  unfold restore_content.
  induction rs as [|[P a] rs IH]; intros toks Hnd Hin Hkeys.
  - cbn. apply render_no_ph. intros P a H. apply (Hin P a H).
  - cbn [fold_left fst snd]. inversion Hnd as [|k ks Hfresh Hnd']; subst.
    destruct (Hkeys P a) as [HP Hnot]; [now left|].
    assert (Hne : P <> []) by (destruct HP as (body & -> & _); discriminate).
    rewrite replace_nonempty by exact Hne.
    destruct (restore_step P a HP toks) as [Hr Ho].
    { intros P' a' Hph. split.
      - destruct (Hin P' a' Hph) as [H|H].
        + injection H as <- _. exact HP.
        + now apply (Hkeys P' a'); right.
      - intros ->. destruct (Hin P a' Hph) as [H|H].
        + now injection H.
        + exfalso. apply Hfresh. apply in_map_iff. exists (P, a'). auto. }
    { exact Hnot. }
    rewrite Hr. rewrite <- Ho. apply IH.
    + exact Hnd'.
    + intros P' a' Hph. apply expand_in in Hph.
      destruct Hph as [[c H]|(P0 & a0 & H & Hneq & Hph)]; [discriminate|].
      injection H as <- <-. destruct (Hin P' a' Hph) as [H|H]; [|exact H].
      injection H as <- _. congruence.
    + intros P' a' Hr'. rewrite Ho. apply (Hkeys P' a'). now right.
Qed.

(** The substitutions of [protect_content], on a text with
    placeholders. *)
Lemma protect_phase all rs :
  (forall P a, In (P, a) all ->
     bracket P /\ (plain a \/ tagged a) /\
     forall P' a', In (P', a') all -> ~ infix P' a) ->
  incl rs all ->
  forall toks,
    (forall P a, In (Ph P a) toks -> In (P, a) all) ->
    exists toks',
      protect_text rs (render toks) = render toks' /\
      orig toks' = orig toks /\
      (forall P a, In (Ph P a) toks' -> In (P, a) all).
Proof.
  intros Hall. unfold protect_text.
  induction rs as [|[P a] rs IH]; intros Hincl toks Hin.
  - exists toks. auto.
  - cbn [fold_left fst snd].
    destruct (Hall P a) as (HP & Hshape & Hfree); [apply Hincl; now left|].
    rewrite replace_nonempty by (now apply shape_nonempty).
    destruct (protect_step P a Hshape (length toks) toks (le_n _)) as (toks1 & Hr & Ho & Hsub).
    { intros P' a' Hph. apply Hin in Hph. split.
      - now apply (Hall P' a').
      - now apply (Hfree P' a'). }
    rewrite Hr.
    destruct (IH (fun x Hx => Hincl x (or_intror Hx)) toks1) as (toks2 & Hr2 & Ho2 & Hin2).
    { intros P' a' Hph. destruct (Hsub _ Hph) as [H|H].
      - now apply Hin.
      - injection H as -> ->. apply Hincl. now left. }
    exists toks2. split; [exact Hr2|]. split; [congruence | exact Hin2].
Qed.

(** Restoring after protecting, for a list of rules. *)
Lemma restore_protect_rules rs text :
  NoDup (map fst rs) ->
  (forall P a, In (P, a) rs ->
     bracket P /\ (plain a \/ tagged a) /\ infix a text /\ ~ infix P text) ->
  restore_content (protect_text rs text) rs = text.
Proof.
  intros Hnd Hrules.
  destruct (protect_phase rs rs) with (toks := map Raw text) as (toks & Hr & Ho & Hin).
  - intros P a HPa. destruct (Hrules P a HPa) as (HP & Hshape & Ha & _).
    split; [exact HP|]. split; [exact Hshape|].
    intros P' a' HPa' Hinf. destruct (Hrules P' a' HPa') as (_ & _ & _ & Hnot).
    apply Hnot. eapply infix_trans; eauto.
  - apply incl_refl.
  - intros P a Hph. apply in_map_iff in Hph. destruct Hph as (c & H & _). discriminate.
  - rewrite render_raw in Hr. rewrite orig_raw in Ho. rewrite Hr.
    rewrite <- Ho. apply restore_phase; auto.
    intros P a HPa. rewrite Ho. destruct (Hrules P a HPa) as (HP & _ & _ & Hnot). auto.
Qed.

(** ** Decimal numerals *)

Lemma L_cons c s : L (String c s) = c :: L s.
Proof. reflexivity. Qed.

Lemma L_inj s1 s2 : L s1 = L s2 -> s1 = s2.
Proof.
  unfold L. intros H. apply (f_equal string_of_list_ascii) in H.
  now rewrite !string_of_list_ascii_of_string in H.
Qed.

Lemma of_nat_inj n m : of_nat n = of_nat m -> n = m.
Proof.
  unfold of_nat. intros H. apply L_inj in H.
  apply DecimalNat.Unsigned.to_uint_inj.
  pose proof (DecimalString.NilEmpty.usu (Nat.to_uint n)) as Hn.
  pose proof (DecimalString.NilEmpty.usu (Nat.to_uint m)) as Hm.
  rewrite H in Hn. congruence.
Qed.

Lemma uint_digits d :
  forallb isdigit (L (DecimalString.NilEmpty.string_of_uint d)) = true.
Proof.
  induction d; cbn [DecimalString.NilEmpty.string_of_uint]; [reflexivity|..];
    rewrite L_cons; cbn [forallb]; rewrite IHd; reflexivity.
Qed.

Lemma of_nat_digits n : forallb isdigit (of_nat n) = true.
Proof. apply uint_digits. Qed.

Lemma digit_word c : isdigit c = true -> word_char c = true.
Proof. unfold word_char. now intros ->. Qed.

Lemma of_nat_word n : forallb word_char (of_nat n) = true.
Proof.
  pose proof (of_nat_digits n) as H. rewrite forallb_forall in *.
  intros c Hc. apply digit_word. auto.
Qed.

(** ** The placeholders *)

Lemma family_bracket fam n :
  forallb word_char fam = true -> bracket (lt :: fam ++ of_nat n ++ [gt]).
Proof.
  intros H. exists (fam ++ of_nat n). split.
  - now rewrite <- app_assoc.
  - now rewrite forallb_app, H, of_nat_word.
Qed.

Lemma time_placeholder_bracket n : bracket (time_placeholder n).
Proof. apply (family_bracket (L "TIME_")). reflexivity. Qed.

Lemma tag_placeholder_bracket n full : bracket (tag_placeholder n full).
Proof.
  unfold tag_placeholder. destruct (startswith full (L "</")).
  - apply (family_bracket (L "ETAG_")). reflexivity.
  - apply (family_bracket (L "BTAG_")). reflexivity.
Qed.

Lemma family_inj fam n m :
  fam ++ of_nat n ++ L ">" = fam ++ of_nat m ++ L ">" -> n = m.
Proof.
  intros H. apply app_inv_head in H. apply app_inv_tail in H. now apply of_nat_inj.
Qed.

Lemma time_placeholder_inj n m : time_placeholder n = time_placeholder m -> n = m.
Proof. apply family_inj. Qed.

Lemma tag_placeholder_inj n m f g : tag_placeholder n f = tag_placeholder m g -> n = m.
Proof.
  unfold tag_placeholder.
  destruct (startswith f (L "</")), (startswith g (L "</")); intros H;
    try (now apply family_inj in H); discriminate.
Qed.

Lemma time_tag_placeholder n m f : time_placeholder n <> tag_placeholder m f.
Proof.
  unfold time_placeholder, tag_placeholder.
  destruct (startswith f (L "</")); discriminate.
Qed.

(** ** The dictionary *)

Lemma dict_set_fresh d k v :
  ~ In k (map fst d) -> dict_set d k v = d ++ [(k, v)].
Proof.
  induction d as [|[k' v'] d IH]; cbn; intros H; [reflexivity|].
  destruct (str_eqb k' k) eqn:E.
  - apply str_eqb_eq in E. tauto.
  - rewrite IH; tauto.
Qed.

Lemma fold_dict_set rs :
  forall d, NoDup (map fst (d ++ rs)) ->
  fold_left (fun d kv => dict_set d (fst kv) (snd kv)) rs d = d ++ rs.
Proof.
  induction rs as [|[k v] rs IH]; intros d Hnd; cbn [fold_left fst snd].
  - now rewrite app_nil_r.
  - rewrite dict_set_fresh.
    + rewrite IH; rewrite <- app_assoc; [reflexivity | exact Hnd].
    + rewrite map_app in Hnd. cbn in Hnd. apply NoDup_remove_2 in Hnd.
      intros Hin. apply Hnd. apply in_or_app. now left.
Qed.

Lemma enumerate_keys {A : Type} (l : list A) :
  map fst (enumerate l) = seq 0 (length l).
Proof.
  unfold enumerate. generalize 0. induction l as [|x l IH]; intros n; cbn.
  - reflexivity.
  - now rewrite IH.
Qed.

Lemma NoDup_map_key {A K B : Type} (f : K * A -> B) (its : list (K * A)) :
  NoDup (map fst its) ->
  (forall x y, f x = f y -> fst x = fst y) ->
  NoDup (map f its).
Proof.
  intros Hnd Hf. induction its as [|x its IH]; cbn; [constructor|].
  cbn in Hnd. inversion Hnd as [|k ks Hfresh Hnd']; subst. constructor; [|auto].
  intros Hin. apply in_map_iff in Hin. destruct Hin as (y & Hy & Hin).
  apply Hfresh. apply Hf in Hy. rewrite <- Hy. now apply in_map.
Qed.

Lemma rules_nodup text : NoDup (map fst (rules text)).
Proof.
  unfold rules. rewrite map_app. apply NoDup_app.
  - unfold time_rules. rewrite map_map. cbn [fst]. apply NoDup_map_key.
    + rewrite enumerate_keys. apply seq_NoDup.
    + intros x y. apply time_placeholder_inj.
  - unfold tag_rules. rewrite map_map. cbn [fst]. apply NoDup_map_key.
    + rewrite enumerate_keys. apply seq_NoDup.
    + intros x y. apply tag_placeholder_inj.
  - intros k H1 H2. unfold time_rules, tag_rules in *. rewrite map_map in *.
    apply in_map_iff in H1. destruct H1 as (x & <- & _).
    apply in_map_iff in H2. destruct H2 as (y & Hy & _). cbn [fst] in Hy.
    symmetry in Hy. now apply time_tag_placeholder in Hy.
Qed.

Lemma protect_time_fold its :
  forall s d,
    fold_left protect_time its (s, d) =
    (protect_text (map (fun it => (time_placeholder (fst it), snd it)) its) s,
     fold_left (fun d kv => dict_set d (fst kv) (snd kv))
               (map (fun it => (time_placeholder (fst it), snd it)) its) d).
Proof.
  unfold protect_text. induction its as [|[idx tc] its IH]; intros s d.
  - reflexivity.
  - cbn [fold_left map fst snd protect_time]. apply IH.
Qed.

Lemma protect_tag_fold its :
  forall s d,
    fold_left protect_tag its (s, d) =
    (protect_text (map (fun it => (tag_placeholder (fst it) (full_tag (snd it)),
                                   full_tag (snd it))) its) s,
     fold_left (fun d kv => dict_set d (fst kv) (snd kv))
               (map (fun it => (tag_placeholder (fst it) (full_tag (snd it)),
                                full_tag (snd it))) its) d).
Proof.
  unfold protect_text. induction its as [|[idx tag] its IH]; intros s d.
  - reflexivity.
  - cbn [fold_left map fst snd protect_tag]. apply IH.
Qed.

(** [protect_content] is the substitution of its rules, in order, and
    returns them as its dictionary: no placeholder is assigned twice. *)
Lemma protect_content_rules text :
  protect_content text = (protect_text (rules text) text, rules text).
Proof.
  unfold protect_content. rewrite protect_time_fold, protect_tag_fold.
  fold (time_rules text) (tag_rules text).
  pose proof (rules_nodup text) as Hnd. unfold rules in *.
  rewrite (fold_dict_set (time_rules text) [])
    by (cbn [app]; rewrite map_app in Hnd; now apply NoDup_app_remove_r in Hnd).
  cbn [app]. rewrite fold_dict_set by exact Hnd.
  unfold protect_text. now rewrite fold_left_app.
Qed.

(** ** What the two patterns match *)

Lemma chr_inv {A : Type} c s caps (k : str -> list str -> option A) v :
  rmatch (chr c) s caps k = Some v -> exists s', s = c :: s' /\ k s' caps = Some v.
Proof.
  cbn [rmatch chr]. destruct s as [|d s]; [discriminate|].
  destruct (Ascii.eqb_spec c d) as [->|]; [|discriminate]. eauto.
Qed.

Lemma exactly_inv {A : Type} n p s caps (k : str -> list str -> option A) v :
  rmatch (exactly n p) s caps k = Some v ->
  exists xs s', s = xs ++ s' /\ length xs = n /\ forallb p xs = true /\
                k s' caps = Some v.
Proof.
  unfold exactly. rewrite rmatch_Rep. intros H. apply rep_inv in H.
  destruct H as (xs & s' & -> & Hall & Hlo & Hhi & Hk).
  exists xs, s'. repeat split; auto. lia.
Qed.

Lemma timecode_inv s m caps rest :
  match_here timecode_pattern s = Some (m, caps, rest) -> is_timecode m = true.
Proof.
  unfold match_here, timecode_pattern. cbn [seqs fold_right]. intros H.
  rewrite rmatch_Seq in H. apply exactly_inv in H.
  destruct H as (x1 & s1 & E1 & L1 & D1 & H).
  rewrite rmatch_Seq in H. apply chr_inv in H. destruct H as (s2 & E2 & H).
  rewrite rmatch_Seq in H. apply exactly_inv in H.
  destruct H as (x2 & s3 & E3 & L2 & D2 & H).
  rewrite rmatch_Seq in H. apply chr_inv in H. destruct H as (s4 & E4 & H).
  rewrite rmatch_Seq in H. apply exactly_inv in H.
  destruct H as (x3 & s5 & E5 & L3 & D3 & H).
  rewrite rmatch_Seq in H. apply chr_inv in H. destruct H as (s6 & E6 & H).
  rewrite rmatch_Seq in H. apply exactly_inv in H.
  destruct H as (x4 & s7 & E7 & L4 & D4 & H).
  rewrite rmatch_Eps in H. injection H as <- _ _.
  subst s6 s5 s4 s3 s2 s1.
  assert (Hs : s = (x1 ++ ":"%char :: x2 ++ ":"%char :: x3 ++ ","%char :: x4) ++ s7).
  { rewrite E1. rewrite <- !app_assoc. cbn [app]. rewrite <- !app_assoc. cbn [app].
    rewrite <- !app_assoc. reflexivity. }
  rewrite Hs, firstn_app_exact.
  destruct x1 as [|h1 [|h2 [|]]]; try discriminate.
  destruct x2 as [|m1 [|m2 [|]]]; try discriminate.
  destruct x3 as [|t1 [|t2 [|]]]; try discriminate.
  destruct x4 as [|f1 [|f2 [|f3 [|]]]]; try discriminate.
  cbn [forallb] in D1, D2, D3, D4. rewrite !andb_true_r in *.
  apply andb_true_iff in D1, D2, D3, D4.
  destruct D1 as [A1 A2], D2 as [A3 A4], D3 as [A5 A6], D4 as [A7 D4].
  apply andb_true_iff in D4. destruct D4 as [A8 A9].
  cbn [app is_timecode]. rewrite A1, A2, A3, A4, A5, A6, A7, A8, A9. reflexivity.
Qed.

Lemma is_timecode_plain m : is_timecode m = true -> plain m.
Proof.
  intros H. apply is_timecode_inv in H.
  destruct H as (h1 & h2 & m1 & m2 & s1 & s2 & f1 & f2 & f3 & -> & H1 & H2 & H3 & H4).
  assert (Hd : forall c b, isdigit c = true -> isdigit b = false -> b <> c)
    by (intros c b Hc Hb ->; congruence).
  cbn [forallb] in H1, H2, H3, H4. rewrite !andb_true_r in *.
  apply andb_true_iff in H1, H2, H3, H4.
  destruct H1 as [A1 A2], H2 as [A3 A4], H3 as [A5 A6], H4 as [A7 A8].
  apply andb_true_iff in A8. destruct A8 as [A8 A9].
  assert (Hno : forall b, isdigit b = false -> b <> ":"%char -> b <> ","%char ->
            ~ In b ([h1; h2] ++ ":"%char :: [m1; m2] ++ ":"%char :: [s1; s2]
                      ++ ","%char :: [f1; f2; f3])).
  { intros b Hb Hc1 Hc2 Hin. cbn in Hin.
    repeat (destruct Hin as [Hin|Hin];
            [first [ now apply (Hd _ b) in Hin | congruence ] |]).
    exact Hin. }
  split; [|split].
  - apply Hno; [reflexivity | discriminate | discriminate].
  - apply Hno; [reflexivity | discriminate | discriminate].
  - exists ":"%char. split; [|reflexivity]. cbn. auto.
Qed.

Lemma tag_inv s m caps rest :
  match_here tag_pattern s = Some (m, caps, rest) ->
  exists g, caps = [g] /\ m = lt :: g ++ [gt] /\ ~ In gt g.
Proof.
  unfold match_here, tag_pattern. cbn [seqs fold_right]. unfold plus. intros H.
  rewrite rmatch_Seq in H. apply chr_inv in H. destruct H as (s1 & E1 & H).
  rewrite rmatch_Seq, rmatch_Group, rmatch_Rep in H. apply rep_inv in H.
  destruct H as (g & s2 & E2 & Hall & _ & _ & H).
  rewrite rmatch_Seq in H. apply chr_inv in H. destruct H as (s3 & E3 & H).
  rewrite rmatch_Eps in H. injection H as <- <- _.
  exists g. subst s1 s2. rewrite firstn_app_exact. split; [reflexivity|]. split.
  - assert (Hs : s = (lt :: g ++ [gt]) ++ s3).
    { rewrite E1. cbn [app]. rewrite <- app_assoc. reflexivity. }
    rewrite Hs. apply firstn_app_exact.
  - intros Hin. rewrite forallb_forall in Hall. apply Hall in Hin. discriminate.
Qed.

Lemma in_enumerate {A : Type} (l : list A) i x : In (i, x) (enumerate l) -> In x l.
Proof. unfold enumerate. apply in_combine_r. Qed.

(** Every rule of [protect_content] is well shaped, and its original
    occurs in the text. *)
Lemma rules_shape text P a :
  In (P, a) (rules text) -> bracket P /\ (plain a \/ tagged a) /\ infix a text.
Proof.
  unfold rules. intros H. apply in_app_or in H. destruct H as [H|H].
  - unfold time_rules in H. apply in_map_iff in H.
    destruct H as ([i tc] & H & Hin). cbn [fst snd] in H. injection H as <- <-.
    apply in_enumerate in Hin. unfold findall_whole in Hin. apply in_map_iff in Hin.
    destruct Hin as ([m caps] & Hm & Hin). cbn [fst] in Hm. subst m.
    apply finditer_sound in Hin. destruct Hin as (l & rest & -> & Hmatch).
    split; [apply time_placeholder_bracket|]. split.
    + left. apply is_timecode_plain. eapply timecode_inv; eauto.
    + now exists l, rest.
  - unfold tag_rules in H. apply in_map_iff in H.
    destruct H as ([i tag] & H & Hin). cbn [fst snd] in H. injection H as <- <-.
    apply in_enumerate in Hin. unfold findall_group in Hin. apply in_map_iff in Hin.
    destruct Hin as ([m caps] & Hm & Hin). cbn [snd] in Hm.
    apply finditer_sound in Hin. destruct Hin as (l & rest & -> & Hmatch).
    apply tag_inv in Hmatch. destruct Hmatch as (g & -> & -> & Hg).
    cbn [nth] in Hm. subst tag.
    split; [apply tag_placeholder_bracket|]. split.
    + right. now exists g.
    + now exists l, rest.
Qed.

(** Restoring after protecting gives the text back as soon as none of
    the generated placeholders occurs in it. *)
Lemma restore_protect text :
  (forall P a, In (P, a) (rules text) -> ~ infix P text) ->
  restore_content (fst (protect_content text)) (snd (protect_content text)) = text.
Proof.
  intros Hfree. rewrite protect_content_rules. cbn [fst snd].
  apply restore_protect_rules; [apply rules_nodup|].
  intros P a H. destruct (rules_shape text P a H) as (HP & Hs & Hin).
  repeat split; auto. now apply (Hfree P a).
Qed.

(** C2. For a text in which none of the placeholders generated for it
    occurs, restoring right after protecting gives the text back. *)
Theorem restore_protect_round_trip (text : str)
    (Hfree : collision_free text = true) :
  let (protected_text, replacements) := protect_content text in
  restore_content protected_text replacements = text.
Proof.
  pose proof (restore_protect text) as H.
  destruct (protect_content text) as [protected_text replacements] eqn:E.
  cbn [fst snd] in H. apply H. clear H.
  unfold collision_free in Hfree. rewrite E in Hfree. cbn [snd] in Hfree.
  rewrite protect_content_rules in E. injection E as _ <-.
  intros P a Hin Hinf. rewrite forallb_forall in Hfree.
  apply Hfree in Hin. cbn [fst] in Hin. apply negb_true_iff in Hin.
  apply contains_infix in Hinf. congruence.
Qed.

(** A text without any token of the reserved forms is collision free. *)
Lemma reserved_free_collision_free text :
  (forall n, contains text (L "<TIME_" ++ of_nat n ++ L ">") = false /\
             contains text (L "<BTAG_" ++ of_nat n ++ L ">") = false /\
             contains text (L "<ETAG_" ++ of_nat n ++ L ">") = false) ->
  collision_free text = true.
Proof.
  intros H. unfold collision_free. rewrite protect_content_rules. cbn [snd].
  apply forallb_forall. intros [P a] Hin. cbn [fst]. apply negb_true_iff.
  unfold rules in Hin. apply in_app_or in Hin. destruct Hin as [Hin|Hin].
  - unfold time_rules in Hin. apply in_map_iff in Hin.
    destruct Hin as ([i tc] & E & _). injection E as <- _. apply H.
  - unfold tag_rules in Hin. apply in_map_iff in Hin.
    destruct Hin as ([i tag] & E & _). injection E as <- _. cbn [fst snd].
    unfold tag_placeholder. destruct (startswith _ _); apply H.
Qed.

Lemma restore_protect_round_trip_witness :
  let (protected_text, replacements) :=
    protect_content (L "Hello <i>world</i> at 00:00:01,000") in
  restore_content protected_text replacements = L "Hello <i>world</i> at 00:00:01,000".
Proof.
  apply (restore_protect_round_trip (L "Hello <i>world</i> at 00:00:01,000")).
  reflexivity.
Defined.

(** A text that already holds a generated placeholder does not come
    back. *)
Example restore_protect_collision :
  collision_free (L "<BTAG_1> <i>") = false /\
  restore_content (fst (protect_content (L "<BTAG_1> <i>")))
                  (snd (protect_content (L "<BTAG_1> <i>"))) = L "<i> <i>".
Proof. split; reflexivity. Qed.


(* ================================================================== *)
(** * Subtitle codec: what [parse_srt] returns *)
(* ================================================================== *)

(** ** More on [strip] *)

Lemma lstrip_suffix s : exists u, s = u ++ lstrip s.
Proof.
  induction s as [|c s [u IH]]; cbn.
  - now exists [].
  - destruct (isspace c).
    + exists (c :: u). cbn. now f_equal.
    + now exists [].
Qed.

Lemma lstrip_idem s : lstrip (lstrip s) = lstrip s.
Proof.
  induction s as [|c s IH]; cbn; [reflexivity|].
  destruct (isspace c) eqn:E; [exact IH|]. cbn. now rewrite E.
Qed.

Lemma lstrip_keep_last x c :
  isspace c = false -> exists u, lstrip (x ++ [c]) = u ++ [c].
Proof.
  intros Hc. induction x as [|d x [u IH]]; cbn.
  - rewrite Hc. now exists [].
  - destruct (isspace d); [now exists u|]. now exists (d :: x).
Qed.

Lemma strip_idem s : strip (strip s) = strip s.
Proof.
  unfold strip. set (a := lstrip s).
  assert (Ha : lstrip a = a) by apply lstrip_idem.
  assert (H1 : lstrip (rstrip a) = rstrip a).
  { unfold rstrip. destruct a as [|c a']; [reflexivity|].
    apply lstrip_head in Ha. cbn [rev].
    destruct (lstrip_keep_last (rev a') c Ha) as [u ->].
    rewrite rev_unit. cbn. now rewrite Ha. }
  rewrite H1. unfold rstrip. rewrite rev_involutive, lstrip_idem. reflexivity.
Qed.

Lemma strip_infix s : infix (strip s) s.
Proof.
  unfold strip, rstrip. destruct (lstrip_suffix s) as [u Hu].
  destruct (lstrip_suffix (rev (lstrip s))) as [v Hv].
  exists u, (rev v). rewrite Hu at 1. f_equal.
  rewrite <- (rev_involutive (lstrip s)) at 1. rewrite Hv at 1.
  now rewrite rev_app_distr.
Qed.

(** ** Inverting a match of [srt_pattern] *)

(** A lazy repetition returns at the first position its continuation
    accepts. *)
Lemma rep_lazy_inv {A : Type} p s :
  forall hi (k : str -> option A) v,
    rep false p 0 hi s k = Some v ->
    exists xs s', s = xs ++ s' /\ k s' = Some v /\
                  forall u w, xs = u ++ w -> w <> [] -> k (w ++ s') = None.
Proof.
  induction s as [|c s IH]; intros hi k v H; rewrite rep_eq in H; cbv zeta in H;
    cbn [Nat.eqb] in H.
  - destruct (k []) eqn:E; [|discriminate]. injection H as ->.
    exists [], []. repeat split; auto. intros [|] w H; [|discriminate].
    cbn in H. congruence.
  - destruct (k (c :: s)) eqn:E.
    + injection H as ->. exists [], (c :: s). repeat split; auto.
      intros [|] w H; [|discriminate]. cbn in H. congruence.
    + destruct (p c && room hi); [|discriminate]. cbn [pred] in H.
      apply IH in H. destruct H as (xs & s' & -> & Hk & Hnot).
      exists (c :: xs), s'. repeat split; auto.
      intros [|d u] w H Hw; cbn in H.
      * subst w. exact E.
      * injection H as _ H. now apply (Hnot u w).
Qed.

Lemma lits_inv {A : Type} x :
  forall s caps (k : str -> list str -> option A) v,
    rmatch (lits x) s caps k = Some v ->
    exists s', s = x ++ s' /\ k s' caps = Some v.
Proof.
  induction x as [|c x IH]; intros s caps k v H.
  - exists s. auto.
  - change (lits (c :: x)) with (Seq (chr c) (lits x)) in H.
    rewrite rmatch_Seq in H. apply chr_inv in H. destruct H as (s1 & -> & H).
    apply IH in H. destruct H as (s2 & -> & H). exists s2. auto.
Qed.

Lemma timecode_rinv {A : Type} s caps (k : str -> list str -> option A) v :
  rmatch timecode_pattern s caps k = Some v ->
  exists t s', s = t ++ s' /\ is_timecode t = true /\ k s' caps = Some v.
Proof.
  unfold timecode_pattern. cbn [seqs fold_right]. intros H.
  rewrite rmatch_Seq in H. apply exactly_inv in H.
  destruct H as (x1 & s1 & E1 & L1 & D1 & H).
  rewrite rmatch_Seq in H. apply chr_inv in H. destruct H as (s2 & E2 & H).
  rewrite rmatch_Seq in H. apply exactly_inv in H.
  destruct H as (x2 & s3 & E3 & L2 & D2 & H).
  rewrite rmatch_Seq in H. apply chr_inv in H. destruct H as (s4 & E4 & H).
  rewrite rmatch_Seq in H. apply exactly_inv in H.
  destruct H as (x3 & s5 & E5 & L3 & D3 & H).
  rewrite rmatch_Seq in H. apply chr_inv in H. destruct H as (s6 & E6 & H).
  rewrite rmatch_Seq in H. apply exactly_inv in H.
  destruct H as (x4 & s7 & E7 & L4 & D4 & H).
  rewrite rmatch_Eps in H.
  exists (x1 ++ ":"%char :: x2 ++ ":"%char :: x3 ++ ","%char :: x4), s7.
  split; [|split; [|exact H]].
  - subst s6 s5 s4 s3 s2 s1. rewrite E1. rewrite <- !app_assoc. cbn [app].
    rewrite <- !app_assoc. cbn [app]. rewrite <- !app_assoc. reflexivity.
  - destruct x1 as [|h1 [|h2 [|]]]; try discriminate.
    destruct x2 as [|m1 [|m2 [|]]]; try discriminate.
    destruct x3 as [|t1 [|t2 [|]]]; try discriminate.
    destruct x4 as [|f1 [|f2 [|f3 [|]]]]; try discriminate.
    cbn [forallb] in D1, D2, D3, D4. rewrite !andb_true_r in *.
    apply andb_true_iff in D1, D2, D3, D4.
    destruct D1 as [A1 A2], D2 as [A3 A4], D3 as [A5 A6], D4 as [A7 D4].
    apply andb_true_iff in D4. destruct D4 as [A8 A9].
    cbn [app is_timecode]. rewrite A1, A2, A3, A4, A5, A6, A7, A8, A9. reflexivity.
Qed.

Lemma is_timecode_length t : is_timecode t = true -> length t = 12.
Proof.
  intros H. apply is_timecode_inv in H.
  destruct H as (h1 & h2 & m1 & m2 & s1 & s2 & f1 & f2 & f3 & -> & _). reflexivity.
Qed.

Lemma is_timerange_intro t1 t2 :
  is_timecode t1 = true -> is_timecode t2 = true ->
  is_timerange (t1 ++ L " --> " ++ t2) = true.
Proof.
  intros H1 H2. pose proof (is_timecode_length _ H1) as Hl.
  unfold is_timerange.
  assert (E1 : firstn 12 (t1 ++ L " --> " ++ t2) = t1).
  { rewrite <- Hl. rewrite firstn_app, Nat.sub_diag, firstn_all. cbn. apply app_nil_r. }
  assert (E2 : skipn 12 (t1 ++ L " --> " ++ t2) = L " --> " ++ t2).
  { rewrite <- Hl. rewrite skipn_app, Nat.sub_diag, skipn_all. reflexivity. }
  assert (E3 : skipn 17 (t1 ++ L " --> " ++ t2) = t2).
  { change 17 with (5 + 12). rewrite <- skipn_skipn, E2. reflexivity. }
  rewrite E1, E2, E3, H1, H2. reflexivity.
Qed.

(** A match of [srt_pattern]: digits, a time range, and a text that
    ends at the first place where a blank line or the end follows. *)
Lemma srt_pattern_inv s m caps rest :
  match_here srt_pattern s = Some (m, caps, rest) ->
  exists index timecode text,
    caps = [index; timecode; text] /\
    m = index ++ nl :: timecode ++ nl :: text /\
    is_index index = true /\ is_timerange timecode = true /\
    lookahead_ok rest = true /\
    forall u w, text = u ++ w -> w <> [] -> lookahead_ok (w ++ rest) = false.
Proof.
  unfold match_here, srt_pattern. cbn [seqs fold_right]. unfold plus, lazy_star.
  intros H.
  rewrite rmatch_Seq, rmatch_Group, rmatch_Rep in H. apply rep_inv in H.
  destruct H as (index & s1 & E1 & Hdigits & Hlen & _ & H).
  rewrite rmatch_Seq in H. apply chr_inv in H. destruct H as (s2 & E2 & H).
  rewrite rmatch_Seq, rmatch_Group in H.
  rewrite rmatch_Seq in H. apply timecode_rinv in H.
  destruct H as (t1 & s3 & E3 & Ht1 & H).
  rewrite rmatch_Seq in H. apply lits_inv in H. destruct H as (s4 & E4 & H).
  rewrite rmatch_Seq in H. apply timecode_rinv in H.
  destruct H as (t2 & s5 & E5 & Ht2 & H).
  rewrite rmatch_Eps in H.
  rewrite rmatch_Seq in H. apply chr_inv in H. destruct H as (s6 & E6 & H).
  rewrite rmatch_Seq, rmatch_Group, rmatch_Rep in H. apply rep_lazy_inv in H.
  destruct H as (text & s7 & E7 & H & Hfirst).
  rewrite rmatch_Seq, lookahead_eq in H.
  destruct (lookahead_ok s7) eqn:Hstop; [|discriminate].
  rewrite rmatch_Eps in H. injection H as <- <- <-.
  assert (Hs2 : s2 = (t1 ++ L " --> " ++ t2) ++ nl :: text ++ s7).
  { rewrite E3, E4, E5, E6, E7. rewrite <- !app_assoc. reflexivity. }
  exists index, (t1 ++ L " --> " ++ t2), text.
  split; [|split; [|split; [|split; [|split]]]].
  - rewrite Hs2, E6, E7, E1. rewrite !firstn_app_exact. reflexivity.
  - assert (Hs : s = (index ++ nl :: (t1 ++ L " --> " ++ t2) ++ nl :: text) ++ s7).
    { rewrite E1, E2, Hs2. rewrite <- !app_assoc. cbn [app]. rewrite <- !app_assoc.
      reflexivity. }
    rewrite Hs. apply firstn_app_exact.
  - unfold is_index. destruct index; [cbn in Hlen; lia | exact Hdigits].
  - now apply is_timerange_intro.
  - exact Hstop.
  - intros u w Hsplit Hw. specialize (Hfirst u w Hsplit Hw).
    rewrite rmatch_Seq, lookahead_eq in Hfirst.
    destruct (lookahead_ok (w ++ s7)); [discriminate | reflexivity].
Qed.

Lemma lookahead_blank_app r rest : lookahead_ok ((nl :: nl :: r) ++ rest) = true.
Proof. reflexivity. Qed.

Lemma parse_srt_block_wf content b :
  In b (parse_srt content) -> well_formed_block b = true.
Proof.
  intros Hb. unfold parse_srt in Hb.
  apply in_map_iff in Hb. destruct Hb as ([m caps] & <- & Hin).
  apply finditer_sound in Hin. destruct Hin as (l & rest & _ & Hmatch).
  apply srt_pattern_inv in Hmatch.
  destruct Hmatch as (index & timecode & text & -> & _ & Hi & Ht & _ & Hfirst).
  unfold block_of_match. cbn [snd nth well_formed_block].
  rewrite Hi, Ht. cbn [andb]. unfold is_text.
  rewrite strip_idem, str_eqb_refl. cbn [andb]. apply negb_true_iff.
  destruct (contains (strip text) [nl; nl]) eqn:E; [|reflexivity].
  apply contains_infix in E.
  pose proof (infix_trans _ _ _ E (strip_infix text)) as (u & r & Hsplit).
  specialize (Hfirst u (nl :: nl :: r) Hsplit).
  rewrite lookahead_blank_app in Hfirst.
  assert (Hne : nl :: nl :: r <> []) by discriminate.
  apply Hfirst in Hne. discriminate.
Qed.

(** The scan of a serialized list of well-formed blocks finds one
    match per block. *)
Lemma finditer_srt_text blocks :
  forallb well_formed_block blocks = true ->
  finditer srt_pattern (srt_text blocks) = map block_match blocks.
Proof.
  unfold srt_text.
  induction blocks as [|[[index timecode] text] blocks IH]; cbn [forallb flat_map map].
  - intros _. reflexivity.
  - rewrite andb_true_iff. intros [Hb Hrest]. cbn [well_formed_block] in Hb.
    apply andb_true_iff in Hb. destruct Hb as [Hb Htext].
    apply andb_true_iff in Hb. destruct Hb as [Hindex Hrange].
    cbn [block_text block_match block_head]. rewrite <- !app_assoc. cbn [app].
    replace (index ++ nl :: timecode ++ nl :: text ++ nl :: nl :: flat_map block_text blocks)
      with ((index ++ nl :: timecode ++ nl :: text) ++ nl :: nl :: flat_map block_text blocks)
      by (rewrite <- !app_assoc; cbn [app]; rewrite <- !app_assoc; reflexivity).
    rewrite (finditer_hit srt_pattern _ [index; timecode; text]).
    + rewrite !finditer_miss by apply srt_pattern_newline. now rewrite (IH Hrest).
    + destruct index; [discriminate | cbn; congruence].
    + rewrite <- !app_assoc. cbn [app]. rewrite <- !app_assoc.
      now apply srt_pattern_block.
Qed.

Lemma block_of_match_wf b :
  well_formed_block b = true -> block_of_match (block_match b) = b.
Proof.
  destruct b as [[index timecode] text]. cbn [well_formed_block].
  rewrite !andb_true_iff. unfold is_text. rewrite andb_true_iff, str_eqb_eq.
  intros [_ [Hstrip _]]. unfold block_of_match, block_match. cbn [snd nth].
  now rewrite Hstrip.
Qed.

Lemma map_block_of_match blocks :
  forallb well_formed_block blocks = true ->
  map block_of_match (map block_match blocks) = blocks.
Proof.
  induction blocks as [|b blocks IH]; cbn [forallb map]; [reflexivity|].
  rewrite andb_true_iff. intros [Hb Hrest].
  now rewrite block_of_match_wf, IH.
Qed.

(** X1. Every block that [parse_srt] returns, on any input, has an
    index of digits, a well-formed time range, and a text that is
    stripped and holds no empty line. *)
Theorem parse_srt_well_formed (content : str) :
  forallb well_formed_block (parse_srt content) = true.
Proof.
  apply forallb_forall. intros b Hb. now apply (parse_srt_block_wf content).
Qed.

(** X2. Parsing what [save_srt] writes for well-formed blocks gives
    exactly these blocks back. *)
Theorem parse_srt_srt_text (blocks : list block)
    (Hwf : forallb well_formed_block blocks = true) :
  parse_srt (srt_text blocks) = blocks.
Proof.
  unfold parse_srt. rewrite finditer_srt_text by exact Hwf.
  now apply map_block_of_match.
Qed.

Lemma parse_srt_srt_text_witness :
  parse_srt (srt_text [(L "1", tr1, L "Hello <i>world</i>"); (L "2", tr2, L "Goodbye")])
  = [(L "1", tr1, L "Hello <i>world</i>"); (L "2", tr2, L "Goodbye")].
Proof.
  apply (parse_srt_srt_text [(L "1", tr1, L "Hello <i>world</i>"); (L "2", tr2, L "Goodbye")]).
  reflexivity.
Defined.

(** X3. On any input, parsing the serialization of the parse gives the
    same blocks again: a file written by [save_srt] is read back as
    it was written. *)
Theorem parse_srt_stable (content : str) :
  parse_srt (srt_text (parse_srt content)) = parse_srt content.
Proof.
  assert (Hwf : forallb well_formed_block (parse_srt content) = true).
  { apply forallb_forall. intros b Hb. now apply (parse_srt_block_wf content). }
  unfold parse_srt at 1. rewrite finditer_srt_text by exact Hwf.
  now apply map_block_of_match.
Qed.

(** X4. [parse_srt] takes its blocks from the input: index, time range
    and text of every block occur in the content. *)
Theorem parse_srt_occurs (content index timecode text : str)
    (Hin : In (index, timecode, text) (parse_srt content)) :
  infix index content /\ infix timecode content /\ infix text content.
Proof.
  unfold parse_srt in Hin. apply in_map_iff in Hin.
  destruct Hin as ([m caps] & Hb & Hin).
  apply finditer_sound in Hin. destruct Hin as (l & rest & -> & Hmatch).
  apply srt_pattern_inv in Hmatch.
  destruct Hmatch as (i & t & g & -> & -> & _). unfold block_of_match in Hb.
  cbn in Hb. injection Hb as <- <- <-.
  assert (Hm : forall x, infix x (i ++ nl :: t ++ nl :: g) ->
                         infix x (l ++ (i ++ nl :: t ++ nl :: g) ++ rest)).
  { intros x Hx. apply infix_app_l, infix_app_r, Hx. }
  split; [|split]; apply Hm.
  - exists [], (nl :: t ++ nl :: g). reflexivity.
  - exists (i ++ [nl]), (nl :: g). rewrite <- !app_assoc. reflexivity.
  - eapply infix_trans; [apply strip_infix|].
    exists (i ++ nl :: t ++ [nl]), []. rewrite app_nil_r, <- !app_assoc. cbn.
    rewrite <- !app_assoc. reflexivity.
Qed.

Lemma parse_srt_occurs_witness :
  infix (L "2") two_blocks /\ infix tr2 two_blocks /\ infix (L "Goodbye") two_blocks.
Proof.
  apply (parse_srt_occurs two_blocks (L "2") tr2 (L "Goodbye")).
  vm_compute. right. left. reflexivity.
Defined.

(* ================================================================== *)
(** * Placeholder protector: the dictionary *)
(* ================================================================== *)


Lemma rules_values text P a :
  In (P, a) (rules text) -> is_timecode a = true \/ tagged a.
Proof.
  unfold rules. intros H. apply in_app_or in H. destruct H as [H|H].
  - unfold time_rules in H. apply in_map_iff in H.
    destruct H as ([i tc] & H & Hin). cbn [fst snd] in H. injection H as _ <-.
    apply in_enumerate in Hin. unfold findall_whole in Hin. apply in_map_iff in Hin.
    destruct Hin as ([m caps] & Hm & Hin). cbn [fst] in Hm. subst m.
    apply finditer_sound in Hin. destruct Hin as (l & rest & _ & Hmatch).
    left. eapply timecode_inv; eauto.
  - unfold tag_rules in H. apply in_map_iff in H.
    destruct H as ([i tag] & H & Hin). cbn [fst snd] in H. injection H as _ <-.
    apply in_enumerate in Hin. unfold findall_group in Hin. apply in_map_iff in Hin.
    destruct Hin as ([m caps] & Hm & Hin). cbn [snd] in Hm.
    apply finditer_sound in Hin. destruct Hin as (l & rest & _ & Hmatch).
    apply tag_inv in Hmatch. destruct Hmatch as (g & -> & _ & Hg).
    cbn [nth] in Hm. subst tag. right. now exists g.
Qed.

(** X6. Every entry of the dictionary maps a placeholder of the form
    [<], word characters, [>] to a piece of the text: a time stamp
    [HH:MM:SS,mmm] or a tag from [<] to the next [>]. *)
Theorem protect_content_entries (text placeholder original : str)
    (Hin : In (placeholder, original) (snd (protect_content text))) :
  bracket placeholder /\ infix original text /\
  (is_timecode original = true \/ tagged original).
Proof.
  rewrite protect_content_rules in Hin. cbn [snd] in Hin.
  destruct (rules_shape text _ _ Hin) as (HP & _ & Ho).
  split; [exact HP|]. split; [exact Ho|]. now apply (rules_values text placeholder).
Qed.

Lemma protect_content_entries_witness :
  bracket (L "<ETAG_1>") /\ infix (L "</i>") (L "Hello <i>world</i>") /\
  (is_timecode (L "</i>") = true \/ tagged (L "</i>")).
Proof.
  apply (protect_content_entries (L "Hello <i>world</i>") (L "<ETAG_1>") (L "</i>")).
  vm_compute. right. left. reflexivity.
Defined.

Lemma is_timecode_colon m : is_timecode m = true -> In ":"%char m.
Proof.
  intros H. apply is_timecode_inv in H.
  destruct H as (h1 & h2 & m1 & m2 & s1 & s2 & f1 & f2 & f3 & -> & _). cbn. auto.
Qed.

Lemma in_infix (c : ascii) a s : In c a -> infix a s -> In c s.
Proof.
  intros Hc (l & r & ->). apply in_or_app. right. apply in_or_app. now left.
Qed.

Lemma finditer_none r s :
  (forall m caps, ~ In (m, caps) (finditer r s)) -> finditer r s = [].
Proof.
  destruct (finditer r s) as [|[m caps] l]; [reflexivity|].
  intros H. exfalso. apply (H m caps). now left.
Qed.

(** X7. A text without [:] and without [<] holds nothing to protect:
    it is returned as it is, with an empty dictionary. *)
Theorem protect_content_nothing (text : str)
    (Hcolon : ~ In ":"%char text) (Hlt : ~ In "<"%char text) :
  protect_content text = (text, []).
Proof.
  unfold protect_content, findall_whole, findall_group.
  rewrite (finditer_none timecode_pattern text).
  - rewrite (finditer_none tag_pattern text); [reflexivity|].
    intros m caps Hin. apply finditer_sound in Hin.
    destruct Hin as (l & rest & -> & Hmatch).
    apply tag_inv in Hmatch. destruct Hmatch as (g & _ & -> & _).
    apply Hlt. apply in_or_app. right. now left.
  - intros m caps Hin. apply finditer_sound in Hin.
    destruct Hin as (l & rest & -> & Hmatch).
    apply timecode_inv in Hmatch. apply is_timecode_colon in Hmatch.
    apply Hcolon. apply in_or_app. right. apply in_or_app. now left.
Qed.

Lemma protect_content_nothing_witness :
  protect_content (L "Goodbye, world") = (L "Goodbye, world", []).
Proof.
  apply (protect_content_nothing (L "Goodbye, world")).
  - vm_compute. intuition discriminate.
  - vm_compute. intuition discriminate.
Defined.

Lemma replace_from_absent old new s :
  ~ infix old s -> replace_from old new 0 s = s.
Proof.
  induction s as [|c s IH]; intros H; [reflexivity|].
  rewrite replace_from_miss.
  - f_equal. apply IH. intros Hin. apply H.
    change (c :: s) with ([c] ++ s). now apply infix_app_l.
  - destruct (startswith (c :: s) old) eqn:E; [|reflexivity].
    exfalso. apply H. apply startswith_prefix in E. destruct E as [r ->].
    exists [], r. reflexivity.
Qed.

(** X8. [restore_content] only substitutes placeholders that are
    there: a text in which no key of the dictionary occurs is returned
    unchanged, so what the model dropped is not put back. *)
Theorem restore_content_absent (text : str) (replacements : dict)
    (Hkeys : forall k v, In (k, v) replacements -> k <> [] /\ contains text k = false) :
  restore_content text replacements = text.
Proof.
  unfold restore_content.
  induction replacements as [|[k v] d IH]; cbn [fold_left fst snd]; [reflexivity|].
  destruct (Hkeys k v) as [Hne Habs]; [now left|].
  rewrite replace_nonempty by exact Hne. rewrite replace_from_absent.
  - apply IH. intros k' v' Hin. apply (Hkeys k' v'). now right.
  - intros Hin. apply contains_infix in Hin. congruence.
Qed.

Lemma restore_content_absent_witness :
  restore_content (L "HALLO WELT") [(L "<BTAG_0>", L "<i>"); (L "<ETAG_1>", L "</i>")]
  = L "HALLO WELT".
Proof.
  apply (restore_content_absent (L "HALLO WELT")
           [(L "<BTAG_0>", L "<i>"); (L "<ETAG_1>", L "</i>")]).
  intros k v [H|[H|[]]]; injection H as <- _; split; (discriminate || reflexivity).
Defined.

(** ** The tags [<i>] and [</i>] *)

Lemma tag_match g s :
  g <> [] -> ~ In gt g ->
  match_here tag_pattern ((lt :: g ++ [gt]) ++ s) = Some (lt :: g ++ [gt], [g], s).
Proof.
  intros Hg Hgt. unfold match_here, tag_pattern. cbn [seqs fold_right app].
  rewrite rmatch_Seq. unfold lt. rewrite chr_ok.
  rewrite rmatch_Seq, rmatch_Group. unfold plus. rewrite rmatch_Rep.
  rewrite <- app_assoc. cbn [app].
  erewrite (rep_greedy_max _ g (gt :: s)).
  - reflexivity.
  - apply forallb_forall. intros c Hc. apply negb_true_iff. apply Ascii.eqb_neq.
    intros ->. now apply Hgt.
  - reflexivity.
  - destruct g; [contradiction | cbn; lia].
  - rewrite (firstn_app_exact g (gt :: s)).
    rewrite rmatch_Seq. unfold gt. rewrite chr_ok. cbn [rmatch].
    replace ("<"%char :: g ++ ">"%char :: s) with (("<"%char :: g ++ [">"%char]) ++ s)
      by (cbn [app]; rewrite <- app_assoc; reflexivity).
    rewrite firstn_app_exact. reflexivity.
Qed.

Lemma tag_miss c s : c <> lt -> match_here tag_pattern (c :: s) = None.
Proof.
  intros Hc. unfold match_here, tag_pattern. cbn [seqs fold_right].
  rewrite rmatch_Seq. cbn [rmatch chr].
  destruct (Ascii.eqb "<" c) eqn:E; [|reflexivity].
  apply Ascii.eqb_eq in E. now subst c.
Qed.

Lemma finditer_tag_free a s :
  ~ In lt a -> finditer tag_pattern (a ++ s) = finditer tag_pattern s.
Proof.
  induction a as [|c a IH]; intros H; [reflexivity|]. cbn [app].
  rewrite finditer_miss.
  - apply IH. intros Hin. apply H. now right.
  - apply tag_miss. intros ->. apply H. now left.
Qed.

Lemma replace_from_free old0 old new a s :
  ~ In old0 a ->
  replace_from (old0 :: old) new 0 (a ++ s) = a ++ replace_from (old0 :: old) new 0 s.
Proof.
  induction a as [|c a IH]; intros H; [reflexivity|]. cbn [app].
  rewrite replace_from_miss.
  - f_equal. apply IH. intros Hin. apply H. now right.
  - cbn [startswith]. destruct (Ascii.eqb old0 c) eqn:E; [|reflexivity].
    apply Ascii.eqb_eq in E. subst c. exfalso. apply H. now left.
Qed.

Lemma replace_from_end old0 old new a :
  ~ In old0 a -> replace_from (old0 :: old) new 0 a = a.
Proof.
  intros H. rewrite <- (app_nil_r a) at 1. rewrite replace_from_free by exact H.
  now rewrite app_nil_r.
Qed.

Lemma italic_tags a b c :
  ~ In lt a -> ~ In lt b -> ~ In lt c ->
  findall_whole timecode_pattern (a ++ L "<i>" ++ b ++ L "</i>" ++ c) = [] ->
  protect_content (a ++ L "<i>" ++ b ++ L "</i>" ++ c) =
  (a ++ L "<BTAG_0>" ++ b ++ L "<ETAG_1>" ++ c,
   [(L "<BTAG_0>", L "<i>"); (L "<ETAG_1>", L "</i>")]).
Proof.
  intros Ha Hb Hc Htime.
  unfold protect_content. rewrite Htime. unfold findall_group.
  rewrite finditer_tag_free by exact Ha.
  change (L "<i>") with (lt :: L "i" ++ [gt]).
  rewrite (finditer_hit tag_pattern (lt :: L "i" ++ [gt]) [L "i"]).
  2:{ discriminate. }
  2:{ apply tag_match; [discriminate|]. vm_compute. intuition discriminate. }
  rewrite finditer_tag_free by exact Hb.
  change (L "</i>") with (lt :: L "/i" ++ [gt]).
  rewrite (finditer_hit tag_pattern (lt :: L "/i" ++ [gt]) [L "/i"]).
  2:{ discriminate. }
  2:{ apply tag_match; [discriminate|]. vm_compute. intuition discriminate. }
  rewrite <- (app_nil_r c) at 1. rewrite finditer_tag_free by exact Hc.
  rewrite finditer_nil by reflexivity.
  cbn [map fst snd nth enumerate length seq combine fold_left protect_time protect_tag].
  change (L "<" ++ L "i" ++ L ">") with (lt :: L "i>").
  change (L "<" ++ L "/i" ++ L ">") with (lt :: L "/i>").
  change (lt :: L "i" ++ [gt]) with (lt :: L "i>").
  change (lt :: L "/i" ++ [gt]) with (lt :: L "/i>").
  change (tag_placeholder 0 (lt :: L "i>")) with (L "<BTAG_0>").
  change (tag_placeholder 1 (lt :: L "/i>")) with (L "<ETAG_1>").
  cbn [dict_set]. f_equal.
  rewrite !replace_nonempty by discriminate.
  (* the first substitution *)
  rewrite (replace_from_free lt (L "i>") _ a) by exact Ha.
  rewrite (replace_from_hit (lt :: L "i>")) by discriminate.
  rewrite (replace_from_free lt (L "i>") _ b) by exact Hb.
  cbn [app].
  rewrite (replace_from_miss (lt :: L "i>")) by reflexivity.
  rewrite (replace_from_end lt (L "i>") _ (L "/i>" ++ c)).
  2:{ rewrite in_app_iff. intros [H|H]; [vm_compute in H; intuition discriminate | now apply Hc]. }
  (* the second one *)
  rewrite (replace_from_free lt (L "/i>") _ a) by exact Ha.
  change (L "<BTAG_0>") with (lt :: L "BTAG_0>"). cbn [app].
  rewrite (replace_from_miss (lt :: L "/i>")) by reflexivity.
  rewrite (replace_from_free lt (L "/i>") _ (L "BTAG_0>")).
  2:{ vm_compute. intuition discriminate. }
  rewrite (replace_from_free lt (L "/i>") _ b) by exact Hb.
  change (lt :: L "/i>" ++ c) with ((lt :: L "/i>") ++ c).
  rewrite (replace_from_hit (lt :: L "/i>")) by discriminate.
  rewrite (replace_from_end lt (L "/i>")) by exact Hc.
  reflexivity.
Qed.

Lemma length_enumerate {A : Type} (l : list A) : length (enumerate l) = length l.
Proof. unfold enumerate. rewrite length_combine, length_seq. lia. Qed.

(** C8 (amended). The placeholders depend on the text alone and are
    numbered by position, from 0 in every call.  The dictionary maps
    [<TIME_i>] to the i-th time stamp found in the text, and to the
    j-th tag found, opening or closing, it maps [<ETAG_j>] if the tag
    starts with [</] and [<BTAG_j>] otherwise.  The protected text is
    the text in which, entry by entry in this order, every occurrence
    of the original is replaced by the placeholder.  So for [<i>]
    followed by [</i>], with no other tag and no time stamp, the text
    carries [<BTAG_0>] and [<ETAG_1>]. *)
Theorem protect_content_numbering (text : str) :
  let entries :=
    map (fun it => (L "<TIME_" ++ of_nat (fst it) ++ L ">", snd it))
        (enumerate (findall_whole timecode_pattern text))
    ++ map (fun it =>
              ((if startswith (L "<" ++ snd it ++ L ">") (L "</")
                then L "<ETAG_" else L "<BTAG_") ++ of_nat (fst it) ++ L ">",
               L "<" ++ snd it ++ L ">"))
           (enumerate (findall_group tag_pattern text)) in
  snd (protect_content text) = entries /\
  fst (protect_content text) =
    fold_left (fun s kv => replace s (snd kv) (fst kv)) entries text /\
  (forall a b c,
     text = a ++ L "<i>" ++ b ++ L "</i>" ++ c ->
     ~ In "<"%char (a ++ b ++ c) ->
     findall_whole timecode_pattern text = [] ->
     protect_content text =
       (a ++ L "<BTAG_0>" ++ b ++ L "<ETAG_1>" ++ c,
        [(L "<BTAG_0>", L "<i>"); (L "<ETAG_1>", L "</i>")])).
Proof.
  cbv zeta.
  assert (E : rules text =
    map (fun it => (L "<TIME_" ++ of_nat (fst it) ++ L ">", snd it))
        (enumerate (findall_whole timecode_pattern text))
    ++ map (fun it =>
              ((if startswith (L "<" ++ snd it ++ L ">") (L "</")
                then L "<ETAG_" else L "<BTAG_") ++ of_nat (fst it) ++ L ">",
               L "<" ++ snd it ++ L ">"))
           (enumerate (findall_group tag_pattern text))).
  { unfold rules, time_rules, tag_rules. f_equal. apply map_ext. intros [i tag].
    cbn [fst snd]. unfold tag_placeholder, full_tag. destruct (startswith _ _); reflexivity. }
  rewrite <- E, protect_content_rules. cbn [fst snd].
  split; [reflexivity|]. split; [reflexivity|].
  intros a b c -> Hlt Htime. rewrite <- protect_content_rules.
  apply italic_tags; auto; intros H; apply Hlt; rewrite !in_app_iff; auto.
Qed.

(** C8 (as stated, refuted). In [<i>x</i>] the closing tag is the
    second tag and gets number 1: there is no [<ETAG_0>]. *)
Lemma closing_tag_shares_counter :
  protect_content (L "<i>x</i>") =
    (L "<BTAG_0>x<ETAG_1>", [(L "<BTAG_0>", L "<i>"); (L "<ETAG_1>", L "</i>")]) /\
  ~ In (L "<ETAG_0>") (map fst (snd (protect_content (L "<i>x</i>")))).
Proof.
  split; [reflexivity|]. vm_compute. intros [H|[H|[]]]; discriminate.
Qed.

(** What the order of the substitutions means for a tag that occurs
    twice and for a tag that holds a time stamp: the second [<i>]
    carries the number of the first, the numbers 2 and 3 are in the
    dictionary only, and the tag with the stamp is not replaced. *)
Example repeated_and_nested :
  protect_content (L "<i>a</i> <i>b</i>") =
    (L "<BTAG_0>a<ETAG_1> <BTAG_0>b<ETAG_1>",
     [(L "<BTAG_0>", L "<i>"); (L "<ETAG_1>", L "</i>");
      (L "<BTAG_2>", L "<i>"); (L "<ETAG_3>", L "</i>")]) /\
  protect_content (L "<t 00:00:01,000>") =
    (L "<t <TIME_0>>",
     [(L "<TIME_0>", L "00:00:01,000"); (L "<BTAG_0>", L "<t 00:00:01,000>")]).
Proof. split; reflexivity. Qed.

(** X5. No two matches share a placeholder: the dictionary that
    [protect_content] returns has one entry for every time stamp and
    every tag found in the text, under keys that are pairwise
    different. *)
Theorem protect_content_keys_unique (text : str) :
  NoDup (map fst (snd (protect_content text))) /\
  length (snd (protect_content text)) =
    length (findall_whole timecode_pattern text)
    + length (findall_group tag_pattern text).
Proof.
  rewrite protect_content_rules. cbn [snd]. split; [apply rules_nodup|].
  unfold rules, time_rules, tag_rules.
  now rewrite length_app, !length_map, !length_enumerate.
Qed.

(* ================================================================== *)
(** * Translation client: success and bounds *)
(* ================================================================== *)

Section ClientMore.

Variable env : Env.
Variable job : Job.

Lemma translate_attempts_success system_prompt text body reply :
  forall j attempt todo st,
    attempt + j <= RETRY_COUNT -> j < todo ->
    (forall i, i < j -> succeeded (net env (i + posts st) system_prompt text) = false) ->
    net env (j + posts st) system_prompt text = Resp 200 body (inl reply) ->
    exists lines,
      length lines = j /\
      translate_attempts env job system_prompt text attempt todo st =
      (Val (Some reply),
       logged st (S j)
         (failed_rounds (Post (base_url job) (model job) system_prompt text) lines
          ++ [Post (base_url job) (model job) system_prompt text])).
Proof.
  induction j as [|j IH]; intros attempt todo st Hbudget Htodo Hfail Hok.
  - destruct todo as [|todo]; [lia|]. exists []. split; [reflexivity|].
    cbn [translate_attempts]. unfold bind at 1, post at 1. cbv beta iota.
    cbn [Nat.add] in Hok. rewrite Hok. reflexivity.
  - destruct todo as [|todo]; [lia|].
    destruct (failed_attempt env job system_prompt text attempt todo st) as [line E].
    { apply (Hfail 0). lia. }
    rewrite E. clear E.
    assert (Hlt : (attempt <? RETRY_COUNT) = true) by (apply Nat.ltb_lt; lia).
    rewrite Hlt.
    match goal with |- context [translate_attempts _ _ _ _ _ _ ?s] => set (st1 := s) end.
    destruct (IH (S attempt) todo st1) as (lines & Hlen & E).
    { lia. }
    { lia. }
    { intros i Hi. unfold st1, logged. cbn [posts].
      replace (i + (1 + posts st)) with (S i + posts st) by lia. apply Hfail. lia. }
    { unfold st1, logged. cbn [posts].
      replace (j + (1 + posts st)) with (S j + posts st) by lia. exact Hok. }
    exists (line :: lines). split; [cbn; lia|].
    rewrite E. unfold st1. rewrite logged_logged.
    replace (S j + 1) with (S (S j)) by lia. reflexivity.
Qed.

(** X9. If the first [j <= 2] attempts fail and the next one answers
    200 with a reply, [translate_text] returns that reply after
    [j + 1] network calls, one log line and one 5-second sleep per
    failure, and nothing after the successful call. *)
Theorem translate_text_first_success (system_prompt text body reply : str)
    (j : nat) (st : St)
    (Hj : j <= RETRY_COUNT)
    (Hfail : forall i, i < j ->
                       succeeded (net env (i + posts st) system_prompt text) = false)
    (Hok : net env (j + posts st) system_prompt text = Resp 200 body (inl reply)) :
  exists lines,
    length lines = j /\
    translate_text env job system_prompt text st =
    (Val (Some reply),
     {| fs := fs st; posts := S j + posts st; polls := polls st;
        trace := trace st
                 ++ failed_rounds (Post (base_url job) (model job) system_prompt text) lines
                 ++ [Post (base_url job) (model job) system_prompt text] |}).
Proof.
  unfold translate_text.
  destruct (translate_attempts_success system_prompt text body reply j 0
              (RETRY_COUNT + 1) st) as (lines & Hlen & E); auto.
  - unfold RETRY_COUNT in *. lia.
  - exists lines. split; [exact Hlen | exact E].
Qed.

(** Counting the calls and the sleeps of the retry loop. *)
Lemma translate_attempts_bounds system_prompt text todo :
  forall attempt st,
  exists r k evs,
    translate_attempts env job system_prompt text attempt todo st
      = (Val r, logged st k evs) /\
    k <= todo /\ (0 < todo -> 1 <= k) /\
    length (filter is_post evs) = k /\
    length (filter is_sleep evs) <= RETRY_COUNT - attempt /\
    Forall (fun e => is_sleep e = true -> e = Sleep RETRY_DELAY) evs.
Proof.
  induction todo as [|todo IH]; intros attempt st.
  - exists None, 0, []. cbn. unfold ret, logged. rewrite app_nil_r.
    destruct st; cbn. repeat split; auto; lia.
  - cbn [translate_attempts]. unfold bind at 1, post at 1. cbv beta iota.
    set (r0 := net env (posts st) system_prompt text).
    set (call := Post (base_url job) (model job) system_prompt text).
    change {| fs := fs st; posts := S (posts st); polls := polls st;
              trace := trace st ++ [call] |} with (logged st 1 [call]).
    destruct (attempt_outcome attempt r0) as [reply|line].
    + exists (Some reply), 1, [call]. unfold ret. cbn.
      repeat split; auto; try lia. repeat constructor. discriminate.
    + destruct (IH (S attempt)
                  (logged st 1 ([call; Log line]
                     ++ if attempt <? RETRY_COUNT then [Sleep RETRY_DELAY] else [])))
        as (r & k & evs & E & Hk & _ & Hposts & Hsleeps & Hfive).
      exists r, (k + 1), (([call; Log line]
                     ++ if attempt <? RETRY_COUNT then [Sleep RETRY_DELAY] else []) ++ evs).
      split; [|split; [|split; [|split; [|split]]]].
      * rewrite <- logged_logged, <- E.
        unfold bind, emit, sleep, emit, ret, logged.
        destruct (attempt <? RETRY_COUNT); cbn [fst snd fs posts polls trace];
          rewrite <- ?app_assoc; reflexivity.
      * lia.
      * lia.
      * rewrite filter_app, length_app, Hposts.
        destruct (attempt <? RETRY_COUNT); cbn; lia.
      * rewrite filter_app, length_app.
        destruct (Nat.ltb_spec attempt RETRY_COUNT); subst call;
          cbn [filter is_sleep length app Nat.add]; lia.
      * apply Forall_app. split; [|exact Hfive].
        destruct (attempt <? RETRY_COUNT); repeat constructor; discriminate.
Qed.

(** X10. Whatever the endpoint answers, [translate_text] returns
    without raising after at least one and at most three network
    calls and at most two sleeps, each of 5 seconds; it does not touch
    the files or the flag. *)
Theorem translate_text_bounded (system_prompt text : str) (st : St) :
  exists r k evs,
    translate_text env job system_prompt text st =
      (Val r, {| fs := fs st; posts := k + posts st; polls := polls st;
                 trace := trace st ++ evs |}) /\
    1 <= k <= 3 /\
    length (filter is_post evs) = k /\
    length (filter is_sleep evs) <= 2 /\
    Forall (fun e => is_sleep e = true -> e = Sleep 5) evs.
Proof.
  destruct (translate_attempts_bounds system_prompt text (RETRY_COUNT + 1) 0 st)
    as (r & k & evs & E & Hk & Hk1 & Hposts & Hsleeps & Hfive).
  exists r, k, evs. unfold RETRY_COUNT in *. cbn in Hk, Hk1, Hsleeps.
  split; [exact E|]. split; [lia|]. split; [exact Hposts|]. split; [lia | exact Hfive].
Qed.

End ClientMore.


Lemma translate_text_first_success_witness :
  exists lines,
    length lines = 2 /\
    translate_text flaky demo_job (L "sys") (L "Hello") (init_st []) =
    (Val (Some (L "Hallo")),
     {| fs := []; posts := 3; polls := 0;
        trace := [] ++ failed_rounds (Post (base_url demo_job) (model demo_job)
                                           (L "sys") (L "Hello")) lines
                    ++ [Post (base_url demo_job) (model demo_job) (L "sys") (L "Hello")] |}).
Proof.
  apply (translate_text_first_success flaky demo_job (L "sys") (L "Hello") []
           (L "Hallo") 2 (init_st [])).
  - unfold RETRY_COUNT. lia.
  - intros i Hi. destruct i as [|[|i]]; [reflexivity | reflexivity | lia].
  - reflexivity.
Defined.

(* ================================================================== *)
(** * Target path *)
(* ================================================================== *)

(** ** [pathlib] *)

Lemma rfind_none c s : ~ In c s -> rfind c s = None.
Proof.
  induction s as [|a s IH]; intros H; [reflexivity|]. cbn [rfind].
  rewrite IH by (intros Hin; apply H; now right).
  destruct (Ascii.eqb_spec a c) as [->|]; [|reflexivity].
  exfalso. apply H. now left.
Qed.

Lemma rfind_last c a b : ~ In c b -> rfind c (a ++ c :: b) = Some (length a).
Proof.
  intros H. induction a as [|x a IH]; cbn [app rfind length].
  - rewrite (rfind_none c b H). now rewrite Ascii.eqb_refl.
  - now rewrite IH.
Qed.

Lemma rfind_split c s i :
  rfind c s = Some i ->
  s = firstn i s ++ c :: skipn (S i) s /\ ~ In c (skipn (S i) s).
Proof.
  revert i. induction s as [|a s IH]; intros i H; [discriminate|].
  cbn [rfind] in H. destruct (rfind c s) as [j|] eqn:E.
  - injection H as <-. destruct (IH j eq_refl) as [Hs Hn]. cbn [firstn skipn app].
    split; [now f_equal | exact Hn].
  - destruct (Ascii.eqb_spec a c) as [->|]; [|discriminate]. injection H as <-.
    cbn. split; [reflexivity|]. intros Hin.
    induction s as [|b s IHs]; [contradiction|]. cbn [rfind] in E.
    destruct (rfind c s); [discriminate|].
    destruct (Ascii.eqb_spec b c) as [->|Hne]; [discriminate|].
    destruct Hin as [->|Hin]; [congruence|]. now apply IHs.
Qed.

Lemma path_of_prefix prefix name child :
  dir_prefix prefix -> ~ In Path.slash name ->
  Path.name (prefix ++ name) = name /\
  Path.join (Path.parent (prefix ++ name)) child = prefix ++ child.
Proof.
  intros [->|[->|(d & -> & Hd & Hdot & Hroot)]] Hname; unfold Path.name, Path.parent.
  - cbn [app]. rewrite (rfind_none _ _ Hname). split; [reflexivity|].
    unfold Path.join. now rewrite str_eqb_refl.
  - change ([Path.slash] ++ name) with ([] ++ Path.slash :: name).
    rewrite (rfind_last _ [] _ Hname). cbn [length skipn app]. split; [reflexivity|].
    reflexivity.
  - rewrite <- app_assoc. cbn [app]. rewrite (rfind_last _ d _ Hname).
    split.
    + change (S (length d)) with (1 + length d). rewrite <- skipn_skipn.
      rewrite skipn_app, skipn_all, Nat.sub_diag. reflexivity.
    + destruct (length d) eqn:El; [destruct d; [congruence | discriminate]|].
      rewrite <- El. rewrite firstn_app, firstn_all, Nat.sub_diag. cbn [firstn].
      rewrite app_nil_r. unfold Path.join.
      apply str_eqb_neq in Hdot, Hroot. rewrite Hdot, Hroot, <- app_assoc. reflexivity.
Qed.

Lemma stem_suffix base ext :
  base <> [] -> ext <> [] -> ~ In Path.dot ext ->
  Path.suffix_at (base ++ Path.dot :: ext) = Some (length base).
Proof.
  intros Hb He Hdot. unfold Path.suffix_at. rewrite (rfind_last _ _ _ Hdot).
  rewrite length_app. cbn [length].
  assert (H1 : (0 <? length base) = true).
  { apply Nat.ltb_lt. destruct base; [congruence | cbn; lia]. }
  assert (H2 : (length base <? length base + S (length ext) - 1) = true).
  { apply Nat.ltb_lt. destruct ext; [congruence | cbn; lia]. }
  now rewrite H1, H2.
Qed.

(** The target of a file [prefix ++ base.ext]. *)
Lemma target_path_split job prefix base ext :
  dir_prefix prefix -> base <> [] -> ~ In Path.slash base ->
  ext <> [] -> ~ In Path.dot ext -> ~ In Path.slash ext ->
  get_target_path job (prefix ++ base ++ Path.dot :: ext) =
  prefix ++ sub lang_suffix_pattern [] base ++ Path.dot :: target_lang job
         ++ Path.dot :: ext.
Proof.
  intros Hp Hb Hbs He Hed Hes.
  assert (Hname : ~ In Path.slash (base ++ Path.dot :: ext)).
  { intros Hin. apply in_app_or in Hin. destruct Hin as [Hin|[Hin|Hin]]; auto.
    discriminate. }
  unfold get_target_path, Path.stem, Path.suffix.
  destruct (path_of_prefix prefix (base ++ Path.dot :: ext)
              (sub lang_suffix_pattern [] base ++ Path.dot :: target_lang job
                 ++ Path.dot :: ext) Hp Hname) as [Hn Hj].
  rewrite Hn. rewrite (stem_suffix base ext Hb He Hed).
  rewrite firstn_app, firstn_all, Nat.sub_diag. cbn [firstn]. rewrite app_nil_r.
  rewrite skipn_app, skipn_all, Nat.sub_diag. cbn [skipn app].
  rewrite <- Hj. reflexivity.
Qed.

(** ** [re.sub] *)

Lemma sub_from_skip r repl s :
  forall k, k <= length s -> sub_from r repl k s = sub_from r repl 0 (skipn k s).
Proof.
  induction s as [|c s IH]; intros [|k] Hk; cbn [sub_from skipn]; auto.
  - cbn in Hk. lia.
  - apply IH. cbn in Hk. lia.
Qed.

Lemma sub_hit r repl m caps s :
  m <> [] -> match_here r (m ++ s) = Some (m, caps, s) ->
  sub r repl (m ++ s) = repl ++ sub r repl s.
Proof.
  intros Hm H. unfold sub. destruct m as [|c m]; [congruence|].
  cbn [app sub_from]. change (c :: m ++ s) with ((c :: m) ++ s). rewrite H.
  f_equal. cbn [length]. replace (S (length m) - 1) with (length m) by lia.
  rewrite sub_from_skip by (rewrite length_app; lia).
  rewrite skipn_app, skipn_all, Nat.sub_diag. reflexivity.
Qed.

Lemma sub_miss r repl c s :
  match_here r (c :: s) = None -> sub r repl (c :: s) = c :: sub r repl s.
Proof. intros H. unfold sub. cbn [sub_from]. now rewrite H. Qed.

Lemma sub_nil r repl : match_here r [] = None -> sub r repl [] = [].
Proof. intros H. unfold sub. cbn [sub_from]. now rewrite H. Qed.

(** Deleting matches only deletes. *)
Lemma sub_from_incl r s :
  forall k c, In c (sub_from r [] k s) -> In c s.
Proof.
  induction s as [|a s IH]; intros k c H; cbn [sub_from] in H.
  - destruct k; [|contradiction]. destruct (match_here r []); contradiction.
  - destruct k as [|k].
    + destruct (match_here r (a :: s)) as [[[m caps] rest]|].
      * destruct m; cbn [app] in H.
        -- destruct H as [->|H]; [now left | right; eauto].
        -- right. eauto.
      * destruct H as [->|H]; [now left | right; eauto].
    + right. eauto.
Qed.

(** ** [lang_suffix_pattern] *)

Lemma opt_inv {A : Type} r s caps (k : str -> list str -> option A) v :
  rmatch (Opt r) s caps k = Some v ->
  rmatch r s caps k = Some v \/ k s caps = Some v.
Proof.
  cbn [rmatch]. destruct (rmatch r s caps k); intros H; [left | right]; exact H.
Qed.

Lemma eos_inv {A : Type} s caps (k : str -> list str -> option A) v :
  rmatch Eos s caps k = Some v -> at_end s = true /\ k s caps = Some v.
Proof. cbn [rmatch]. destruct (at_end s); [auto | discriminate]. Qed.

Lemma letter_not c x : letter c = false -> forallb letter x = true -> ~ In c x.
Proof.
  intros Hc Hx Hin. rewrite forallb_forall in Hx. apply Hx in Hin. congruence.
Qed.

(** A match of the pattern starts with its only dot and reaches the
    end of the stem. *)
Lemma lang_suffix_inv s m caps rest :
  match_here lang_suffix_pattern s = Some (m, caps, rest) ->
  exists m', m = Path.dot :: m' /\ ~ In Path.dot m' /\ at_end rest = true /\
             s = m ++ rest.
Proof.
  intros H. pose proof (match_here_split _ _ _ _ _ H) as Hs.
  unfold match_here, lang_suffix_pattern in H. cbn [seqs fold_right] in H.
  rewrite rmatch_Seq in H. apply chr_inv in H. destruct H as (s1 & E1 & H).
  rewrite rmatch_Seq, rmatch_Rep in H. apply rep_inv in H.
  destruct H as (l1 & s2 & E2 & Hl1 & _ & _ & H).
  rewrite rmatch_Seq in H. apply opt_inv in H. destruct H as [H|H].
  - rewrite rmatch_Group, rmatch_Seq in H. apply chr_inv in H.
    destruct H as (s3 & E3 & H).
    rewrite rmatch_Seq, rmatch_Rep in H. apply rep_inv in H.
    destruct H as (l2 & s4 & E4 & Hl2 & _ & _ & H).
    rewrite rmatch_Eps, rmatch_Seq in H. apply eos_inv in H. destruct H as [Hend H].
    rewrite rmatch_Eps in H. injection H as Hm _ Hr. subst rest.
    exists (l1 ++ "-"%char :: l2).
    assert (Hsplit : s = (Path.dot :: l1 ++ "-"%char :: l2) ++ s4).
    { rewrite E1, E2, E3, E4. cbn [app]. rewrite <- !app_assoc. reflexivity. }
    split; [|split; [|split]]; auto.
    + rewrite <- Hm. rewrite Hsplit at 1 2. now rewrite firstn_app_exact.
    + intros Hin. apply in_app_or in Hin. destruct Hin as [Hin|[Hin|Hin]].
      * revert Hin. now apply letter_not.
      * discriminate.
      * revert Hin. now apply letter_not.
  - rewrite rmatch_Seq in H. apply eos_inv in H. destruct H as [Hend H].
    rewrite rmatch_Eps in H. injection H as Hm _ Hr. subst rest.
    exists l1.
    assert (Hsplit : s = (Path.dot :: l1) ++ s2).
    { rewrite E1, E2. reflexivity. }
    split; [|split; [|split]]; auto.
    + rewrite <- Hm. rewrite Hsplit at 1 2. now rewrite firstn_app_exact.
    + now apply letter_not.
Qed.

(** Where a dot follows later in the stem, the pattern does not match. *)
Lemma lang_suffix_not_before_dot w x :
  w <> [] -> match_here lang_suffix_pattern (w ++ Path.dot :: x) = None.
Proof.
  intros Hw. destruct (match_here lang_suffix_pattern (w ++ Path.dot :: x))
    as [[[m caps] rest]|] eqn:E; [|reflexivity].
  exfalso. apply lang_suffix_inv in E. destruct E as (m' & -> & Hdot & Hend & Hs).
  destruct w as [|c w]; [congruence|]. cbn [app] in Hs. injection Hs as _ Hs.
  assert (Hin : In Path.dot (m' ++ rest)).
  { rewrite <- Hs. apply in_or_app. right. now left. }
  apply in_app_or in Hin. destruct Hin as [Hin|Hin]; [contradiction|].
  destruct rest as [|a [|b rest]]; cbn in Hend; try discriminate; [contradiction|].
  destruct Hin as [->|[]]. discriminate.
Qed.

Lemma lang_suffix_not_letter c s :
  c <> Path.dot -> match_here lang_suffix_pattern (c :: s) = None.
Proof.
  intros Hc. destruct (match_here lang_suffix_pattern (c :: s))
    as [[[m caps] rest]|] eqn:E; [|reflexivity].
  exfalso. apply lang_suffix_inv in E. destruct E as (m' & -> & _ & _ & Hs).
  cbn in Hs. now injection Hs.
Qed.

(** Greedy repetition with an upper bound, over a maximal run. *)
Lemma rep_greedy_bounded {A : Type} p xs s (k : str -> option A) v :
  forall lo hi,
    forallb p xs = true ->
    match s with c :: _ => p c = false | [] => True end ->
    lo <= length xs -> length xs <= hi ->
    k s = Some v ->
    rep true p lo (Some hi) (xs ++ s) k = Some v.
Proof.
  induction xs as [|x xs IH]; intros lo hi Hall Hstop Hlo Hhi Hk; rewrite rep_eq; cbv zeta.
  - cbn in Hlo. assert (lo = 0) as -> by lia. cbn [app Nat.eqb]. rewrite Hk.
    destruct s as [|c s]; [reflexivity|]. rewrite Hstop. reflexivity.
  - cbn [forallb] in Hall. apply andb_true_iff in Hall. destruct Hall as [Hx Hall].
    cbn [length] in Hlo, Hhi. destruct hi as [|hi]; [lia|].
    cbn [app room Nat.eqb negb]. rewrite Hx. cbn [andb less option_map pred].
    rewrite (IH (pred lo) hi); auto; lia.
Qed.

Lemma letters23_inv x :
  letters23 x = true -> forallb letter x = true /\ 2 <= length x <= 3.
Proof.
  unfold letters23. rewrite !andb_true_iff, !Nat.leb_le. tauto.
Qed.

Lemma is_lang_code_inv code :
  is_lang_code code = true ->
  (letters23 code = true) \/
  (exists l1 l2, code = l1 ++ "-"%char :: l2 /\ letters23 l1 = true /\ letters23 l2 = true).
Proof.
  unfold is_lang_code. destruct (rfind "-" code) as [i|] eqn:E; [|now left].
  rewrite andb_true_iff. intros [H1 H2]. right.
  exists (firstn i code), (skipn (S i) code). split; [|auto].
  now apply rfind_split in E.
Qed.

(** The pattern matches a dot followed by a code, up to the end. *)
Lemma lang_suffix_code code :
  is_lang_code code = true ->
  exists caps,
    match_here lang_suffix_pattern ((Path.dot :: code) ++ []) =
    Some (Path.dot :: code, caps, []).
Proof.
  intros H. apply is_lang_code_inv in H. unfold match_here, lang_suffix_pattern.
  cbn [seqs fold_right app]. rewrite rmatch_Seq.
  rewrite chr_ok. rewrite rmatch_Seq, rmatch_Rep.
  assert (Hall : forall x : str, firstn (length (x ++ []) - length (@nil ascii)) (x ++ []) = x).
  { intros x. apply (firstn_app_exact x []). }
  destruct H as [H|(l1 & l2 & -> & H1 & H2)].
  - apply letters23_inv in H. destruct H as [Hl Hlen].
    eexists.
    apply rep_greedy_bounded; [exact Hl | exact I | lia | lia |].
    cbn [rmatch chr seqs fold_right at_end].
    change (Path.dot :: code ++ []) with ((Path.dot :: code) ++ []).
    rewrite Hall. reflexivity.
  - apply letters23_inv in H1, H2. destruct H1 as [Hl1 Hlen1], H2 as [Hl2 Hlen2].
    eexists. rewrite <- app_assoc. cbn [app].
    apply rep_greedy_bounded; [exact Hl1 | reflexivity | lia | lia |].
    rewrite rmatch_Seq. cbn [rmatch seqs fold_right]. rewrite chr_ok.
    erewrite (rep_greedy_bounded letter l2 [] _ _ 2 3 Hl2 I); [reflexivity | lia | lia |].
    cbn [rmatch at_end].
    replace (Path.dot :: l1 ++ "-"%char :: l2 ++ [])
      with ((Path.dot :: l1 ++ "-"%char :: l2) ++ [])
      by (cbn [app]; rewrite <- app_assoc; reflexivity).
    rewrite Hall. reflexivity.
Qed.

Lemma sub_strip_code b0 code :
  is_lang_code code = true ->
  sub lang_suffix_pattern [] (b0 ++ Path.dot :: code) = b0.
Proof.
  intros H. induction b0 as [|c b0 IH].
  - destruct (lang_suffix_code code H) as [caps E]. cbn [app].
    rewrite <- (app_nil_r (Path.dot :: code)).
    rewrite (sub_hit _ _ _ caps); [|discriminate | exact E].
    cbn [app]. now apply sub_nil.
  - cbn [app]. rewrite sub_miss; [now rewrite IH|].
    change (c :: b0 ++ Path.dot :: code) with ((c :: b0) ++ Path.dot :: code).
    now apply lang_suffix_not_before_dot.
Qed.

Lemma sub_no_dot base :
  ~ In Path.dot base -> sub lang_suffix_pattern [] base = base.
Proof.
  induction base as [|c base IH]; intros H.
  - now apply sub_nil.
  - rewrite sub_miss.
    + f_equal. apply IH. intros Hin. apply H. now right.
    + apply lang_suffix_not_letter. intros ->. apply H. now left.
Qed.

Lemma is_lang_code_chars code c :
  is_lang_code code = true -> In c code -> letter c = true \/ c = "-"%char.
Proof.
  intros H Hin. apply is_lang_code_inv in H.
  destruct H as [H|(l1 & l2 & -> & H1 & H2)].
  - apply letters23_inv in H. destruct H as [H _].
    rewrite forallb_forall in H. left. now apply H.
  - apply letters23_inv in H1, H2. destruct H1 as [H1 _], H2 as [H2 _].
    rewrite forallb_forall in H1, H2.
    apply in_app_or in Hin. destruct Hin as [Hin|[<-|Hin]]; auto.
Qed.

Lemma is_lang_code_no_slash code :
  is_lang_code code = true -> ~ In Path.slash code.
Proof.
  intros H Hin. destruct (is_lang_code_chars code Path.slash H Hin); discriminate.
Qed.

Lemma dir_part_prefix root segs :
  Forall segment segs -> dir_prefix (dir_part root segs).
Proof.
  intros H. unfold dir_part.
  destruct (rev segs) as [|seg rest] eqn:E.
  - assert (segs = []) as -> by (rewrite <- (rev_involutive segs), E; reflexivity).
    destruct root; [right; left | left]; reflexivity.
  - assert (Es : segs = rev rest ++ [seg])
      by (rewrite <- (rev_involutive segs), E; reflexivity).
    rewrite Es in *. apply Forall_app in H. destruct H as [_ H].
    inversion H as [|? ? (Hne & Hdot & Hsl) _]; subst.
    right. right.
    set (r := if root then [Path.slash] else []).
    set (d := concat (map (fun seg => seg ++ [Path.slash]) (rev rest))).
    exists (r ++ d ++ seg).
    rewrite map_app, concat_app. cbn [map concat]. rewrite app_nil_r.
    fold d. split; [now rewrite <- !app_assoc|].
    destruct (exists_last Hne) as (seg0 & c & ->).
    assert (Hc : c <> Path.slash).
    { intros ->. apply Hsl. apply in_or_app. right. now left. }
    assert (Hlast : forall x : str, r ++ d ++ seg0 ++ [c] = x ->
                    exists y, x = y ++ [c]).
    { intros x <-. exists (r ++ d ++ seg0). now rewrite <- !app_assoc. }
    split; [|split]; intros Heq.
    + destruct (Hlast _ Heq) as (y & Hy). now destruct y.
    + destruct (Hlast _ Heq) as (y & Hy).
      destruct y as [|? [|? ?]]; try discriminate.
      cbn in Hy. injection Hy as <-.
      (* the whole is one dot, so the segment is *)
      assert (Hl : length (r ++ d ++ seg0 ++ [Path.dot]) = 1) by now rewrite Heq.
      rewrite !length_app in Hl. cbn [length] in Hl.
      assert (seg0 = []) as -> by (destruct seg0; [reflexivity | cbn in Hl; lia]).
      now apply Hdot.
    + destruct (Hlast _ Heq) as (y & Hy).
      destruct y as [|? [|? ?]]; try discriminate.
      cbn in Hy. injection Hy as <-. now apply Hc.
Qed.

Lemma target_path_code job prefix b0 code ext :
  dir_prefix prefix -> ~ In Path.slash b0 -> is_lang_code code = true ->
  ext <> [] -> ~ In Path.dot ext -> ~ In Path.slash ext ->
  get_target_path job (prefix ++ (b0 ++ Path.dot :: code) ++ Path.dot :: ext) =
  prefix ++ b0 ++ Path.dot :: target_lang job ++ Path.dot :: ext.
Proof.
  intros Hp Hb Hc He Hd Hs.
  rewrite target_path_split; auto.
  - now rewrite sub_strip_code.
  - now destruct b0.
  - intros Hin. apply in_app_or in Hin. destruct Hin as [Hin|[Hin|Hin]].
    + now apply Hb.
    + discriminate.
    + now apply (is_lang_code_no_slash code).
Qed.

(** X16. A language code that closes the file name (two or three
    letters, optionally a dash and two or three more, in any case) is
    replaced by the target code; directory, the rest of the name and
    the extension are kept. *)
Theorem get_target_path_replaces_code (job : Job) (root : bool) (segs : list str)
    (base code ext : str)
    (Hdir : Forall segment segs)
    (Hbase : ~ In Path.slash base)
    (Hcode : is_lang_code code = true)
    (Hext : ext <> [])
    (Hdot : ~ In Path.dot ext)
    (Hslash : ~ In Path.slash ext)
    (Hlang : ~ In Path.slash (target_lang job)) :
  get_target_path job
    (dir_part root segs ++ base ++ L "." ++ code ++ L "." ++ ext) =
  dir_part root segs ++ base ++ L "." ++ target_lang job ++ L "." ++ ext.
Proof.
  change (L ".") with [Path.dot]. cbn [app].
  rewrite <- (target_path_code job (dir_part root segs) base code ext); auto.
  - now rewrite <- (app_assoc base).
  - now apply dir_part_prefix.
Qed.

(** X17. A file name without a dot before its extension gets the target
    code inserted before the extension, in the same directory. *)
Theorem get_target_path_inserts_code (job : Job) (root : bool) (segs : list str)
    (base ext : str)
    (Hdir : Forall segment segs)
    (Hbase : base <> [])
    (Hplain : ~ In Path.dot base)
    (Hnoslash : ~ In Path.slash base)
    (Hext : ext <> [])
    (Hdot : ~ In Path.dot ext)
    (Hslash : ~ In Path.slash ext)
    (Hlang : ~ In Path.slash (target_lang job)) :
  get_target_path job (dir_part root segs ++ base ++ L "." ++ ext) =
  dir_part root segs ++ base ++ L "." ++ target_lang job ++ L "." ++ ext.
Proof.
  change (L ".") with [Path.dot]. cbn [app].
  rewrite target_path_split; auto.
  - now rewrite sub_no_dot.
  - now apply dir_part_prefix.
Qed.

(** X18. When the target language is itself a code the pattern
    recognises, the target path of a target path is that same path:
    an output file is its own target and no second code is stacked. *)
Theorem get_target_path_idempotent (job : Job) (root : bool) (segs : list str)
    (base ext : str)
    (Hdir : Forall segment segs)
    (Hbase : exists c, In c base /\ c <> Path.dot)
    (Hnoslash : ~ In Path.slash base)
    (Hext : ext <> [])
    (Hdot : ~ In Path.dot ext)
    (Hslash : ~ In Path.slash ext)
    (Hlang : is_lang_code (target_lang job) = true) :
  get_target_path job
    (get_target_path job (dir_part root segs ++ base ++ L "." ++ ext)) =
  get_target_path job (dir_part root segs ++ base ++ L "." ++ ext).
Proof.
  change (L ".") with [Path.dot]. cbn [app].
  assert (Hp : dir_prefix (dir_part root segs)) by now apply dir_part_prefix.
  assert (Hne : base <> []).
  { destruct Hbase as (c & Hin & _). now destruct base. }
  rewrite target_path_split; auto.
  rewrite <- (target_path_code job (dir_part root segs)
                (sub lang_suffix_pattern [] base) (target_lang job) ext) at 2; auto.
  - now rewrite <- (app_assoc (sub lang_suffix_pattern [] base)).
  - intros Hin. apply Hnoslash. unfold sub in Hin.
    now apply (sub_from_incl lang_suffix_pattern base 0).
Qed.

Lemma get_target_path_replaces_code_witness :
  get_target_path zh_job
    (dir_part true [L "srv"; L "movies"] ++ L "film.2019" ++ L "." ++ L "EN-us"
       ++ L "." ++ L "srt") =
  dir_part true [L "srv"; L "movies"] ++ L "film.2019" ++ L "."
    ++ target_lang zh_job ++ L "." ++ L "srt".
Proof.
  apply (get_target_path_replaces_code zh_job true [L "srv"; L "movies"]
           (L "film.2019") (L "EN-us") (L "srt")).
  - repeat constructor; vm_compute; intuition discriminate.
  - vm_compute. intuition discriminate.
  - reflexivity.
  - discriminate.
  - vm_compute. intuition discriminate.
  - vm_compute. intuition discriminate.
  - vm_compute. intuition discriminate.
Defined.

Lemma get_target_path_inserts_code_witness :
  get_target_path demo_job (dir_part false [L ".."; L "subs"] ++ L "movie" ++ L "." ++ L "srt") =
  dir_part false [L ".."; L "subs"] ++ L "movie" ++ L "." ++ target_lang demo_job
    ++ L "." ++ L "srt".
Proof.
  apply (get_target_path_inserts_code demo_job false [L ".."; L "subs"]
           (L "movie") (L "srt")).
  - repeat constructor; vm_compute; intuition discriminate.
  - discriminate.
  - vm_compute. intuition discriminate.
  - vm_compute. intuition discriminate.
  - discriminate.
  - vm_compute. intuition discriminate.
  - vm_compute. intuition discriminate.
  - vm_compute. intuition discriminate.
Defined.

Lemma get_target_path_idempotent_witness :
  get_target_path zh_job
    (get_target_path zh_job (dir_part false [] ++ L "film.en" ++ L "." ++ L "srt")) =
  get_target_path zh_job (dir_part false [] ++ L "film.en" ++ L "." ++ L "srt").
Proof.
  apply (get_target_path_idempotent zh_job false [] (L "film.en") (L "srt")).
  - constructor.
  - exists "f"%char. split; [vm_compute; auto | discriminate].
  - vm_compute. intuition discriminate.
  - discriminate.
  - vm_compute. intuition discriminate.
  - vm_compute. intuition discriminate.
  - reflexivity.
Defined.
(* ================================================================== *)
(** * Batch driver *)
(* ================================================================== *)

(** ** The translation call as the block loop sees it *)

Section Calls.

Variable env : Env.
Variable job : Job.

Lemma outcome_quiet attempt r line :
  attempt_outcome attempt r = inr line -> quiet (Log line) = true.
Proof.
  destruct r as [status body [reply|exc]|exc]; cbn [attempt_outcome].
  - destruct (status =? 200); [discriminate|]. intros [= <-]. reflexivity.
  - destruct (status =? 200); intros [= <-]; reflexivity.
  - intros [= <-]. reflexivity.
Qed.

(** The retry loop reads nothing of the state but the number of the
    next network call: it always returns, and from every state with
    that number it returns the same value after the same events. *)
Lemma translate_attempts_frame system_prompt text todo :
  forall attempt n,
  exists r k evs,
    (forall st, posts st = n ->
       translate_attempts env job system_prompt text attempt todo st
       = (Val r, logged st k evs)) /\
    Forall (fun e => quiet e = true) evs /\
    (0 < todo -> In (Post (base_url job) (model job) system_prompt text) evs).
Proof.
  induction todo as [|todo IH]; intros attempt n.
  - exists None, 0, []. split; [|split; [constructor | lia]].
    intros st _. cbn. unfold ret, logged. rewrite app_nil_r. now destruct st.
  - set (call := Post (base_url job) (model job) system_prompt text).
    destruct (attempt_outcome attempt (net env n system_prompt text))
      as [reply|line] eqn:Hout.
    + exists (Some reply), 1, [call]. split; [|split].
      * intros st <-. cbn [translate_attempts]. unfold bind at 1, post at 1.
        cbv beta iota. rewrite Hout. reflexivity.
      * repeat constructor.
      * intros _. now left.
    + destruct (IH (S attempt) (S n)) as (r & k & evs & H & Hq & _).
      exists r, (k + 1),
        (([call; Log line] ++ if attempt <? RETRY_COUNT then [Sleep RETRY_DELAY] else [])
           ++ evs).
      split; [|split].
      * intros st <-. cbn [translate_attempts]. unfold bind at 1, post at 1.
        cbv beta iota. rewrite Hout.
        rewrite <- logged_logged.
        rewrite <- (H (logged st 1 ([call; Log line]
                         ++ if attempt <? RETRY_COUNT then [Sleep RETRY_DELAY] else []))).
        2:{ reflexivity. }
        unfold bind, emit, sleep, emit, ret, logged.
        destruct (attempt <? RETRY_COUNT); cbn [fst snd fs posts polls trace];
          rewrite <- ?app_assoc; reflexivity.
      * apply Forall_app. split; [|exact Hq].
        constructor; [reflexivity|]. constructor; [now apply (outcome_quiet attempt _ _ Hout)|].
        destruct (attempt <? RETRY_COUNT); repeat constructor.
      * intros _. now left.
Qed.

(** A call of [translate_text] returns what [call_result] says for
    the number of its first network call. *)
Lemma translate_text_call system_prompt text st :
  exists k evs,
    translate_text env job system_prompt text st =
      (Val (fst (call_result env job (posts st) system_prompt text)), logged st k evs) /\
    snd (call_result env job (posts st) system_prompt text) = k + posts st /\
    Forall (fun e => quiet e = true) evs /\
    In (Post (base_url job) (model job) system_prompt text) evs.
Proof.
  destruct (translate_attempts_frame system_prompt text (RETRY_COUNT + 1) 0 (posts st))
    as (r & k & evs & H & Hq & Hin).
  exists k, evs. unfold call_result, translate_text.
  rewrite (H st eq_refl).
  rewrite (H {| fs := []; posts := posts st; polls := 0; trace := [] |} eq_refl).
  cbn [fst snd logged posts]. repeat split; auto.
  apply Hin. unfold RETRY_COUNT. lia.
Qed.

(** What [call_result] is in terms of the endpoint: failure after
    three failed calls, the reply of the first call that succeeds
    otherwise. *)
Lemma call_result_failure n system_prompt text :
  (forall i, i < 3 -> succeeded (net env (n + i) system_prompt text) = false) ->
  call_result env job n system_prompt text = (None, n + 3).
Proof.
  intros Hfail. unfold call_result, translate_text. change (RETRY_COUNT + 1) with 3.
  set (st := {| fs := []; posts := n; polls := 0; trace := [] |}).
  destruct (failed_attempt env job system_prompt text 0 2 st) as [l1 E1].
  { cbn [posts st]. rewrite <- (Nat.add_0_r n). apply Hfail. lia. }
  rewrite E1; clear E1.
  match goal with |- context [translate_attempts _ _ _ _ _ _ ?s] =>
    destruct (failed_attempt env job system_prompt text 1 1 s) as [l2 E2]
  end.
  { cbn [posts logged st]. replace (1 + n) with (n + 1) by lia. apply Hfail. lia. }
  rewrite E2; clear E2.
  match goal with |- context [translate_attempts _ _ _ _ _ _ ?s] =>
    destruct (failed_attempt env job system_prompt text 2 0 s) as [l3 E3]
  end.
  { cbn [posts logged st]. replace (1 + (1 + n)) with (n + 2) by lia. apply Hfail. lia. }
  rewrite E3; clear E3.
  cbn [translate_attempts]. unfold ret. cbn [posts logged st]. f_equal. lia.
Qed.

Lemma call_result_reply n system_prompt text j body reply :
  j <= RETRY_COUNT ->
  (forall i, i < j -> succeeded (net env (n + i) system_prompt text) = false) ->
  net env (n + j) system_prompt text = Resp 200 body (inl reply) ->
  call_result env job n system_prompt text = (Some reply, n + j + 1).
Proof.
  intros Hj Hfail Hok. unfold call_result, translate_text.
  set (st := {| fs := []; posts := n; polls := 0; trace := [] |}).
  destruct (translate_attempts_success env job system_prompt text body reply j 0
              (RETRY_COUNT + 1) st) as (lines & _ & E).
  - lia.
  - unfold RETRY_COUNT in *. lia.
  - intros i Hi. cbn [posts st]. rewrite Nat.add_comm. now apply Hfail.
  - cbn [posts st]. rewrite Nat.add_comm. exact Hok.
  - rewrite E. cbn [posts logged st]. f_equal. lia.
Qed.

End Calls.

(** ** The block loop, the save, one file, the file loop *)

Section Driver.

Variable env : Env.
Variable job : Job.

(** The block loop always returns and leaves the files alone.  Its
    events are block rounds; unless a checkpoint found the flag set,
    it returns the blocks the specification expects. *)
Lemma translate_blocks_rounds blocks :
  forall total block_idx acc st,
  exists r st' evs c,
    translate_blocks env job total block_idx blocks acc st = (Val r, st') /\
    fs st' = fs st /\ trace st' = trace st ++ evs /\ posts st <= posts st' /\
    block_rounds env (polls st) evs c (polls st') /\
    r = (if c then None
         else Some (acc ++ expected_blocks env job (posts st) blocks)) /\
    (c = false -> Forall (fun b => In (request_event job (snd b)) evs) blocks).
Proof.
  induction blocks as [|[[index timecode] text] rest IH]; intros total block_idx acc st.
  - exists (Some acc), st, [], false. cbn. unfold ret. rewrite !app_nil_r.
    repeat split; auto. constructor.
  - cbn [translate_blocks]. unfold bind at 1, is_cancelled at 1. cbv beta iota zeta.
    destruct (flag env (polls st)) eqn:Hflag.
    + exists None. eexists. exists [Polled true], true. unfold ret.
      split; [reflexivity|]. split; [reflexivity|]. split; [reflexivity|].
      split; [cbn; lia|]. split; [now constructor|]. split; [reflexivity|].
      discriminate.
    + unfold bind at 1, emit at 1. cbv beta iota.
      cbn [fs posts polls trace].
      set (line := Log (L "Translating block " ++ _)).
      assert (Hline : is_block_start line = true) by reflexivity.
      cbn [expected_blocks].
      destruct (protect_content text) as [protected_text replacements] eqn:Hprot.
      unfold bind at 1.
      match goal with |- context [translate_text _ _ ?sp ?pt ?s] =>
        destruct (translate_text_call env job sp pt s) as (k & evs1 & E1 & Hnext & Hq & Hin)
      end.
      rewrite E1. clear E1. cbv beta iota. cbn [posts] in Hnext |- *.
      assert (Hreq : In (request_event job text) evs1).
      { unfold request_event, request_prompt, request_text. rewrite Hprot. exact Hin. }
      clear Hin.
      destruct (call_result env job (posts st)
                  (generate_system_prompt job protected_text) protected_text)
        as [answer next]. cbn [fst snd] in Hnext |- *. subst next.
      destruct (falsy answer) eqn:Hfalsy.
      * unfold bind at 1, emit at 1. cbv beta iota.
        match goal with |- context [translate_blocks _ _ _ _ _ ?a ?s] =>
          destruct (IH total (S block_idx) a s)
            as (r & st' & evs & c & E & Hfs & Htr & Hpo & Hsh & Hr & Hsent)
        end.
        rewrite E. clear E.
        cbn [fs posts polls trace logged] in *.
        exists r, st',
          (Polled false :: line ::
             (evs1 ++ [Log (L "Skipping block due to translation failure")]) ++ evs), c.
        split; [reflexivity|]. split; [exact Hfs|]. split.
        { rewrite Htr. rewrite <- !app_assoc. reflexivity. }
        split; [lia|]. split.
        { constructor; auto. apply Forall_app. split; [exact Hq|].
          constructor; [reflexivity | constructor]. }
        split.
        { rewrite Hr. destruct c; [reflexivity|]. rewrite <- app_assoc.
          destruct answer as [[|c0 reply]|]; try discriminate; reflexivity. }
        intros Hc. constructor.
        { cbn [snd]. right. right. apply in_or_app. left. apply in_or_app. now left. }
        eapply Forall_impl; [|exact (Hsent Hc)]. intros b Hb.
        right. right. apply in_or_app. now right.
      * match goal with |- context [translate_blocks _ _ _ _ _ ?a ?s] =>
          destruct (IH total (S block_idx) a s)
            as (r & st' & evs & c & E & Hfs & Htr & Hpo & Hsh & Hr & Hsent)
        end.
        rewrite E. clear E.
        cbn [fs posts polls trace logged] in *.
        exists r, st', (Polled false :: line :: evs1 ++ evs), c.
        split; [reflexivity|]. split; [exact Hfs|]. split.
        { rewrite Htr. rewrite <- !app_assoc. reflexivity. }
        split; [lia|]. split.
        { constructor; auto. }
        split.
        { rewrite Hr. destruct c; [reflexivity|]. rewrite <- app_assoc.
          destruct answer as [[|c0 reply]|]; try discriminate; reflexivity. }
        intros Hc. constructor.
        { cbn [snd]. right. right. apply in_or_app. now left. }
        eapply Forall_impl; [|exact (Hsent Hc)]. intros b Hb.
        right. right. apply in_or_app. now right.
Qed.

(** *** Saving *)

Lemma lookup_fs_append files path data p :
  p <> path -> lookup (fs_append files path data) p = lookup files p.
Proof.
  intros Hp. induction files as [|[q c] rest IH]; cbn [fs_append lookup].
  - destruct (str_eqb path p) eqn:E; [|reflexivity].
    apply str_eqb_eq in E. congruence.
  - destruct (str_eqb q path) eqn:E; cbn [lookup].
    + destruct (str_eqb q p) eqn:E'; [|reflexivity].
      apply str_eqb_eq in E, E'. congruence.
    + now rewrite IH.
Qed.

Lemma write_blocks_spec path blocks :
  forall st,
  exists res st' evs,
    write_blocks env path blocks st = (res, st') /\
    trace st' = trace st ++ evs /\ polls st' = polls st /\
    Forall (fun e => is_write e = true) evs /\ elsewhere path st st'.
Proof.
  induction blocks as [|b rest IH]; intros st.
  - exists (Val tt), st, []. cbn. unfold ret. rewrite app_nil_r.
    repeat split; auto.
  - cbn [write_blocks]. unfold bind at 1, f_write at 1.
    destruct (store env (fs st) path (block_text b)) as [[kept msg]|].
    + eexists _, _, [_]. split; [reflexivity|]. cbn [fs posts polls trace].
      repeat split; auto. intros p Hp. cbn [fs]. now apply lookup_fs_append.
    + match goal with |- context [write_blocks _ _ _ ?s] =>
        destruct (IH s) as (res & st' & evs & E & Htr & Hpo & Hev & Hel)
      end.
      rewrite E. cbn [fs posts polls trace] in *.
      exists res, st', (Wrote path (block_text b) :: evs).
      split; [reflexivity|]. split; [rewrite Htr, <- app_assoc; reflexivity|].
      split; [exact Hpo|]. split; [now constructor|].
      intros p Hp. rewrite (Hel p Hp). cbn [fs]. now apply lookup_fs_append.
Qed.

Lemma save_srt_spec path blocks st :
  exists res st' evs,
    save_srt env path blocks st = (res, st') /\
    trace st' = trace st ++ evs /\ polls st' = polls st /\
    Forall (fun e => is_write e = true) evs /\ elsewhere path st st'.
Proof.
  unfold save_srt, bind, open_w.
  destruct (creat env (fs st) path) as [msg|].
  - exists (Exc msg), st, []. rewrite app_nil_r. repeat split; auto.
  - match goal with |- context [write_blocks _ _ _ ?s] =>
      destruct (write_blocks_spec path blocks s) as (res & st' & evs & E & Htr & Hpo & Hev & Hel)
    end.
    rewrite E. cbn [fs posts polls trace] in *.
    exists res, st', (Opened path :: evs).
    split; [reflexivity|]. split; [rewrite Htr, <- app_assoc; reflexivity|].
    split; [exact Hpo|]. split; [now constructor|].
    intros p Hp. rewrite (Hel p Hp). cbn [fs lookup].
    destruct (str_eqb path p) eqn:E'; [|reflexivity].
    apply str_eqb_eq in E'. congruence.
Qed.

(** When the disk takes every write, the writes of the loop join the
    content of the file on top. *)
Lemma write_blocks_ok path blocks :
  disk_ok env ->
  forall st old files,
    fs st = (path, old) :: files ->
    write_blocks env path blocks st =
    (Val tt, {| fs := (path, old ++ srt_text blocks) :: files; posts := posts st;
                polls := polls st;
                trace := trace st ++ map (fun b => Wrote path (block_text b)) blocks |}).
Proof.
  intros [_ Hstore]. induction blocks as [|b rest IH]; intros st old files Hfs.
  - cbn [write_blocks map]. unfold ret, srt_text. cbn [flat_map].
    rewrite !app_nil_r. destruct st as [f po pl tr]; cbn [fs posts polls trace] in *. now subst.
  - cbn [write_blocks]. unfold bind at 1, f_write at 1. rewrite Hstore.
    rewrite (IH _ (old ++ block_text b) files).
    + cbn [fs posts polls trace map]. unfold srt_text. cbn [flat_map].
      rewrite <- !app_assoc. reflexivity.
    + cbn [fs]. rewrite Hfs. cbn [fs_append]. now rewrite str_eqb_refl.
Qed.

(** A save that returns has written every block. *)
Lemma write_blocks_val path blocks :
  forall st st' old files,
    fs st = (path, old) :: files ->
    write_blocks env path blocks st = (Val tt, st') ->
    fs st' = (path, old ++ srt_text blocks) :: files.
Proof.
  induction blocks as [|b rest IH]; intros st st' old files Hfs E.
  - cbn in E. unfold ret in E. injection E as <-. unfold srt_text. cbn [flat_map].
    now rewrite app_nil_r.
  - cbn [write_blocks] in E. unfold bind at 1, f_write at 1 in E.
    destruct (store env (fs st) path (block_text b)) as [[kept msg]|]; [discriminate|].
    apply (IH _ _ (old ++ block_text b) files) in E.
    + rewrite E. unfold srt_text. cbn [flat_map]. now rewrite <- app_assoc.
    + cbn [fs]. rewrite Hfs. cbn [fs_append]. now rewrite str_eqb_refl.
Qed.

Lemma save_srt_val path blocks st st' :
  save_srt env path blocks st = (Val tt, st') ->
  fs st' = (path, srt_text blocks) :: fs st.
Proof.
  unfold save_srt, bind, open_w.
  destruct (creat env (fs st) path) as [msg|]; [discriminate|].
  intros E. now apply (write_blocks_val path blocks _ _ [] (fs st)) in E.
Qed.

Lemma save_srt_ok path blocks st :
  disk_ok env ->
  save_srt env path blocks st =
  (Val tt, {| fs := (path, srt_text blocks) :: fs st; posts := posts st;
              polls := polls st;
              trace := trace st ++ Opened path
                         :: map (fun b => Wrote path (block_text b)) blocks |}).
Proof.
  intros Hdisk. unfold save_srt, bind, open_w. rewrite (proj1 Hdisk).
  erewrite (write_blocks_ok path blocks Hdisk _ [] (fs st)); [|reflexivity].
  cbn [fs posts polls trace app]. rewrite <- app_assoc. reflexivity.
Qed.

(** *** One file *)

Lemma write_closing evs :
  Forall (fun e => is_write e = true) evs -> Forall (fun e => closing e = true) evs.
Proof. apply Forall_impl. intros [] H; cbn in *; congruence. Qed.

Lemma file_events_line p msg :
  closing (Log msg) = true -> file_events env p [Log msg] false p.
Proof.
  intros H. exists [], [Log msg]. split; [reflexivity|]. split; [constructor|].
  split; [now constructor | discriminate].
Qed.

(** What one call of [process_file] does: its events are those of a
    file; it keeps the files that were there; if a checkpoint found
    the flag set it returns without touching any file. *)
Lemma process_file_events file_path st :
  exists res st' evs c,
    process_file env job file_path st = (res, st') /\
    trace st' = trace st ++ evs /\
    file_events env (polls st) evs c (polls st') /\
    keeps st st' /\
    (res = Val tt \/ (c = false /\ exists e, res = Exc e)) /\
    (c = true -> fs st' = fs st /\ res = Val tt).
Proof.
  unfold process_file. unfold bind at 1, path_exists at 1. cbv beta iota.
  destruct (lookup (fs st) (get_target_path job file_path)) as [old|] eqn:Hfresh.
  { eexists _, _, [_], false. unfold emit. split; [reflexivity|]. cbn [fs posts polls trace].
    split; [reflexivity|]. split; [now apply file_events_line|].
    split; [intros p c H; exact H|]. split; [now left | discriminate]. }
  destruct (contains (lower file_path) (L "." ++ target_lang job ++ L ".")).
  { eexists _, _, [_], false. unfold emit. split; [reflexivity|]. cbn [fs posts polls trace].
    split; [reflexivity|]. split; [now apply file_events_line|].
    split; [intros p c H; exact H|]. split; [now left | discriminate]. }
  unfold bind at 1, read_file at 1.
  destruct (lookup (fs st) file_path) as [content|] eqn:Hread.
  2:{ eexists _, _, [], false. split; [reflexivity|]. rewrite app_nil_r.
      split; [reflexivity|]. split.
      { exists [], []. repeat split; auto. constructor. }
      split; [intros p c H; exact H|].
      split; [right; split; [reflexivity | eexists; reflexivity] | discriminate]. }
  destruct (parse_srt (universal_newlines content)) as [|b blocks] eqn:Hparse.
  { eexists _, _, [_], false. unfold emit. split; [reflexivity|]. cbn [fs posts polls trace].
    split; [reflexivity|]. split; [now apply file_events_line|].
    split; [intros p c H; exact H|]. split; [now left | discriminate]. }
  unfold bind at 1.
  destruct (translate_blocks_rounds (b :: blocks) (length (b :: blocks)) 0 [] st)
    as (r & st1 & loop & c & E & Hfs & Htr & _ & Hsh & Hr & _).
  rewrite E. clear E. subst r. destruct c.
  - unfold ret. exists (Val tt), st1, loop, true. split; [reflexivity|].
    split; [exact Htr|]. split.
    { exists loop, []. rewrite app_nil_r. repeat split; auto. }
    split; [intros p c H; now rewrite Hfs|]. split; [now left|]. auto.
  - set (outs := [] ++ _). unfold bind.
    destruct (save_srt_spec (get_target_path job file_path) outs st1)
      as (res & st2 & wevs & E & Htr2 & Hpo2 & Hw & Hel).
    rewrite E. clear E.
    assert (Hkeep : keeps st st2).
    { intros p c H. rewrite Hel; [now rewrite Hfs|]. intros ->. congruence. }
    destruct res as [[]|e].
    + unfold emit.
      eexists (Val tt), _, (loop ++ wevs ++ [Log _]), false.
      split; [reflexivity|]. cbn [fs posts polls trace].
      split; [rewrite Htr2, Htr, <- !app_assoc; reflexivity|]. split.
      { eexists loop, _. split; [reflexivity|]. rewrite Hpo2. split; [exact Hsh|].
        split; [|discriminate]. apply Forall_app. split; [now apply write_closing|].
        constructor; [reflexivity | constructor]. }
      split; [exact Hkeep|]. split; [now left | discriminate].
    + exists (Exc e), st2, (loop ++ wevs), false.
      split; [reflexivity|].
      split; [rewrite Htr2, Htr, <- !app_assoc; reflexivity|]. split.
      { exists loop, wevs. split; [reflexivity|]. rewrite Hpo2. split; [exact Hsh|].
        split; [now apply write_closing | discriminate]. }
      split; [exact Hkeep|]. split; [right; split; [reflexivity | now eexists] | discriminate].
Qed.

(** *** The file loop *)

Lemma keeps_refl st : keeps st st.
Proof. intros p c H. exact H. Qed.

Lemma keeps_trans st1 st2 st3 : keeps st1 st2 -> keeps st2 st3 -> keeps st1 st3.
Proof. intros H1 H2 p c H. apply H2, H1, H. Qed.

Lemma keeps_same_fs st st' : fs st' = fs st -> keeps st st'.
Proof. intros E p c H. now rewrite E. Qed.

(** The file loop always returns; its events are file rounds, and it
    keeps the files that were there. *)
Lemma run_files_rounds total_files todo :
  forall idx st,
  exists st' evs k,
    run_files env job total_files idx todo st = (Val tt, st') /\
    trace st' = trace st ++ evs /\ keeps st st' /\
    file_rounds env total_files idx todo (polls st) evs k (polls st').
Proof.
  induction todo as [|file_path rest IH]; intros idx st.
  - exists st, [], 0. cbn. unfold ret. rewrite app_nil_r.
    repeat split; auto using keeps_refl. constructor.
  - cbn [run_files]. unfold bind at 1, is_cancelled at 1. cbv beta iota zeta.
    destruct (flag env (polls st)) eqn:Hflag.
    + eexists _, [Polled true; Log cancelled_msg], 0. unfold emit.
      cbn [fs posts polls trace]. split; [reflexivity|]. cbn [fs posts polls trace].
      split; [rewrite <- app_assoc; reflexivity|].
      split; [apply keeps_same_fs; reflexivity|]. now constructor.
    + unfold bind at 1, emit at 1. cbv beta iota.
      unfold bind at 1, emit at 1. cbv beta iota.
      cbn [fs posts polls trace].
      set (line := Log (L "Processing file: " ++ file_path)).
      unfold bind at 1, try_except at 1.
      match goal with |- context [process_file _ _ _ ?s] =>
        destruct (process_file_events file_path s)
          as (res & st1 & work & c & E & Htr & Hsh & Hkeep & Hres & _)
      end.
      rewrite E. clear E. cbn [fs posts polls trace] in Htr, Hsh.
      assert (Hkeep1 : keeps st st1) by exact Hkeep. clear Hkeep.
      (* the state and events once the per-file guard is left *)
      assert (Hguard : exists st2 err,
                 match res with
                 | Val a => (Val a, st1)
                 | Exc e => emit (Log (L "Error processing " ++ file_path ++ L ": " ++ e)) st1
                 end = (Val tt, st2) /\
                 trace st2 = ((trace st ++ [Polled false]) ++ [line]) ++
                               [Progress idx total_files] ++ work ++ err /\
                 polls st2 = polls st1 /\ fs st2 = fs st1 /\
                 error_line file_path c err).
      { destruct Hres as [->|[-> [e ->]]].
        - exists st1, []. rewrite app_nil_r. repeat split; auto.
          + rewrite Htr, <- !app_assoc. reflexivity.
          + now left.
        - eexists _, [_]. unfold emit. split; [reflexivity|]. cbn [fs posts polls trace].
          split; [rewrite Htr, <- !app_assoc; reflexivity|].
          split; [reflexivity|]. split; [reflexivity|].
          right. split; [reflexivity | now eexists]. }
      destruct Hguard as (st2 & err & -> & Htr2 & Hpo2 & Hfs2 & Herr).
      assert (Hkeep2 : keeps st st2).
      { intros p c0 H. rewrite Hfs2. now apply Hkeep1. }
      rewrite <- Hpo2 in Hsh. clear Hres Htr Hkeep1.
      unfold bind at 1, is_cancelled at 1. cbv beta iota zeta.
      destruct (flag env (polls st2)) eqn:Hflag2.
      * eexists _, (Polled false :: line :: Progress idx total_files
                      :: work ++ err ++ [Polled true]), 1.
        unfold ret. split; [reflexivity|]. cbn [fs posts polls trace].
        split; [rewrite Htr2, <- !app_assoc; reflexivity|].
        split; [intros p c0 H; cbn [fs]; now apply Hkeep2|].
        eapply files_last; eauto.
      * match goal with |- context [run_files _ _ _ _ _ ?s] =>
          destruct (IH (S idx) s) as (st3 & evs3 & k & E & Htr3 & Hkeep3 & Hsh3)
        end.
        rewrite E. clear E. cbn [fs posts polls trace] in Htr3, Hsh3.
        exists st3, (Polled false :: line :: Progress idx total_files
                       :: work ++ err ++ Polled false :: evs3), (S k).
        split; [reflexivity|].
        split; [rewrite Htr3, Htr2, <- !app_assoc; reflexivity|].
        split.
        { eapply keeps_trans; [exact Hkeep2|]. intros p c0 H. apply Hkeep3. exact H. }
        eapply files_next; eauto.
Qed.

(** A run over a list of files: the file loop, the final progress
    report, the last poll, the completion line unless cancelled, and
    the completion signal. *)
Lemma run_list l st :
  files job = PyList l ->
  exists st1 evs k,
    file_rounds env (length l) 0 l (polls st) evs k (polls st1) /\
    keeps st st1 /\
    fs (snd (run env job st)) = fs st1 /\
    trace (snd (run env job st)) =
      trace st ++ evs
        ++ [Progress (length l) (length l); Polled (flag env (polls st1))]
        ++ (if flag env (polls st1) then [] else [Log completed_msg])
        ++ [Finished].
Proof.
  intros Hfiles.
  destruct (run_files_rounds (length l) l 0 st) as (st1 & evs & k & E & Htr & Hkeep & Hsh).
  exists st1, evs, k. split; [exact Hsh|]. split; [exact Hkeep|].
  assert (Hrun : run env job st =
    (Val tt, {| fs := fs st1; posts := posts st1; polls := S (polls st1);
                trace := trace st1
                  ++ [Progress (length l) (length l); Polled (flag env (polls st1))]
                  ++ (if flag env (polls st1) then [] else [Log completed_msg])
                  ++ [Finished] |})).
  { unfold run, run_body, files_len, files_iter. rewrite Hfiles.
    unfold bind at 1, try_except at 1. unfold bind at 1, ret at 1.
    unfold bind at 1, ret at 1. unfold bind at 1. rewrite E.
    unfold bind at 1, emit at 1. cbv beta iota. unfold bind at 1, is_cancelled at 1.
    cbv beta iota zeta. cbn [fs posts polls trace].
    destruct (flag env (polls st1)); cbn [negb]; unfold ret, emit;
      cbn [snd fs posts polls trace]; rewrite <- !app_assoc; reflexivity. }
  rewrite Hrun. cbn [snd fs trace]. split; [reflexivity|].
  rewrite Htr, <- !app_assoc. reflexivity.
Qed.

(** A run whose file list cannot be iterated. *)
Lemma run_none st :
  files job = PyNone ->
  run env job st =
  (Val tt, {| fs := fs st; posts := posts st; polls := polls st;
              trace := trace st ++
                [ErrorSig (L "Critical error: object of type 'NoneType' has no len()");
                 Finished] |}).
Proof.
  intros Hfiles. unfold run, run_body, files_len. rewrite Hfiles.
  cbn. unfold emit. cbn [fs posts polls trace]. rewrite <- app_assoc. reflexivity.
Qed.

End Driver.

(** ** Reading the events *)

Lemma after_cancel_app evs1 evs2 :
  after_cancel (evs1 ++ evs2) =
  match after_cancel evs1 with
  | Some post => Some (post ++ evs2)
  | None => after_cancel evs2
  end.
Proof.
  induction evs1 as [|e evs1 IH]; cbn; [reflexivity|].
  destruct (is_cancel e); [reflexivity | exact IH].
Qed.

Lemma after_cancel_none evs :
  Forall (fun e => is_cancel e = false) evs -> after_cancel evs = None.
Proof.
  induction 1 as [|e evs He _ IH]; cbn; [reflexivity|]. now rewrite He.
Qed.


Lemma new_events_app st st' evs :
  trace st' = trace st ++ evs -> new_events st st' = evs.
Proof.
  intros H. unfold new_events. rewrite H.
  rewrite skipn_app, skipn_all, Nat.sub_diag. reflexivity.
Qed.

Lemma quiet_no_poll evs :
  Forall (fun e => quiet e = true) evs -> Forall (fun e => is_poll e = false) evs.
Proof. apply Forall_impl. intros [] H; cbn in *; congruence. Qed.

Lemma closing_no_poll evs :
  Forall (fun e => closing e = true) evs -> Forall (fun e => is_poll e = false) evs.
Proof. apply Forall_impl. intros [] H; cbn in *; congruence. Qed.



Lemma quiet_no_write evs :
  Forall (fun e => quiet e = true) evs -> Forall (fun e => is_write e = false) evs.
Proof. apply Forall_impl. intros [] H; cbn in *; congruence. Qed.

Lemma no_poll_no_cancel evs :
  Forall (fun e => is_poll e = false) evs -> Forall (fun e => is_cancel e = false) evs.
Proof. apply Forall_impl. intros [| | | | | |[]| |] H; cbn in *; congruence. Qed.


Lemma block_start_not_file_start e : is_block_start e = true -> is_file_start e = false.
Proof.
  destruct e as [msg| | | | | | | |]; try reflexivity.
  unfold is_block_start, is_file_start.
  change (L "Translating block ") with ("T"%char :: L "ranslating block ").
  change (L "Processing file: ") with ("P"%char :: L "rocessing file: ").
  destruct msg as [|c msg]; cbn [startswith]; [reflexivity|].
  destruct (Ascii.eqb "T" c) eqn:E; [|discriminate].
  apply Ascii.eqb_eq in E. subst c. reflexivity.
Qed.

(** *** Checkpoints before the starts *)





(** *** The polls of the rounds *)

Section Rounds.

Variable env : Env.



Lemma block_rounds_cancel p evs c p' :
  block_rounds env p evs c p' ->
  after_cancel evs = (if c then Some [] else None) /\
  (c = true -> exists q, p' = S q /\ flag env q = true).
Proof.
  induction 1 as [p|p Hf|p line work evs c p' Hf Hline Hq _ [IH1 IH2]].
  - split; [reflexivity | discriminate].
  - split; [reflexivity|]. intros _. now exists p.
  - split; [|exact IH2]. cbn [after_cancel is_cancel].
    destruct line; try discriminate. cbn [is_cancel].
    rewrite after_cancel_app.
    now rewrite (after_cancel_none _ (no_poll_no_cancel _ (quiet_no_poll _ Hq))).
Qed.

Lemma block_rounds_no_write p evs c p' :
  block_rounds env p evs c p' -> Forall (fun e => is_write e = false) evs.
Proof.
  induction 1 as [p|p Hf|p line work evs c p' Hf Hline Hq _ IH].
  - constructor.
  - now constructor.
  - constructor; [reflexivity|]. constructor; [now destruct line|].
    apply Forall_app. split; [now apply quiet_no_write | exact IH].
Qed.

Lemma block_rounds_file_event p evs c p' :
  block_rounds env p evs c p' ->
  Forall (fun e => file_event e = true /\ is_file_start e = false) evs.
Proof.
  induction 1 as [p|p Hf|p line work evs c p' Hf Hline Hq _ IH].
  - constructor.
  - now constructor.
  - constructor; [now split|]. constructor.
    { split; [now destruct line | now apply block_start_not_file_start]. }
    apply Forall_app. split; [|exact IH].
    eapply Forall_impl; [|exact Hq]. intros [] H; cbn in *; try congruence; split; auto.
    apply negb_true_iff in H. now apply orb_false_iff in H.
Qed.



Lemma file_events_cancel p evs c p' :
  file_events env p evs c p' ->
  after_cancel evs = (if c then Some [] else None) /\
  (c = true -> exists q, p' = S q /\ flag env q = true) /\
  (c = true -> Forall (fun e => is_write e = false) evs).
Proof.
  intros (loop & after & -> & Hsh & Hafter & Hc).
  destruct (block_rounds_cancel _ _ _ _ Hsh) as [H1 H2].
  split; [|split; [exact H2|]].
  - rewrite after_cancel_app, H1. destruct c.
    + now rewrite (Hc eq_refl).
    + apply after_cancel_none, no_poll_no_cancel. now apply closing_no_poll.
  - intros E. rewrite (Hc E), app_nil_r. now apply (block_rounds_no_write p loop c p').
Qed.

Lemma file_events_file_event p evs c p' :
  file_events env p evs c p' ->
  Forall (fun e => file_event e = true /\ is_file_start e = false) evs.
Proof.
  intros (loop & after & -> & Hsh & Hafter & _).
  apply Forall_app. split; [now apply (block_rounds_file_event p loop c p')|].
  eapply Forall_impl; [|exact Hafter]. intros [] H; cbn in *; try congruence; split; auto.
  apply negb_true_iff in H. now apply orb_false_iff in H.
Qed.

(** Once the save has begun there is no checkpoint. *)
Lemma file_events_write_last p evs c p' :
  file_events env p evs c p' ->
  forall pre e post,
    evs = pre ++ e :: post -> is_write e = true ->
    Forall (fun e => is_poll e = false) post.
Proof.
  intros (loop & after & -> & Hsh & Hafter & _) pre e post E He.
  apply closing_no_poll in Hafter.
  pose proof (block_rounds_no_write _ _ _ _ Hsh) as Hnw.
  apply app_eq_app in E. destruct E as (l & [[-> E]|[-> ->]]).
  - destruct l as [|e' l]; cbn [app] in E.
    + rewrite <- E in Hafter. now inversion Hafter.
    + injection E as <- ->. rewrite Forall_forall in Hnw.
      rewrite Hnw in He; [discriminate|]. apply in_or_app. right. now left.
  - apply Forall_app in Hafter. destruct Hafter as [_ H]. now inversion H.
Qed.

End Rounds.

(** *** The rounds of the file loop *)

Section FileRounds.

Variable env : Env.
Variable total : nat.

Lemma error_line_closing file_path c err :
  error_line file_path c err -> Forall (fun e => closing e = true) err.
Proof.
  intros [->|[_ [e ->]]]; [constructor|]. constructor; [reflexivity | constructor].
Qed.

Lemma closing_file_event evs :
  Forall (fun e => closing e = true) evs ->
  Forall (fun e => file_event e = true /\ is_file_start e = false) evs.
Proof.
  apply Forall_impl. intros [] H; cbn in *; try congruence; split; auto.
  apply negb_true_iff in H. now apply orb_false_iff in H.
Qed.




Lemma file_event_no_progress evs :
  Forall (fun e => file_event e = true /\ is_file_start e = false) evs ->
  filter is_progress evs = [] /\
  filter (fun e => is_file_start e || is_progress e) evs = [] /\
  Forall (fun e => is_signal e = false) evs.
Proof.
  induction 1 as [|e evs [He1 He2] _ (IH1 & IH2 & IH3)]; [repeat split; constructor|].
  cbn [filter]. rewrite He2.
  destruct e; try discriminate; cbn [is_progress orb]; repeat split; auto.
Qed.

(** The starts and the progress reports of the file loop, in order. *)
Lemma file_rounds_progress idx todo p evs k p' :
  file_rounds env total idx todo p evs k p' ->
  k <= length todo /\
  filter is_progress evs = map (fun i => Progress i total) (seq idx k) /\
  filter (fun e => is_file_start e || is_progress e) evs =
    flat_map (fun it => [Log (L "Processing file: " ++ snd it); Progress (fst it) total])
             (combine (seq idx k) todo) /\
  ((forall n, flag env n = false) -> k = length todo) /\
  Forall (fun e => is_signal e = false) evs.
Proof.
  induction 1 as [idx p|idx f rest p Hf
                 |idx f rest p work c err p1 Hf Hw Herr Hf1
                 |idx f rest p work c err p1 evs k p' Hf Hw Herr Hf1 _
                    (IHk & IH1 & IH2 & IH3 & IH4)].
  - repeat split; auto.
  - split; [cbn; lia|]. split; [reflexivity|]. split; [reflexivity|]. split.
    + intros Hn. rewrite Hn in Hf. discriminate.
    + repeat constructor.
  - pose proof (file_events_file_event _ _ _ _ _ Hw) as Hfe.
    pose proof (closing_file_event _ (error_line_closing _ _ _ Herr)) as Hee.
    destruct (file_event_no_progress _ Hfe) as (W1 & W2 & W3).
    destruct (file_event_no_progress _ Hee) as (E1 & E2 & E3).
    split; [cbn; lia|]. split; [|split; [|split]].
    + cbn [filter is_progress]. rewrite !filter_app, W1, E1. reflexivity.
    + cbn [filter is_progress is_file_start orb].
      replace (startswith (L "Processing file: " ++ f) (L "Processing file: ")) with true
        by (symmetry; apply startswith_app).
      cbn [orb]. rewrite !filter_app, W2, E2. reflexivity.
    + intros Hn. rewrite Hn in Hf1. discriminate.
    + repeat (constructor; [reflexivity|]).
      apply Forall_app. split; [exact W3|]. apply Forall_app. split; [exact E3|].
      repeat constructor.
  - pose proof (file_events_file_event _ _ _ _ _ Hw) as Hfe.
    pose proof (closing_file_event _ (error_line_closing _ _ _ Herr)) as Hee.
    destruct (file_event_no_progress _ Hfe) as (W1 & W2 & W3).
    destruct (file_event_no_progress _ Hee) as (E1 & E2 & E3).
    split; [cbn; lia|]. split; [|split; [|split]].
    + cbn [filter is_progress]. rewrite !filter_app, W1, E1.
      cbn [app filter is_progress seq map]. now rewrite IH1.
    + cbn [filter is_progress is_file_start orb].
      replace (startswith (L "Processing file: " ++ f) (L "Processing file: ")) with true
        by (symmetry; apply startswith_app).
      cbn [orb]. rewrite !filter_app, W2, E2.
      cbn [app filter is_progress is_file_start orb seq combine flat_map fst snd].
      now rewrite IH2.
    + intros Hn. cbn [length]. f_equal. now apply IH3.
    + repeat (constructor; [reflexivity|]).
      apply Forall_app. split; [exact W3|]. apply Forall_app. split; [exact E3|].
      constructor; [reflexivity | exact IH4].
Qed.

End FileRounds.

(** *** Splitting lists of events *)

Lemma split_skip (P : event -> bool) x :
  Forall (fun e => P e = false) x ->
  forall y pre e post,
    x ++ y = pre ++ e :: post -> P e = true ->
    exists pre', pre = x ++ pre' /\ y = pre' ++ e :: post.
Proof.
  induction 1 as [|e0 x He0 _ IH]; intros y pre e post E He.
  - exists pre. split; [reflexivity | exact E].
  - destruct pre as [|e1 pre]; cbn [app] in E; injection E as <- E.
    + congruence.
    + destruct (IH _ _ _ _ E He) as (pre' & -> & ->). now exists pre'.
Qed.




(** *** What a call that returns has written *)

Section Written.

Variable env : Env.
Variable job : Job.

(** A call of [process_file] that returns normally has left the files
    as they were, or has added the target with every block. *)
Lemma process_file_written file_path st st' :
  process_file env job file_path st = (Val tt, st') ->
  (fs st' = fs st /\ Forall (fun e => is_write e = false) (new_events st st')) \/
  exists content,
    lookup (fs st) file_path = Some content /\
    fs st' =
      (get_target_path job file_path,
       srt_text (expected_blocks env job (posts st)
                   (parse_srt (universal_newlines content)))) :: fs st.
Proof.
  assert (Hline : forall msg st0,
            emit (Log msg) st = (Val tt, st0) ->
            fs st0 = fs st /\ Forall (fun e => is_write e = false) (new_events st st0)).
  { intros msg st0 E. unfold emit in E. injection E as <-. split; [reflexivity|].
    unfold new_events. cbn [trace].
    rewrite skipn_app, skipn_all, Nat.sub_diag. repeat constructor. }
  unfold process_file. unfold bind at 1, path_exists at 1. cbv beta iota.
  destruct (lookup (fs st) (get_target_path job file_path)) as [old|] eqn:Hfresh.
  { intros E. left. now apply (Hline _ _ E). }
  destruct (contains (lower file_path) (L "." ++ target_lang job ++ L ".")).
  { intros E. left. now apply (Hline _ _ E). }
  unfold bind at 1, read_file at 1.
  destruct (lookup (fs st) file_path) as [content|] eqn:Hread; [|discriminate].
  destruct (parse_srt (universal_newlines content)) as [|b blocks] eqn:Hparse.
  { intros E. left. now apply (Hline _ _ E). }
  unfold bind at 1.
  destruct (translate_blocks_rounds env job (b :: blocks) (length (b :: blocks)) 0 [] st)
    as (r & st1 & loop & c & E & Hfs & Htr & _ & Hsh & Hr & _).
  rewrite E. clear E. subst r. destruct c.
  - unfold ret. intros [= <-]. left. split; [exact Hfs|].
    rewrite (new_events_app _ _ _ Htr).
    now apply (block_rounds_no_write env (polls st) loop true (polls st1)).
  - cbn [app]. unfold bind.
    destruct (save_srt env (get_target_path job file_path)
                (expected_blocks env job (posts st) (b :: blocks)) st1)
      as [[[]|e] st2] eqn:E; [|discriminate].
    unfold emit. intros [= <-]. right. exists content. split; [reflexivity|].
    cbn [fs]. rewrite (save_srt_val env _ _ _ _ E), Hfs, Hparse.
    reflexivity.
Qed.

End Written.

(** ** The claims about the driver *)

Section PerFile.

Variable env : Env.
Variable job : Job.

Lemma block_rounds_flag p evs p' :
  block_rounds env p evs true p' -> exists q, flag env q = true.
Proof.
  intros H. destruct (block_rounds_cancel _ _ _ _ _ H) as [_ Hq].
  destruct (Hq eq_refl) as (q & _ & Hf). now exists q.
Qed.

(** C4. With the flag never set and a disk that takes the writes, a
    file that is read, parses to at least one block and is not skipped
    is written, and the call returns normally.  The target holds, in
    the format [index\ntimecode\ntext\n\n], one block per parsed
    block, in order, with the same index and time range: a block whose
    own translation call returns failure keeps its original text, a
    block whose call returns a reply gets the reply with the
    placeholders restored, and the blocks after a failed one are
    processed in the same way ([expected_blocks]).  A request is sent
    for every block. *)
Theorem process_file_soft_failure (file_path content : str) (st : St)
    (Hflag : forall n, flag env n = false)
    (Hdisk : disk_ok env)
    (Hfresh : lookup (fs st) (get_target_path job file_path) = None)
    (Hcode : contains (lower file_path) (L "." ++ target_lang job ++ L ".") = false)
    (Hread : lookup (fs st) file_path = Some content)
    (Hblocks : parse_srt (universal_newlines content) <> []) :
  let blocks := parse_srt (universal_newlines content) in
  let outs := expected_blocks env job (posts st) blocks in
  exists st',
    process_file env job file_path st = (Val tt, st') /\
    fs st' =
      (get_target_path job file_path,
       flat_map (fun b : block =>
                   let '(index, timecode, text) := b in
                   index ++ [nl] ++ timecode ++ [nl] ++ text ++ [nl; nl]) outs)
        :: fs st /\
    Forall (fun b => In (request_event job (snd b)) (new_events st st')) blocks.
Proof.
  cbv zeta.
  unfold process_file. unfold bind at 1, path_exists at 1. cbv beta iota.
  rewrite Hfresh, Hcode. unfold bind at 1, read_file at 1. rewrite Hread.
  destruct (parse_srt (universal_newlines content)) as [|b blocks] eqn:Hparse;
    [contradiction|].
  unfold bind at 1.
  destruct (translate_blocks_rounds env job (b :: blocks) (length (b :: blocks)) 0 [] st)
    as (r & st1 & evs & c & E & Hfs & Htr & _ & Hsh & Hr & Hsent).
  rewrite E. clear E. subst r. destruct c.
  - destruct (block_rounds_flag _ _ _ Hsh) as (q & Hq). rewrite Hflag in Hq. discriminate.
  - cbn [app]. unfold bind. rewrite (save_srt_ok env _ _ _ Hdisk). unfold emit.
    eexists. split; [reflexivity|]. cbn [fs posts polls trace].
    split; [rewrite Hfs; reflexivity|].
    erewrite new_events_app.
    2:{ cbn [trace]. rewrite Htr, <- !app_assoc. reflexivity. }
    eapply Forall_impl; [|exact (Hsent eq_refl)]. intros b0 Hb0. apply in_or_app. now left.
Qed.

(** C10. A call of [process_file] in which a checkpoint finds the flag
    set returns normally with that observation as its last event: it
    has opened and written no file, and the files are as they were.
    A call that returns normally has either left the files as they
    were, writing nothing, or added the target with every block of
    the input, each with its translation or its original text.  And
    the checkpoints come before the save: once the target has been
    opened, the flag is not polled again. *)
Theorem process_file_all_or_nothing (file_path : str) (st : St) :
  let res := fst (process_file env job file_path st) in
  let st' := snd (process_file env job file_path st) in
  let evs := new_events st st' in
  (after_cancel evs <> None ->
   res = Val tt /\ after_cancel evs = Some [] /\
   fs st' = fs st /\ Forall (fun e => is_write e = false) evs) /\
  (res = Val tt ->
   (fs st' = fs st /\ Forall (fun e => is_write e = false) evs) \/
   exists content,
     lookup (fs st) file_path = Some content /\
     fs st' =
       (get_target_path job file_path,
        flat_map (fun b : block =>
                    let '(index, timecode, text) := b in
                    index ++ [nl] ++ timecode ++ [nl] ++ text ++ [nl; nl])
                 (expected_blocks env job (posts st)
                    (parse_srt (universal_newlines content)))) :: fs st) /\
  (forall pre e post,
     evs = pre ++ e :: post -> is_write e = true ->
     Forall (fun e => is_poll e = false) post).
Proof.
  cbv zeta. split; [|split].
  - destruct (process_file_events env job file_path st)
      as (res & st' & evs & c & E & Htr & Hsh & _ & _ & Hc).
    rewrite E. cbn [fst snd]. rewrite (new_events_app _ _ _ Htr).
    destruct (file_events_cancel _ _ _ _ _ Hsh) as (Hcut & _ & Hnw).
    intros Hobs. rewrite Hcut in Hobs |- *. destruct c; [|contradiction].
    destruct (Hc eq_refl) as [Hfs Hres]. auto.
  - destruct (process_file env job file_path st) as [res st'] eqn:E. cbn [fst snd].
    intros ->. exact (process_file_written env job file_path st st' E).
  - destruct (process_file_events env job file_path st)
      as (res & st' & evs & c & E & Htr & Hsh & _).
    rewrite E. cbn [fst snd]. rewrite (new_events_app _ _ _ Htr).
    now apply (file_events_write_last env (polls st) evs c (polls st')).
Qed.

(** The part of the skip decision that holds: an existing target, or
    the dotted code found in the lower-cased path, ends the call with
    one log line, no network call and no write. *)
Lemma process_file_skips (file_path : str) (st : St) :
  lookup (fs st) (get_target_path job file_path) <> None \/
  contains (lower file_path) (L "." ++ target_lang job ++ L ".") = true ->
  exists reason,
    process_file env job file_path st =
    (Val tt, {| fs := fs st; posts := posts st; polls := polls st;
                trace := trace st ++ [Log (L "Skipping " ++ file_path ++ reason)] |}).
Proof.
  intros H. unfold process_file. unfold bind at 1, path_exists at 1. cbv beta iota.
  destruct (lookup (fs st) (get_target_path job file_path)) as [old|].
  - eexists. reflexivity.
  - destruct H as [H|H]; [contradiction|]. rewrite H. eexists. reflexivity.
Qed.

Lemma lower_infix a s : infix a s -> infix (lower a) (lower s).
Proof.
  intros (l & r & ->). exists (lower l), (lower r). unfold lower.
  now rewrite !map_app.
Qed.

(** X11. A file whose path holds the dotted target code in any letter
    case, the code itself being lower case, is skipped: one log line,
    no network call, no write. *)
Theorem process_file_code_in_path (file_path segment : str) (st : St)
    (Hseg : infix segment file_path)
    (Hcode : lower segment = L "." ++ target_lang job ++ L ".") :
  exists reason,
    process_file env job file_path st =
    (Val tt, {| fs := fs st; posts := posts st; polls := polls st;
                trace := trace st ++ [Log (L "Skipping " ++ file_path ++ reason)] |}).
Proof.
  apply process_file_skips. right. apply contains_infix.
  rewrite <- Hcode. now apply lower_infix.
Qed.

End PerFile.

Section Run.

Variable env : Env.
Variable job : Job.



(** After a file start comes its progress report. *)
Lemma file_rounds_reported total idx todo p evs k p' :
  file_rounds env total idx todo p evs k p' ->
  forall pre e post,
    evs = pre ++ e :: post -> is_file_start e = true ->
    exists i post', post = Progress i total :: post'.
Proof.
  induction 1 as [idx p|idx f rest p Hf
                 |idx f rest p work c err p1 Hf Hw Herr Hf1
                 |idx f rest p work c err p1 evs k p' Hf Hw Herr Hf1 _ IH];
    intros pre e post E He.
  - now destruct pre.
  - destruct pre as [|e1 [|e2 [|e3 pre]]]; cbn [app] in E; try discriminate;
      injection E as; subst; discriminate.
  - destruct pre as [|e1 [|e2 [|e3 pre]]]; cbn [app] in E.
    + injection E as <- _. discriminate.
    + injection E as _ <- <-. eauto.
    + injection E as _ _ <- _. discriminate.
    + injection E as _ _ _ E.
      pose proof (file_events_file_event _ _ _ _ _ Hw) as Hfe.
      apply (split_skip is_file_start) in E; auto.
      2:{ eapply Forall_impl; [|exact Hfe]. now intros a [_ Ha]. }
      destruct E as (pre1 & _ & E).
      apply (split_skip is_file_start) in E; auto.
      2:{ pose proof (closing_file_event _ (error_line_closing _ _ _ Herr)) as Hee.
          eapply Forall_impl; [|exact Hee]. now intros a [_ Ha]. }
      destruct E as (pre2 & _ & E).
      destruct pre2 as [|e4 [|e5 pre2]]; cbn [app] in E; try discriminate;
        injection E as; subst; discriminate.
  - destruct pre as [|e1 [|e2 [|e3 pre]]]; cbn [app] in E.
    + injection E as <- _. discriminate.
    + injection E as _ <- <-. eauto.
    + injection E as _ _ <- _. discriminate.
    + injection E as _ _ _ E.
      pose proof (file_events_file_event _ _ _ _ _ Hw) as Hfe.
      apply (split_skip is_file_start) in E; auto.
      2:{ eapply Forall_impl; [|exact Hfe]. now intros a [_ Ha]. }
      destruct E as (pre1 & _ & E).
      apply (split_skip is_file_start) in E; auto.
      2:{ pose proof (closing_file_event _ (error_line_closing _ _ _ Herr)) as Hee.
          eapply Forall_impl; [|exact Hee]. now intros a [_ Ha]. }
      destruct E as (pre2 & _ & E).
      destruct pre2 as [|e4 pre2]; cbn [app] in E.
      * injection E as <- _. discriminate.
      * injection E as _ E. now apply (IH pre2 e post).
Qed.

(** C7 (amended). In a run over a list of files, every file that is
    started is announced by its log line, followed at once by the
    progress report [(idx, total)] of its index; these pairs come in
    the order of the list, for the first [k] files, all of them when
    the flag is never set; and one report [(total, total)] follows
    them, on normal completion as on cancellation.  When the file
    list cannot be iterated, the run emits the error signal and the
    completion signal, and no progress report. *)
Theorem run_progress (st : St) :
  let evs := new_events st (snd (run env job st)) in
  (forall l, files job = PyList l ->
     exists k,
       k <= length l /\
       filter (fun e => is_file_start e || is_progress e) evs =
         flat_map (fun it => [Log (L "Processing file: " ++ snd it);
                              Progress (fst it) (length l)])
                  (combine (seq 0 k) l)
         ++ [Progress (length l) (length l)] /\
       (forall pre e post,
          evs = pre ++ e :: post -> is_file_start e = true ->
          exists i post', post = Progress i (length l) :: post') /\
       ((forall n, flag env n = false) -> k = length l)) /\
  (files job = PyNone ->
   evs = [ErrorSig (L "Critical error: object of type 'NoneType' has no len()");
          Finished]).
Proof.
  cbv zeta. split.
  - intros l Hfiles.
    destruct (run_list env job l st Hfiles) as (st1 & evs1 & k & Hsh & _ & _ & Hrun).
    rewrite (new_events_app _ _ _ Hrun).
    destruct (file_rounds_progress _ _ _ _ _ _ _ _ Hsh) as (Hk & _ & Hstarts & Hall & _).
    exists k. split; [exact Hk|]. split; [|split; [|exact Hall]].
    + rewrite filter_app, Hstarts. f_equal.
      destruct (flag env (polls st1)); reflexivity.
    + intros pre e post E He.
      assert (Htail : Forall (fun e => is_file_start e = false)
                ([Progress (length l) (length l); Polled (flag env (polls st1))]
                   ++ (if flag env (polls st1) then [] else [Log completed_msg])
                   ++ [Finished])).
      { destruct (flag env (polls st1)); repeat constructor. }
      apply app_eq_app in E. destruct E as (x & [[-> E]|[-> E]]).
      * destruct x as [|e' x]; cbn [app] in E.
        -- injection E as -> _. discriminate.
        -- injection E as <- ->.
           destruct (file_rounds_reported _ _ _ _ _ _ _ Hsh pre e x eq_refl He)
             as (i & post' & ->).
           exists i, (post' ++ [Progress (length l) (length l);
                                Polled (flag env (polls st1))]
                        ++ (if flag env (polls st1) then [] else [Log completed_msg])
                        ++ [Finished]).
           reflexivity.
      * rewrite E in Htail. apply Forall_app in Htail. destruct Htail as [_ H].
        inversion H; congruence.
  - intros Hfiles. rewrite (run_none env job st Hfiles). cbn [snd].
    apply new_events_app. reflexivity.
Qed.

(** X12. A file that cannot be read does not end the run: the error
    is logged, with the path as [repr] shows it, and the loop goes on
    with the next file. *)
Theorem run_files_missing_file (total_files idx : nat) (file_path : str)
    (rest : list str) (st : St)
    (Hflag1 : flag env (polls st) = false)
    (Hflag2 : flag env (S (polls st)) = false)
    (Hfresh : lookup (fs st) (get_target_path job file_path) = None)
    (Hcode : contains (lower file_path) (L "." ++ target_lang job ++ L ".") = false)
    (Hmissing : lookup (fs st) file_path = None) :
  run_files env job total_files idx (file_path :: rest) st =
  run_files env job total_files (S idx) rest
    {| fs := fs st; posts := posts st; polls := S (S (polls st));
       trace := trace st ++
         [Polled false;
          Log (L "Processing file: " ++ file_path);
          Progress idx total_files;
          Log (L "Error processing " ++ file_path ++ L ": "
                 ++ L "[Errno 2] No such file or directory: " ++ repr file_path);
          Polled false] |}.
Proof.
  cbn [run_files]. unfold bind at 1, is_cancelled at 1. cbv beta iota zeta.
  rewrite Hflag1. unfold bind at 1, emit at 1. cbv beta iota.
  unfold bind at 1, emit at 1. cbv beta iota. cbn [fs posts polls trace].
  unfold bind at 1, try_except at 1, process_file at 1.
  unfold bind at 1, path_exists at 1. cbv beta iota. cbn [fs posts polls trace].
  rewrite Hfresh, Hcode. unfold bind at 1, read_file at 1. cbn [fs posts polls trace].
  rewrite Hmissing. unfold emit at 1. cbv beta iota. cbn [fs posts polls trace].
  unfold bind at 1, is_cancelled at 1. cbv beta iota zeta. cbn [fs posts polls trace].
  rewrite Hflag2. rewrite <- !app_assoc. reflexivity.
Qed.

(** X13. A run never removes or changes a file that was there when it
    started: whatever it writes goes to paths that did not exist. *)
Theorem run_keeps_files (st : St) (path content : str)
    (Hthere : lookup (fs st) path = Some content) :
  lookup (fs (snd (run env job st))) path = Some content.
Proof.
  destruct (files job) as [l|] eqn:Hfiles.
  - destruct (run_list env job l st Hfiles) as (st1 & evs & k & _ & Hkeep & Hfs & _).
    rewrite Hfs. now apply Hkeep.
  - rewrite (run_none env job st Hfiles). exact Hthere.
Qed.

(** X14. In a run over a list of [n] files the progress reports are
    [(0, n), (1, n), ..., (k-1, n)] for the [k <= n] files that were
    started, in this order, followed by [(n, n)]; when the flag is
    never set, every file is started. *)
Theorem run_progress_sequence (l : list str) (st : St)
    (Hfiles : files job = PyList l) :
  exists k,
    k <= length l /\
    filter is_progress (new_events st (snd (run env job st))) =
      map (fun i => Progress i (length l)) (seq 0 k)
      ++ [Progress (length l) (length l)] /\
    ((forall n, flag env n = false) -> k = length l).
Proof.
  destruct (run_list env job l st Hfiles) as (st1 & evs1 & k & Hsh & _ & _ & Hrun).
  destruct (file_rounds_progress _ _ _ _ _ _ _ _ Hsh) as (Hk & Hprog & _ & Hall & _).
  exists k. split; [exact Hk|]. split; [|exact Hall].
  rewrite (new_events_app _ _ _ Hrun). rewrite filter_app, Hprog. f_equal.
  destruct (flag env (polls st1)); reflexivity.
Qed.

(** X15. On every exit path the completion signal is emitted exactly
    once, as the last event; the error signal is emitted only when
    the file list cannot be iterated. *)
Theorem run_finished_once (st : St) :
  exists evs,
    trace (snd (run env job st)) = trace st ++ evs ++ [Finished] /\
    ~ In Finished evs /\
    (forall l, files job = PyList l -> forall msg, ~ In (ErrorSig msg) evs).
Proof.
  destruct (files job) as [l|] eqn:Hfiles.
  - destruct (run_list env job l st Hfiles) as (st1 & evs1 & k & Hsh & _ & _ & Hrun).
    destruct (file_rounds_progress _ _ _ _ _ _ _ _ Hsh) as (_ & _ & _ & _ & Hsig).
    set (evs := evs1 ++ [Progress (length l) (length l); Polled (flag env (polls st1))]
                     ++ if flag env (polls st1) then [] else [Log completed_msg]).
    assert (Hall : Forall (fun e => is_signal e = false) evs).
    { apply Forall_app. split; [exact Hsig|].
      destruct (flag env (polls st1)); repeat constructor. }
    exists evs. rewrite Forall_forall in Hall. split; [|split].
    + rewrite Hrun. unfold evs. rewrite <- !app_assoc. reflexivity.
    + intros Hin. apply Hall in Hin. discriminate.
    + intros l' _ msg Hin. apply Hall in Hin. discriminate.
  - exists [ErrorSig (L "Critical error: object of type 'NoneType' has no len()")].
    split; [|split].
    + rewrite (run_none env job st Hfiles). reflexivity.
    + intros [H|[]]. discriminate.
    + intros l H. discriminate.
Qed.

End Run.

(** ** Instances *)

Lemma process_file_soft_failure_witness :
  exists st',
    process_file down_then_up demo_job (L "movie.srt")
      (init_st [(L "movie.srt", two_blocks)]) = (Val tt, st') /\
    fs st' =
      [(L "movie.de.srt",
        L "1" ++ [nl] ++ tr1 ++ [nl] ++ L "Hello <i>world</i>" ++ [nl; nl]
        ++ L "2" ++ [nl] ++ tr2 ++ [nl] ++ L "GOODBYE" ++ [nl; nl]);
       (L "movie.srt", two_blocks)] /\
    Forall (fun b => In (request_event demo_job (snd b))
                        (new_events (init_st [(L "movie.srt", two_blocks)]) st'))
           (parse_srt (universal_newlines two_blocks)).
Proof.
  apply (process_file_soft_failure down_then_up demo_job (L "movie.srt") two_blocks
           (init_st [(L "movie.srt", two_blocks)])).
  - reflexivity.
  - split; reflexivity.
  - reflexivity.
  - reflexivity.
  - reflexivity.
  - vm_compute. discriminate.
Defined.

Lemma process_file_all_or_nothing_witness :
  let st := init_st [(L "movie.srt", two_blocks)] in
  let res := fst (process_file (cancel_after 1) demo_job (L "movie.srt") st) in
  let st' := snd (process_file (cancel_after 1) demo_job (L "movie.srt") st) in
  res = Val tt /\ after_cancel (new_events st st') = Some [] /\
  fs st' = fs st /\ Forall (fun e => is_write e = false) (new_events st st').
Proof.
  apply (proj1 (process_file_all_or_nothing (cancel_after 1) demo_job (L "movie.srt")
                  (init_st [(L "movie.srt", two_blocks)]))).
  vm_compute. discriminate.
Defined.

(** An error of the disk during the save is another matter: the
    target is left with what had been written. *)
Example save_srt_partial :
  let st := init_st [(L "movie.srt", two_blocks)] in
  let res := fst (process_file full_disk demo_job (L "movie.srt") st) in
  let st' := snd (process_file full_disk demo_job (L "movie.srt") st) in
  res = Exc (L "[Errno 28] No space left on device") /\
  lookup (fs st') (L "movie.de.srt") =
    Some (L "1" ++ [nl] ++ tr1 ++ [nl] ++ L "HELLO <i").
Proof. vm_compute. split; reflexivity. Qed.

(** C7 (as stated, refuted). When the file list cannot be iterated the
    run ends through the error channel: the trace holds the error
    signal and the completion signal, and no progress report at all. *)
Lemma run_fatal_no_progress :
  trace (snd (run echo_upper broken_job (init_st []))) =
    [ErrorSig (L "Critical error: object of type 'NoneType' has no len()"); Finished]
  /\ ~ exists total,
        In (Progress total total) (trace (snd (run echo_upper broken_job (init_st [])))).
Proof.
  split; [reflexivity|]. intros [total [H|[H|[]]]]; discriminate.
Qed.


Lemma run_progress_witness :
  let st := init_st [(L "movie.srt", two_blocks)] in
  let evs := new_events st (snd (run echo_upper demo_job st)) in
  exists k,
    k <= 1 /\
    filter (fun e => is_file_start e || is_progress e) evs =
      flat_map (fun it => [Log (L "Processing file: " ++ snd it); Progress (fst it) 1])
               (combine (seq 0 k) [L "movie.srt"])
      ++ [Progress 1 1] /\
    (forall pre e post,
       evs = pre ++ e :: post -> is_file_start e = true ->
       exists i post', post = Progress i 1 :: post') /\
    ((forall n, flag echo_upper n = false) -> k = 1).
Proof.
  apply (proj1 (run_progress echo_upper demo_job (init_st [(L "movie.srt", two_blocks)]))
           [L "movie.srt"]).
  reflexivity.
Defined.

(** C5 (the code against the claim). The file name holds the target
    code [zh-CN] as a dotted segment and the target does not exist,
    yet the file is not skipped: the lower-cased path is searched for
    the code in its original case.  Requests are sent and the target
    is written. *)
Theorem process_file_mixed_case_code :
  let file_path := L "movie.zh-CN.sdh.srt" in
  let st := init_st [(file_path, two_blocks)] in
  let st' := snd (process_file echo_upper zh_job file_path st) in
  contains file_path (L "." ++ target_lang zh_job ++ L ".") = true /\
  lookup (fs st) (get_target_path zh_job file_path) = None /\
  contains (lower file_path) (L "." ++ target_lang zh_job ++ L ".") = false /\
  existsb is_post (trace st') = true /\
  existsb is_wrote (trace st') = true /\
  lookup (fs st') (L "movie.zh-CN.zh-CN.srt") <> None.
Proof.
  vm_compute. repeat split; discriminate.
Qed.

(** The same file under a lower-case code is skipped. *)
Example process_file_lower_case_code :
  let file_path := L "movie.de.sdh.srt" in
  let st := init_st [(file_path, two_blocks)] in
  process_file echo_upper demo_job file_path st =
  (Val tt, {| fs := fs st; posts := 0; polls := 0;
              trace := [Log (L "Skipping movie.de.sdh.srt - already has target language code")] |}).
Proof. vm_compute. reflexivity. Qed.

Lemma process_file_code_in_path_witness :
  exists reason,
    process_file echo_upper demo_job (L "Movie.DE.sdh.srt") (init_st []) =
    (Val tt, {| fs := []; posts := 0; polls := 0;
                trace := [] ++ [Log (L "Skipping " ++ L "Movie.DE.sdh.srt" ++ reason)] |}).
Proof.
  apply (process_file_code_in_path echo_upper demo_job (L "Movie.DE.sdh.srt") (L ".DE.")
           (init_st [])).
  - exists (L "Movie"), (L "sdh.srt"). reflexivity.
  - reflexivity.
Defined.

(** [repr] picks the quotes and escapes as Python does. *)
Example repr_examples :
  repr (L "movie.srt") = L "'movie.srt'" /\
  repr (L "it's.srt") = dquote :: L "it's.srt" ++ [dquote] /\
  repr (L "a" ++ [nl] ++ L "b") = L "'a\nb'" /\
  repr (L "it's " ++ [dquote] ++ L "x" ++ [dquote]) =
    L "'it\'s " ++ [dquote] ++ L "x" ++ [dquote] ++ L "'" /\
  repr [ascii_of_nat 27; ascii_of_nat 233; ascii_of_nat 160] =
    L "'\x1b" ++ [ascii_of_nat 233] ++ L "\xa0'".
Proof. repeat split; reflexivity. Qed.

Lemma run_files_missing_file_witness :
  run_files echo_upper demo_job 2 0 [L "it's gone.srt"; L "movie.srt"]
    (init_st [(L "movie.srt", two_blocks)]) =
  run_files echo_upper demo_job 2 1 [L "movie.srt"]
    {| fs := [(L "movie.srt", two_blocks)]; posts := 0; polls := 2;
       trace := [] ++
         [Polled false;
          Log (L "Processing file: " ++ L "it's gone.srt");
          Progress 0 2;
          Log (L "Error processing " ++ L "it's gone.srt" ++ L ": "
                 ++ L "[Errno 2] No such file or directory: "
                 ++ repr (L "it's gone.srt"));
          Polled false] |}.
Proof.
  apply (run_files_missing_file echo_upper demo_job 2 0 (L "it's gone.srt") [L "movie.srt"]
           (init_st [(L "movie.srt", two_blocks)])); reflexivity.
Defined.

Lemma run_keeps_files_witness :
  lookup (fs (snd (run echo_upper demo_job (init_st [(L "movie.srt", two_blocks)]))))
         (L "movie.srt") = Some two_blocks.
Proof.
  apply (run_keeps_files echo_upper demo_job (init_st [(L "movie.srt", two_blocks)])
           (L "movie.srt") two_blocks).
  reflexivity.
Defined.

Lemma run_progress_sequence_witness :
  exists k,
    k <= 1 /\
    filter is_progress
      (new_events (init_st [(L "movie.srt", two_blocks)])
         (snd (run echo_upper demo_job (init_st [(L "movie.srt", two_blocks)])))) =
      map (fun i => Progress i 1) (seq 0 k) ++ [Progress 1 1] /\
    ((forall n, flag echo_upper n = false) -> k = 1).
Proof.
  apply (run_progress_sequence echo_upper demo_job [L "movie.srt"]
           (init_st [(L "movie.srt", two_blocks)])).
  reflexivity.
Defined.
